(** * tgo: lowering Go SSA to LLVM IR

    A shallow embedding of [tgo.go].  The Go packages the compiler is built on
    ([go/types], [go/constant], [go/token], [x/tools/go/ssa], the LLVM
    bindings, [os]) are modelled as data, one Rocq module per Go package.
    Pointers that the compiler uses as map keys (SSA values, basic blocks,
    functions) are addresses into a heap; operands are addresses, so the
    cyclic SSA graph is represented as it is and the recursion of
    [parseExpr] is bounded by fuel.  The LLVM module is a record of the
    objects created in it, in creation order, and every [Compiler] method is
    a function in a state and error monad over the compiler and the frame.

    The diagnostic [fmt.Print*] calls of the lowering passes are not
    modelled. *)

From Stdlib Require Import ZArith Ascii String List.
From stdpp Require Import base option list gmap strings sorting.

Set Warnings "-register-all".

Open Scope string_scope.
Open Scope list_scope.
Open Scope Z_scope.

(** ** Outcomes of a Go call *)

(** The values of [error] the compiler creates with [errors.New], one
    constructor per call site, and [ErrExternal] for the errors returned by
    the loader, the LLVM bindings and the operating system. *)
Inductive error : Type :=
  | ErrUnknownBasicType        (* "todo: unknown basic type: ..." *)
  | ErrUnknownType             (* "todo: unknown type: ..." *)
  | ErrReturnValues            (* "todo: return values" *)
  | ErrReturnValue             (* "todo: return value" *)
  | ErrUnknownInstruction      (* "unknown instruction: ..." *)
  | ErrUnknownBasicArgType     (* "unknown basic arg type: ..." *)
  | ErrUnknownArgType          (* "unknown arg type: ..." *)
  | ErrTodoBuiltin (name : string)        (* "todo: builtin: " + name *)
  | ErrUndefinedFunction (name : string)  (* "undefined function: " + name *)
  | ErrUnknownCallType         (* "todo: unknown call type: ..." *)
  | ErrUnknownExpression       (* "todo: unknown expression: ..." *)
  | ErrUnknownBinop            (* "unknown binop" *)
  | ErrUnknownConstant         (* "todo: unknown constant" *)
  | ErrUnknownUnop             (* "todo: unknown unop" *)
  | ErrTodoMember              (* "todo: member: ..." *)
  | ErrExternal (msg : string).

(** A call returns normally ([Ok]), returns a non-nil [error] ([Err]), stops
    the program with a run-time panic ([Panic]: index out of range, failed
    type assertion, nil dereference), or exhausts the recursion bound
    ([OutOfFuel]). *)
Inductive outcome (A : Type) : Type :=
  | Ok (a : A)
  | Err (e : error)
  | Panic
  | OutOfFuel.
Arguments Ok {A} a.
Arguments Err {A} e.
Arguments Panic {A}.
Arguments OutOfFuel {A}.

Definition is_Ok {A} (o : outcome A) : bool :=
  match o with Ok _ => true | _ => false end.

Definition obind {A B} (o : outcome A) (k : A -> outcome B) : outcome B :=
  match o with
  | Ok a => k a
  | Err e => Err e
  | Panic => Panic
  | OutOfFuel => OutOfFuel
  end.

(** State and error monad: the state is kept on every exit. *)
Definition M (S A : Type) : Type := S -> outcome A * S.

Definition ret {S A} (a : A) : M S A := fun s => (Ok a, s).
Definition throw {S A} (e : error) : M S A := fun s => (Err e, s).
Definition panic {S A} : M S A := fun s => (Panic, s).
Definition lift {S A} (o : outcome A) : M S A := fun s => (o, s).
Definition gets {S A} (f : S -> A) : M S A := fun s => (Ok (f s), s).
Definition modify {S} (f : S -> S) : M S unit := fun s => (Ok tt, f s).

Definition bind {S A B} (m : M S A) (k : A -> M S B) : M S B :=
  fun s =>
    match m s with
    | (Ok a, s') => k a s'
    | (Err e, s') => (Err e, s')
    | (Panic, s') => (Panic, s')
    | (OutOfFuel, s') => (OutOfFuel, s')
    end.

Declare Scope go_scope.
Delimit Scope go_scope with go.
Notation "x <- m ;; k" := (bind m (fun x => k))
  (at level 100, m at next level, right associativity) : go_scope.
Notation "m ;;; k" := (bind m (fun _ => k))
  (at level 100, right associativity) : go_scope.
Open Scope go_scope.

(** [for _, x := range l { body }] with early return on error. *)
Fixpoint forM {S A} (l : list A) (body : A -> M S unit) : M S unit :=
  match l with
  | [] => ret tt
  | x :: l' => body x ;;; forM l' body
  end.

(** [for i, x := range l { body }]. *)
Fixpoint forM_from {S A} (i : nat) (l : list A) (body : nat -> A -> M S unit)
  : M S unit :=
  match l with
  | [] => ret tt
  | x :: l' => body i x ;;; forM_from (Datatypes.S i) l' body
  end.

(** A loop that collects one result per element. *)
Fixpoint mapM {S A B} (f : A -> M S B) (l : list A) : M S (list B) :=
  match l with
  | [] => ret []
  | x :: l' => y <- f x ;; ys <- mapM f l' ;; ret (y :: ys)
  end.

(** ** Go strings *)

Module strings.

(** [strings.IndexByte]: index of the first [c] in [s], or -1. *)
Fixpoint IndexByte (s : string) (c : ascii) : Z :=
  match s with
  | EmptyString => -1
  | String a s' =>
      if Ascii.eqb a c then 0
      else let i := IndexByte s' c in if i =? -1 then -1 else i + 1
  end.

(** [strings.Split] for a separator of one byte: the pieces between the
    occurrences of [sep] ([n] occurrences give [n+1] pieces). *)
Fixpoint Split (s : string) (sep : ascii) : list string :=
  match s with
  | EmptyString => [EmptyString]
  | String a s' =>
      if Ascii.eqb a sep then EmptyString :: Split s' sep
      else match Split s' sep with
           | [] => [String a EmptyString]
           | p :: ps => String a p :: ps
           end
  end.

(** [sort.Strings]: ascending byte-wise order. *)
Definition Sort (l : list string) : list string := merge_sort String.le l.

(** The bytes of a string, as numbers. *)
Definition bytes (s : string) : list Z :=
  map (fun a => Z.of_N (N_of_ascii a)) (list_ascii_of_string s).

(** [len(s)] *)
Definition len (s : string) : Z := Z.of_nat (String.length s).

End strings.

(** [s] contains the byte [c]. *)
Definition contains (s : string) (c : ascii) : Prop :=
  In c (list_ascii_of_string s).

(** ** go/types *)

Module types.

Inductive BasicKind : Type :=
  | Bool | Int | Int8 | Int16 | Int32 | Int64
  | Uint | Uint8 | Uint16 | Uint32 | Uint64 | Uintptr
  | Float32 | Float64 | Complex64 | Complex128
  | String | UnsafePointer
  | UntypedBool | UntypedInt | UntypedRune | UntypedFloat
  | UntypedComplex | UntypedString | UntypedNil.

(** The type constructors.  A struct is given by the types of its fields,
    in order; a named type carries its underlying type, so the types of
    the model are finite trees. *)
Inductive Type_ : Type :=
  | Basic (kind : BasicKind)
  | Named (name : string) (underlying : Type_)
  | Pointer (elem : Type_)
  | Struct (fields : list Type_)
  | Slice (elem : Type_)
  | Array (elem : Type_) (n : Z)
  | Map (key elem : Type_)
  | Chan (elem : Type_)
  | Interface
  | Signature (params results : list Type_)
  | Tuple (elems : list Type_).

(** [t.Underlying()] *)
Definition Underlying (t : Type_) : Type_ :=
  match t with
  | Named _ u => u
  | _ => t
  end.

End types.

(** ** go/constant *)

Module constant.

(** Constant values; integers have arbitrary precision. *)
Inductive Value : Type :=
  | Unknown
  | Bool (b : bool)
  | String (s : string)
  | Int (n : Z)
  | Float (num den : Z)
  | Complex (re im : Z).

Inductive Kind_ : Type := KUnknown | KBool | KString | KInt | KFloat | KComplex.

Definition Kind (v : Value) : Kind_ :=
  match v with
  | Unknown => KUnknown
  | Bool _ => KBool
  | String _ => KString
  | Int _ => KInt
  | Float _ _ => KFloat
  | Complex _ _ => KComplex
  end.

Definition StringVal (v : Value) : string :=
  match v with
  | String s => s
  | _ => ""
  end.

(** The signed 64-bit integer with the same low 64 bits. *)
Definition wrap64 (n : Z) : Z := (n + 2^63) mod 2^64 - 2^63.

(** [constant.Int64Val]: the [int64] value of an [Int] and whether it is
    exact.  A value outside the [int64] range yields its low 64 bits
    (what [big.Int.Int64] returns) and [false]. *)
Definition Int64Val (v : Value) : Z * bool :=
  match v with
  | Int n => (wrap64 n, (- 2^63 <=? n) && (n <? 2^63))
  | _ => (0, false)
  end.

End constant.

(** ** go/token *)

Module token.

Inductive Token : Type :=
  | ADD | SUB | MUL | QUO | REM
  | AND | OR | XOR | SHL | SHR | AND_NOT
  | EQL | NEQ | LSS | LEQ | GTR | GEQ
  | NOT | ARROW | LAND | LOR.

End token.

(** ** The LLVM bindings *)

Module llvm.

Inductive Type_ : Type :=
  | VoidType
  | IntType (bits : Z)
  | PointerType (elem : Type_) (addrspace : Z)
  | StructType (elems : list Type_) (packed : bool)
  | ArrayType (elem : Type_) (n : Z)
  | FunctionType (ret : Type_) (params : list Type_) (variadic : bool).

Definition Int1Type : Type_ := IntType 1.
Definition Int8Type : Type_ := IntType 8.
Definition Int32Type : Type_ := IntType 32.

(** [llvm.BasicBlock]: a block of the module, by creation index, or the zero
    value [llvm.BasicBlock{}]. *)
Inductive BasicBlock : Type :=
  | NilBlock
  | Block (index : nat).

(** [llvm.Value]: constants, and the functions, globals and instructions of
    the module by creation index.  [NilValue] is the zero value
    [llvm.Value{}]. *)
Inductive Value : Type :=
  | NilValue
  | CInt (t : Type_) (n : Z)
  | CStruct (fields : list Value) (packed : bool)
  | CDataArray (bytes : list Z)
  | StringPtr (global : nat)
  | GlobalValue (global : nat)
  | FunctionValue (function : nat)
  | ParamValue (function : Value) (i : Z)
  | InstrValue (instr : nat).

(** [llvm.ConstInt(t, n, signExtend)]: the constant of the integer type [t]
    with the low [bits t] bits of [n]. *)
Definition ConstInt (t : Type_) (n : Z) (signExtend : bool) : Value :=
  match t with
  | IntType bits => CInt t (n mod 2 ^ bits)
  | _ => NilValue
  end.

Definition ConstStruct (fields : list Value) (packed : bool) : Value :=
  CStruct fields packed.

(** [v.Type()] of a constant. *)
Fixpoint TypeOf (v : Value) : Type_ :=
  match v with
  | CInt t _ => t
  | CStruct fields packed => StructType (map TypeOf fields) packed
  | CDataArray bytes => ArrayType Int8Type (Z.of_nat (length bytes))
  | StringPtr _ => PointerType Int8Type 0
  | _ => VoidType
  end.

Inductive Linkage : Type := ExternalLinkage | PrivateLinkage.

Inductive BinaryOp : Type :=
  | Add | Sub | Mul | SDiv | SRem | And | Or | Xor | Shl | AShr.

Inductive IntPredicate : Type :=
  | IntEQ | IntNE | IntSLT | IntSLE | IntSGT | IntSGE.

Inductive Opcode : Type :=
  | Call (fn : Value) (args : list Value)
  | PHI (t : Type_) (incoming : list (Value * BasicBlock))
  | Binary (op : BinaryOp) (x y : Value)
  | Not (x : Value)
  | ICmp (pred : IntPredicate) (x y : Value)
  | Load (ptr : Value)
  | Store (val ptr : Value)
  | GEP (ptr : Value) (indices : list Value)
  | Malloc (t : Type_)
  | Alloca (t : Type_)
  | Br (dest : BasicBlock)
  | CondBr (cond : Value) (thenb elseb : BasicBlock)
  | Ret (val : Value)
  | RetVoid.

Record Function : Type := {
  fn_name : string;
  fn_type : Type_
}.

Record Global : Type := {
  g_name : string;
  g_type : Type_;
  g_initializer : option Value;
  g_constant : bool;
  g_linkage : Linkage
}.

Record BlockInfo : Type := {
  b_parent : Value;
  b_name : string
}.

Record Instruction : Type := {
  i_parent : BasicBlock;
  i_name : string;
  i_op : Opcode
}.

(** [llvm.Module]: the functions, globals, basic blocks and instructions
    created so far, each list in creation order.  An object is referred to
    by its index in its list, so an index, once given, stays valid.  The
    instructions of a block are those whose parent it is, in creation order:
    the builder only ever appends at the end of a block.  Names are kept as
    requested; the backend's renaming of a name already taken is not
    modelled. *)
Record Module : Type := {
  m_name : string;
  functions : list Function;
  globals : list Global;
  blocks : list BlockInfo;
  instrs : list Instruction
}.

Definition NewModule (name : string) : Module :=
  {| m_name := name; functions := []; globals := []; blocks := []; instrs := [] |}.

Definition set_functions (f : list Function -> list Function) (m : Module) :=
  {| m_name := m_name m; functions := f (functions m); globals := globals m;
     blocks := blocks m; instrs := instrs m |}.
Definition set_globals (f : list Global -> list Global) (m : Module) :=
  {| m_name := m_name m; functions := functions m; globals := f (globals m);
     blocks := blocks m; instrs := instrs m |}.
Definition set_blocks (f : list BlockInfo -> list BlockInfo) (m : Module) :=
  {| m_name := m_name m; functions := functions m; globals := globals m;
     blocks := f (blocks m); instrs := instrs m |}.
Definition set_instrs (f : list Instruction -> list Instruction) (m : Module) :=
  {| m_name := m_name m; functions := functions m; globals := globals m;
     blocks := blocks m; instrs := f (instrs m) |}.

(** Index of the first element that satisfies [p]. *)
Fixpoint find_index {A} (p : A -> bool) (l : list A) : option nat :=
  match l with
  | [] => None
  | x :: l' => if p x then Some O else option_map S (find_index p l')
  end.

Definition AddFunction (m : Module) (name : string) (t : Type_) : Value * Module :=
  (FunctionValue (length (functions m)),
   set_functions (fun l => l ++ [{| fn_name := name; fn_type := t |}]) m).

(** [m.NamedFunction(name)]: the function of that name, or the nil value. *)
Definition NamedFunction (m : Module) (name : string) : Value :=
  match find_index (fun f => String.eqb (fn_name f) name) (functions m) with
  | Some i => FunctionValue i
  | None => NilValue
  end.

Definition IsNil (v : Value) : bool :=
  match v with NilValue => true | _ => false end.

Definition AddGlobal (m : Module) (t : Type_) (name : string) : Value * Module :=
  (GlobalValue (length (globals m)),
   set_globals (fun l => l ++ [{| g_name := name; g_type := t;
                                  g_initializer := None; g_constant := false;
                                  g_linkage := ExternalLinkage |}]) m).

Definition NamedGlobal (m : Module) (name : string) : Value :=
  match find_index (fun g => String.eqb (g_name g) name) (globals m) with
  | Some i => GlobalValue i
  | None => NilValue
  end.

Definition alter_global (f : Global -> Global) (g : Value) (m : Module) : Module :=
  match g with
  | GlobalValue i => set_globals (alter f i) m
  | _ => m
  end.

Definition SetInitializer (g v : Value) : Module -> Module :=
  alter_global (fun x => {| g_name := g_name x; g_type := g_type x;
                            g_initializer := Some v; g_constant := g_constant x;
                            g_linkage := g_linkage x |}) g.

Definition SetGlobalConstant (g : Value) (b : bool) : Module -> Module :=
  alter_global (fun x => {| g_name := g_name x; g_type := g_type x;
                            g_initializer := g_initializer x; g_constant := b;
                            g_linkage := g_linkage x |}) g.

Definition SetLinkage (g : Value) (l : Linkage) : Module -> Module :=
  alter_global (fun x => {| g_name := g_name x; g_type := g_type x;
                            g_initializer := g_initializer x;
                            g_constant := g_constant x; g_linkage := l |}) g.

Definition AddBasicBlock (m : Module) (fn : Value) (name : string)
  : BasicBlock * Module :=
  (Block (length (blocks m)),
   set_blocks (fun l => l ++ [{| b_parent := fn; b_name := name |}]) m).

(** The builder creates an instruction at its insertion point. *)
Definition insert (at_ : BasicBlock) (op : Opcode) (name : string) (m : Module)
  : Value * Module :=
  (InstrValue (length (instrs m)),
   set_instrs (fun l => l ++ [{| i_parent := at_; i_name := name; i_op := op |}]) m).

(** A C string: the bytes before the first NUL. *)
Fixpoint cstring (bytes : list Z) : list Z :=
  match bytes with
  | [] => []
  | b :: bytes' => if b =? 0 then [] else b :: cstring bytes'
  end.

(** [b.CreateGlobalStringPtr(str, name)].  The binding passes [str] to
    [LLVMBuildGlobalStringPtr] as a C string, and the builder makes a
    private constant global holding the characters followed by a
    terminating NUL; the result is the address of its first byte.  The
    backend finds the module through the block in which the builder
    inserts; this is the behaviour of a builder that is positioned in a
    block of a function of the module. *)
Definition CreateGlobalStringPtr (bytes : list Z) (name : string) (m : Module)
  : Value * Module :=
  let data := cstring bytes ++ [0] in
  (StringPtr (length (globals m)),
   set_globals (fun l => l ++ [{| g_name := name;
                                  g_type := ArrayType Int8Type (Z.of_nat (length data));
                                  g_initializer := Some (CDataArray data);
                                  g_constant := true;
                                  g_linkage := PrivateLinkage |}]) m).

(** [phi.AddIncoming(vals, blocks)] *)
Definition AddIncoming (phi : Value) (vals : list Value) (bs : list BasicBlock)
  (m : Module) : Module :=
  match phi with
  | InstrValue i =>
      set_instrs (alter (fun x =>
        match i_op x with
        | PHI t incoming =>
            {| i_parent := i_parent x; i_name := i_name x;
               i_op := PHI t (incoming ++ zip vals bs) |}
        | _ => x
        end) i) m
  | _ => m
  end.

(** The incoming pairs of a φ instruction. *)
Definition Incoming (m : Module) (phi : Value) : option (list (Value * BasicBlock)) :=
  match phi with
  | InstrValue i =>
      match instrs m !! i with
      | Some x => match i_op x with PHI _ incoming => Some incoming | _ => None end
      | None => None
      end
  | _ => None
  end.

End llvm.

(** ** go/ast *)

Module ast.

(** [ast.IsExported]: the name begins with an upper-case letter (the ASCII
    letters are modelled). *)
Definition IsExported (name : string) : bool :=
  match name with
  | EmptyString => false
  | String a _ => let n := N_of_ascii a in ((65 <=? n) && (n <=? 90))%N
  end.

End ast.

(** ** x/tools/go/ssa *)

Module ssa.

(** Addresses of SSA objects: the identity of a pointer. *)
Abbreviation addr := positive (only parsing).

(** The callee of a call, [call.Common().Value]: a [*ssa.Builtin], a
    [*ssa.Function] (only their names are consulted), or something else. *)
Inductive Callee : Type :=
  | CalleeBuiltin (name : string)
  | CalleeFunction (name : string)
  | CalleeOther.

(** The objects that implement [ssa.Value] or [ssa.Instruction].  Operands
    are addresses.  [OtherValue] stands for the remaining kinds of value
    (conversions, slices, closures, functions used as values, ...) and
    [OtherInstruction] for the remaining instructions that are not values
    (go, defer, panic, send, ...). *)
Inductive Node : Type :=
  | Alloc (typ : types.Type_) (Heap : bool) (Comment : string)
  | Const (typ : types.Type_) (Value : constant.Value)
  | BinOp (typ : types.Type_) (Op : token.Token) (X Y : addr)
  | Call (typ : types.Type_) (Value : Callee) (Args : list addr)
  | FieldAddr (typ : types.Type_) (X : addr) (Field : Z)
  | Global_ (typ : types.Type_) (name : string)
  | Parameter_ (typ : types.Type_) (name : string)
  | Phi (typ : types.Type_) (block : addr) (Edges : list addr)
  | UnOp (typ : types.Type_) (Op : token.Token) (X : addr)
  | OtherValue (typ : types.Type_)
  | If (block : addr) (Cond : addr)
  | Jump (block : addr)
  | Return (Results : list addr)
  | Store (Addr Val : addr)
  | OtherInstruction.

(** [v.Type()], for the nodes that are values. *)
Definition TypeOf (n : Node) : option types.Type_ :=
  match n with
  | Alloc t _ _ | Const t _ | BinOp t _ _ _ | Call t _ _ | FieldAddr t _ _
  | Global_ t _ | Parameter_ t _ | Phi t _ _ | UnOp t _ _ | OtherValue t => Some t
  | If _ _ | Jump _ | Return _ | Store _ _ | OtherInstruction => None
  end.

Record BasicBlock : Type := {
  Comment : string;
  Instrs : list addr;
  Preds : list addr;
  Succs : list addr
}.

(** [*ssa.Function].  [self] is the address of the function; [Results] is
    [f.Signature.Results()], [None] for a nil tuple; [Blocks] is empty for
    an external function; [DomPreorder] is the result of
    [f.DomPreorder()]. *)
Record Function : Type := {
  self : addr;
  Name : string;
  Results : option (list types.Type_);
  Params : list addr;
  Blocks : list addr;
  DomPreorder : list addr
}.

Inductive Member : Type :=
  | MemberFunction (f : Function)
  | MemberNamedConst (name : string) (typ : types.Type_) (Value : constant.Value)
  | MemberGlobal (name : string) (typ : types.Type_)
  | MemberType (name : string)
  | MemberOther.

(** [*ssa.Package].  [Members] is the map [pkg.Members] listed in the order
    in which this run of the program ranges over it; its keys are
    distinct. *)
Record Package : Type := {
  Pkg_Path : string;
  Pkg_Name : string;
  Members : list (string * Member)
}.

(** [pkg.Members[name]] *)
Fixpoint lookup_member (l : list (string * Member)) (name : string) : option Member :=
  match l with
  | [] => None
  | (k, m) :: l' => if String.eqb k name then Some m else lookup_member l' name
  end.

(** The SSA objects of the program. *)
Record Heap : Type := {
  values : gmap addr Node;
  blocks : gmap addr BasicBlock
}.

End ssa.

(** ** The compiler *)

Record Phi : Type := {
  Phi_ssa : ssa.addr;
  Phi_llvm : llvm.Value
}.

Module Frame.

Record t : Type := {
  pkgPrefix : string;
  name : string;
  params : gmap ssa.addr Z;
  locals : gmap ssa.addr llvm.Value;
  blocks : gmap ssa.addr llvm.BasicBlock;
  phis : list Phi
}.

Definition set_params (f : gmap ssa.addr Z -> gmap ssa.addr Z) (fr : t) : t :=
  {| pkgPrefix := pkgPrefix fr; name := name fr; params := f (params fr);
     locals := locals fr; blocks := blocks fr; phis := phis fr |}.
Definition set_locals (f : gmap ssa.addr llvm.Value -> gmap ssa.addr llvm.Value)
  (fr : t) : t :=
  {| pkgPrefix := pkgPrefix fr; name := name fr; params := params fr;
     locals := f (locals fr); blocks := blocks fr; phis := phis fr |}.
Definition set_blocks
  (f : gmap ssa.addr llvm.BasicBlock -> gmap ssa.addr llvm.BasicBlock) (fr : t) : t :=
  {| pkgPrefix := pkgPrefix fr; name := name fr; params := params fr;
     locals := locals fr; blocks := f (blocks fr); phis := phis fr |}.
Definition set_phis (f : list Phi -> list Phi) (fr : t) : t :=
  {| pkgPrefix := pkgPrefix fr; name := name fr; params := params fr;
     locals := locals fr; blocks := blocks fr; phis := f (phis fr) |}.

(** [frame.blocks[b]]: the zero value for a missing key. *)
Definition block (fr : t) (b : ssa.addr) : llvm.BasicBlock :=
  default llvm.NilBlock (blocks fr !! b).

(** [frame.params[p]] *)
Definition param (fr : t) (p : ssa.addr) : Z :=
  default 0 (params fr !! p).

End Frame.

Module Compiler.

(** The [Compiler] struct.  [builder] is the block at whose end the builder
    inserts; [machine] is the triple of the target machine. *)
Record t : Type := {
  triple : string;
  mod_ : llvm.Module;
  builder : llvm.BasicBlock;
  machine : string;
  intType : llvm.Type_;
  stringLenType : llvm.Type_;
  stringType : llvm.Type_;
  printstringFunc : llvm.Value;
  printintFunc : llvm.Value;
  printspaceFunc : llvm.Value;
  printnlFunc : llvm.Value
}.

Definition with_mod (f : llvm.Module -> llvm.Module) (c : t) : t :=
  {| triple := triple c; mod_ := f (mod_ c); builder := builder c;
     machine := machine c; intType := intType c;
     stringLenType := stringLenType c; stringType := stringType c;
     printstringFunc := printstringFunc c; printintFunc := printintFunc c;
     printspaceFunc := printspaceFunc c; printnlFunc := printnlFunc c |}.

Definition with_builder (b : llvm.BasicBlock) (c : t) : t :=
  {| triple := triple c; mod_ := mod_ c; builder := b;
     machine := machine c; intType := intType c;
     stringLenType := stringLenType c; stringType := stringType c;
     printstringFunc := printstringFunc c; printintFunc := printintFunc c;
     printspaceFunc := printspaceFunc c; printnlFunc := printnlFunc c |}.

End Compiler.

(** [uint64(n)] of a signed integer. *)
Definition uint64 (n : Z) : Z := n mod 2 ^ 64.

(** An operation of the module that returns a value. *)
Definition on_mod {A} (f : llvm.Module -> A * llvm.Module) : M Compiler.t A :=
  fun c => let '(a, m) := f (Compiler.mod_ c) in
           (Ok a, Compiler.with_mod (fun _ => m) c).

(** The builder emits an instruction at its insertion point. *)
Definition build (op : llvm.Opcode) (name : string) : M Compiler.t llvm.Value :=
  fun c => on_mod (llvm.insert (Compiler.builder c) op name) c.

Definition CreateCall (fn : llvm.Value) (args : list llvm.Value) (name : string) :=
  build (llvm.Call fn args) name.
Definition CreatePHI (t : llvm.Type_) (name : string) := build (llvm.PHI t []) name.
Definition CreateBinary (op : llvm.BinaryOp) (x y : llvm.Value) (name : string) :=
  build (llvm.Binary op x y) name.
Definition CreateNot (x : llvm.Value) (name : string) := build (llvm.Not x) name.
Definition CreateICmp (p : llvm.IntPredicate) (x y : llvm.Value) (name : string) :=
  build (llvm.ICmp p x y) name.
Definition CreateLoad (p : llvm.Value) (name : string) := build (llvm.Load p) name.
Definition CreateStore (v p : llvm.Value) := build (llvm.Store v p) "".
Definition CreateGEP (p : llvm.Value) (idx : list llvm.Value) (name : string) :=
  build (llvm.GEP p idx) name.
(** [CreateMalloc] is kept as one instruction; the call of [malloc] and
    the cast that the backend makes of it, and its declaration of [malloc],
    are not shown. *)
Definition CreateMalloc (t : llvm.Type_) (name : string) := build (llvm.Malloc t) name.
Definition CreateAlloca (t : llvm.Type_) (name : string) := build (llvm.Alloca t) name.
Definition CreateBr (b : llvm.BasicBlock) := build (llvm.Br b) "".
Definition CreateCondBr (c : llvm.Value) (t e : llvm.BasicBlock) :=
  build (llvm.CondBr c t e) "".
Definition CreateRet (v : llvm.Value) := build (llvm.Ret v) "".
Definition CreateRetVoid := build llvm.RetVoid "".

Definition SetInsertPointAtEnd (b : llvm.BasicBlock) : M Compiler.t unit :=
  modify (Compiler.with_builder b).

(** [NewCompiler], after the target has been found: the module named after
    the package, the fixed integer and string types, and the declarations
    of the four runtime functions. *)
Definition NewCompiler_init (pkgName triple : string) : Compiler.t :=
  let m0 := llvm.NewModule pkgName in
  let intType := llvm.Int32Type in
  let stringLenType := llvm.Int32Type in
  let stringType :=
    llvm.StructType [stringLenType; llvm.PointerType llvm.Int8Type 0] false in
  let printstringType := llvm.FunctionType llvm.VoidType [stringType] false in
  let '(printstringFunc, m1) := llvm.AddFunction m0 "__go_printstring" printstringType in
  let printintType := llvm.FunctionType llvm.VoidType [intType] false in
  let '(printintFunc, m2) := llvm.AddFunction m1 "__go_printint" printintType in
  let printspaceType := llvm.FunctionType llvm.VoidType [] false in
  let '(printspaceFunc, m3) := llvm.AddFunction m2 "__go_printspace" printspaceType in
  let printnlType := llvm.FunctionType llvm.VoidType [] false in
  let '(printnlFunc, m4) := llvm.AddFunction m3 "__go_printnl" printnlType in
  {| Compiler.triple := triple; Compiler.mod_ := m4;
     Compiler.builder := llvm.NilBlock; Compiler.machine := triple;
     Compiler.intType := intType; Compiler.stringLenType := stringLenType;
     Compiler.stringType := stringType;
     Compiler.printstringFunc := printstringFunc;
     Compiler.printintFunc := printintFunc;
     Compiler.printspaceFunc := printspaceFunc;
     Compiler.printnlFunc := printnlFunc |}.

(** [getLLVMType], on the finite type terms of [types.Type_]: a recursive
    type, on which the recursion of the source does not end, is not one of
    them. *)
Fixpoint getLLVMType (c : Compiler.t) (goType : types.Type_) : outcome llvm.Type_ :=
  match goType with
  | types.Basic kind =>
      match kind with
      | types.Bool => Ok llvm.Int1Type
      | types.Int => Ok (Compiler.intType c)
      | types.Int32 => Ok llvm.Int32Type
      | types.String => Ok (Compiler.stringType c)
      | types.UnsafePointer => Ok (llvm.PointerType llvm.Int8Type 0)
      | _ => Err ErrUnknownBasicType
      end
  | types.Named _ underlying => getLLVMType c underlying
  | types.Pointer elem =>
      obind (getLLVMType c elem) (fun ptrTo => Ok (llvm.PointerType ptrTo 0))
  | types.Struct fields =>
      obind ((fix members (l : list types.Type_) : outcome (list llvm.Type_) :=
                match l with
                | [] => Ok []
                | f :: l' =>
                    obind (getLLVMType c f) (fun member =>
                    obind (members l') (fun ms => Ok (member :: ms)))
                end) fields)
            (fun ms => Ok (llvm.StructType ms false))
  | _ => Err ErrUnknownType
  end.

(** [getPackageRelativeName] *)
Definition getPackageRelativeName (frame : Frame.t) (name : string) : string :=
  if strings.IndexByte name "." =? -1
  then Frame.pkgPrefix frame +:+ "." +:+ name
  else name.

(** The package prefix that [Parse] computes for the members of a package. *)
Definition pkgPrefix (pkg : ssa.Package) : string :=
  if String.eqb (ssa.Pkg_Name pkg) "main" then "main" else ssa.Pkg_Path pkg.

(** The state of the lowering of one function: the compiler and the frame
    that the methods receive by pointer. *)
Record State : Type := {
  st_c : Compiler.t;
  st_frame : Frame.t
}.

Definition liftC {A} (m : M Compiler.t A) : M State A :=
  fun s => let '(o, c') := m (st_c s) in
           (o, {| st_c := c'; st_frame := st_frame s |}).

Definition modify_frame (f : Frame.t -> Frame.t) : M State unit :=
  modify (fun s => {| st_c := st_c s; st_frame := f (st_frame s) |}).

(** [c.getLLVMType(t)] as an action. *)
Definition getType (t : types.Type_) : M Compiler.t llvm.Type_ :=
  fun c => (getLLVMType c t, c).

(** [parseConst], on [expr.Value] of the [*ssa.Const]. *)
Definition parseConst (Value : constant.Value) : M Compiler.t llvm.Value :=
  match constant.Kind Value with
  | constant.KString =>
      let str := constant.StringVal Value in
      stringLenType <- gets Compiler.stringLenType ;;
      let strLen := llvm.ConstInt stringLenType (uint64 (strings.len str)) false in
      strPtr <- on_mod (llvm.CreateGlobalStringPtr (strings.bytes str) ".str") ;;
      let strObj := llvm.ConstStruct [strLen; strPtr] false in
      ret strObj
  | constant.KInt =>
      let '(n, _) := constant.Int64Val Value in
      intType <- gets Compiler.intType ;;
      ret (llvm.ConstInt intType (uint64 n) true)
  | _ => throw ErrUnknownConstant
  end.

Section Lowering.

Variable heap : ssa.Heap.

(** [v.Type()] of the value at an address; a dangling address or a node
    that is not a value has no counterpart in Go and stops the run. *)
Definition typeOf {S} (v : ssa.addr) : M S types.Type_ :=
  match ssa.values heap !! v with
  | Some n => match ssa.TypeOf n with Some t => ret t | None => panic end
  | None => panic
  end.

Definition blockAt {S} (b : ssa.addr) : M S ssa.BasicBlock :=
  match ssa.blocks heap !! b with
  | Some blk => ret blk
  | None => panic
  end.

(** [l[i]], with the run-time bounds check. *)
Definition index {S A} (l : list A) (i : nat) : M S A :=
  match l !! i with
  | Some x => ret x
  | None => panic
  end.

(** The loop of [parseFuncDecl] over [f.Params]. *)
Fixpoint declParams (i : Z) (ps : list ssa.addr) (paramTypes : list llvm.Type_)
  (frame : Frame.t) : M Compiler.t (list llvm.Type_ * Frame.t) :=
  match ps with
  | [] => ret (paramTypes, frame)
  | param :: ps' =>
      t <- typeOf param ;;
      paramType <- getType t ;;
      declParams (i + 1) ps' (paramTypes ++ [paramType])
        (Frame.set_params <[param := i]> frame)
  end.

(** [parseFuncDecl] *)
Definition parseFuncDecl (pkgPrefix : string) (f : ssa.Function)
  : M Compiler.t Frame.t :=
  let name := pkgPrefix +:+ "." +:+ ssa.Name f in
  let frame := {| Frame.pkgPrefix := pkgPrefix; Frame.name := name;
                  Frame.params := ∅; Frame.locals := ∅; Frame.blocks := ∅;
                  Frame.phis := [] |} in
  retType <- match ssa.Results f with
             | None => ret llvm.VoidType
             | Some [r] => getType r
             | Some _ => throw ErrReturnValues
             end ;;
  r <- declParams 0 (ssa.Params f) [] frame ;;
  let '(paramTypes, frame) := r in
  let fnType := llvm.FunctionType retType paramTypes false in
  on_mod (fun m => llvm.AddFunction m name fnType) ;;;
  ret frame.

(** [parseBinOp], given the lowering of operands. *)
Definition parseBinOp (rec : ssa.addr -> M State llvm.Value)
  (Op : token.Token) (X Y : ssa.addr) : M State llvm.Value :=
  x <- rec X ;;
  y <- rec Y ;;
  match Op with
  | token.ADD => liftC (CreateBinary llvm.Add x y "")
  | token.SUB => liftC (CreateBinary llvm.Sub x y "")
  | token.MUL => liftC (CreateBinary llvm.Mul x y "")
  | token.QUO => liftC (CreateBinary llvm.SDiv x y "")
  | token.REM => liftC (CreateBinary llvm.SRem x y "")
  | token.AND => liftC (CreateBinary llvm.And x y "")
  | token.OR => liftC (CreateBinary llvm.Or x y "")
  | token.XOR => liftC (CreateBinary llvm.Xor x y "")
  | token.SHL => liftC (CreateBinary llvm.Shl x y "")
  | token.SHR => liftC (CreateBinary llvm.AShr x y "")
  | token.AND_NOT =>
      inv <- liftC (CreateNot y "") ;;
      liftC (CreateBinary llvm.And x inv "")
  | token.EQL => liftC (CreateICmp llvm.IntEQ x y "")
  | token.NEQ => liftC (CreateICmp llvm.IntNE x y "")
  | token.LSS => liftC (CreateICmp llvm.IntSLT x y "")
  | token.LEQ => liftC (CreateICmp llvm.IntSLE x y "")
  | token.GTR => liftC (CreateICmp llvm.IntSGT x y "")
  | token.GEQ => liftC (CreateICmp llvm.IntSGE x y "")
  | _ => throw ErrUnknownBinop
  end.

(** [parseUnOp] *)
Definition parseUnOp (rec : ssa.addr -> M State llvm.Value)
  (Op : token.Token) (X : ssa.addr) : M State llvm.Value :=
  x <- rec X ;;
  match Op with
  | token.NOT => liftC (CreateNot x "")
  | token.MUL => liftC (CreateLoad x "")
  | _ => throw ErrUnknownUnop
  end.

(** One turn of the loop of [parseBuiltin] over the arguments of [print]
    and [println]. *)
Definition printArg (rec : ssa.addr -> M State llvm.Value) (i : nat)
  (arg : ssa.addr) : M State unit :=
  (if (1 <=? i)%nat
   then f <- gets (fun s => Compiler.printspaceFunc (st_c s)) ;;
        liftC (CreateCall f [] "") ;;; ret tt
   else ret tt) ;;;
  value <- rec arg ;;
  typ <- typeOf arg ;;
  match typ with
  | types.Basic kind =>
      match kind with
      | types.Int | types.Int32 =>
          f <- gets (fun s => Compiler.printintFunc (st_c s)) ;;
          liftC (CreateCall f [value] "") ;;; ret tt
      | types.String =>
          f <- gets (fun s => Compiler.printstringFunc (st_c s)) ;;
          liftC (CreateCall f [value] "") ;;; ret tt
      | _ => throw ErrUnknownBasicArgType
      end
  | _ => throw ErrUnknownArgType
  end.

(** [parseBuiltin], on the arguments of the call and the name of the
    built-in. *)
Definition parseBuiltin (rec : ssa.addr -> M State llvm.Value)
  (Args : list ssa.addr) (name : string) : M State llvm.Value :=
  if String.eqb name "print" || String.eqb name "println" then
    forM_from 0 Args (printArg rec) ;;;
    (if String.eqb name "println"
     then f <- gets (fun s => Compiler.printnlFunc (st_c s)) ;;
          liftC (CreateCall f [] "") ;;; ret tt
     else ret tt) ;;;
    ret llvm.NilValue
  else throw (ErrTodoBuiltin name).

(** [parseFunctionCall], on the arguments of the call and the name of the
    function. *)
Definition parseFunctionCall (rec : ssa.addr -> M State llvm.Value)
  (Args : list ssa.addr) (fnName : string) : M State llvm.Value :=
  frame <- gets st_frame ;;
  let name := getPackageRelativeName frame fnName in
  target <- gets (fun s => llvm.NamedFunction (Compiler.mod_ (st_c s)) name) ;;
  if llvm.IsNil target then throw (ErrUndefinedFunction name)
  else
    params <- mapM rec Args ;;
    liftC (CreateCall target params "").

(** [parseCall] *)
Definition parseCall (rec : ssa.addr -> M State llvm.Value)
  (Value : ssa.Callee) (Args : list ssa.addr) : M State llvm.Value :=
  match Value with
  | ssa.CalleeBuiltin name => parseBuiltin rec Args name
  | ssa.CalleeFunction name => parseFunctionCall rec Args name
  | ssa.CalleeOther => throw ErrUnknownCallType
  end.

(** [parseExpr].  Each nested call uses one unit of fuel.  The frame is
    never nil in a call that [Parse] makes, so the test [frame != nil] is
    left out. *)
Fixpoint parseExpr (fuel : nat) (expr : ssa.addr) : M State llvm.Value :=
  match fuel with
  | O => lift OutOfFuel
  | S fuel' =>
      frame <- gets st_frame ;;
      match Frame.locals frame !! expr with
      | Some value => ret value
      | None =>
          match ssa.values heap !! expr with
          | None => panic
          | Some (ssa.Alloc t Heap Comment) =>
              match types.Underlying t with
              | types.Pointer elem =>
                  typ <- liftC (getType elem) ;;
                  if Heap then liftC (CreateMalloc typ Comment)
                  else liftC (CreateAlloca typ Comment)
              | _ => panic
              end
          | Some (ssa.Const _ Value) => liftC (parseConst Value)
          | Some (ssa.BinOp _ Op X Y) => parseBinOp (parseExpr fuel') Op X Y
          | Some (ssa.Call _ Value Args) => parseCall (parseExpr fuel') Value Args
          | Some (ssa.FieldAddr _ X Field) =>
              val <- parseExpr fuel' X ;;
              let indices := [llvm.ConstInt llvm.Int32Type 0 false;
                              llvm.ConstInt llvm.Int32Type (uint64 Field) false] in
              liftC (CreateGEP val indices "")
          | Some (ssa.Global_ _ name) =>
              gets (fun s => llvm.NamedGlobal (Compiler.mod_ (st_c s))
                               (getPackageRelativeName (st_frame s) name))
          | Some (ssa.Parameter_ _ _) =>
              gets (fun s =>
                let llvmFn := llvm.NamedFunction (Compiler.mod_ (st_c s))
                                (Frame.name (st_frame s)) in
                llvm.ParamValue llvmFn (Frame.param (st_frame s) expr))
          | Some (ssa.Phi typ _ _) =>
              t <- liftC (getType typ) ;;
              phi <- liftC (CreatePHI t "") ;;
              modify_frame (Frame.set_phis (fun l =>
                l ++ [{| Phi_ssa := expr; Phi_llvm := phi |}])) ;;;
              ret phi
          | Some (ssa.UnOp _ Op X) => parseUnOp (parseExpr fuel') Op X
          | Some _ => throw ErrUnknownExpression
          end
      end
  end.

(** [parseInstr].  The first case of the type switch, [ssa.Value], takes
    every instruction that is a value; it is the last branch here. *)
Definition parseInstr (fuel : nat) (instr : ssa.addr) : M State unit :=
  match ssa.values heap !! instr with
  | None => panic
  | Some (ssa.If block Cond) =>
      cond <- parseExpr fuel Cond ;;
      blk <- blockAt block ;;
      succ0 <- index (ssa.Succs blk) 0 ;;
      blockThen <- gets (fun s => Frame.block (st_frame s) succ0) ;;
      succ1 <- index (ssa.Succs blk) 1 ;;
      blockElse <- gets (fun s => Frame.block (st_frame s) succ1) ;;
      liftC (CreateCondBr cond blockThen blockElse) ;;; ret tt
  | Some (ssa.Jump block) =>
      blk <- blockAt block ;;
      succ0 <- index (ssa.Succs blk) 0 ;;
      blockJump <- gets (fun s => Frame.block (st_frame s) succ0) ;;
      liftC (CreateBr blockJump) ;;; ret tt
  | Some (ssa.Return Results) =>
      match Results with
      | [] => liftC CreateRetVoid ;;; ret tt
      | [r] => val <- parseExpr fuel r ;; liftC (CreateRet val) ;;; ret tt
      | _ => throw ErrReturnValue
      end
  | Some (ssa.Store Addr Val) =>
      addr <- parseExpr fuel Addr ;;
      val <- parseExpr fuel Val ;;
      liftC (CreateStore val addr) ;;; ret tt
  | Some ssa.OtherInstruction => throw ErrUnknownInstruction
  | Some _ =>
      (* case ssa.Value: the result is stored before the error is returned *)
      fun s =>
        let '(o, s') := parseExpr fuel instr s in
        let store value :=
          {| st_c := st_c s';
             st_frame := Frame.set_locals <[instr := value]> (st_frame s') |} in
        match o with
        | Ok value => (Ok tt, store value)
        | Err e => (Err e, store llvm.NilValue)
        | Panic => (Panic, s')
        | OutOfFuel => (OutOfFuel, s')
        end
  end.

(** The first loop of [parseFunc]: one IR block per SSA block. *)
Definition createBlocks (f : ssa.Function) : M State unit :=
  llvmFn <- gets (fun s => llvm.NamedFunction (Compiler.mod_ (st_c s))
                             (Frame.name (st_frame s))) ;;
  forM (ssa.DomPreorder f) (fun block =>
    blk <- blockAt block ;;
    llvmBlock <- liftC (on_mod (fun m => llvm.AddBasicBlock m llvmFn (ssa.Comment blk))) ;;
    modify_frame (Frame.set_blocks <[block := llvmBlock]>)).

(** The second loop: the instructions of every block. *)
Definition fillBlocks (fuel : nat) (f : ssa.Function) : M State unit :=
  forM (ssa.DomPreorder f) (fun block =>
    llvmBlock <- gets (fun s => Frame.block (st_frame s) block) ;;
    liftC (SetInsertPointAtEnd llvmBlock) ;;;
    blk <- blockAt block ;;
    forM (ssa.Instrs blk) (parseInstr fuel)).

(** The body of the third loop: the incoming edges of one pending φ. *)
Definition resolvePhi (fuel : nat) (phi : Phi) : M State unit :=
  match ssa.values heap !! Phi_ssa phi with
  | Some (ssa.Phi _ block Edges) =>
      blk <- blockAt block ;;
      forM_from 0 Edges (fun i edge =>
        llvmVal <- parseExpr fuel edge ;;
        pred <- index (ssa.Preds blk) i ;;
        llvmBlock <- gets (fun s => Frame.block (st_frame s) pred) ;;
        liftC (modify (Compiler.with_mod
                 (llvm.AddIncoming (Phi_llvm phi) [llvmVal] [llvmBlock]))))
  | _ => panic
  end.

(** The third loop ranges over the pending list as it is when the loop
    starts. *)
Definition resolvePhis (fuel : nat) : M State unit :=
  phis <- gets (fun s => Frame.phis (st_frame s)) ;;
  forM phis (resolvePhi fuel).

(** [parseFunc] *)
Definition parseFunc (fuel : nat) (f : ssa.Function) : M State unit :=
  createBlocks f ;;;
  fillBlocks fuel f ;;;
  resolvePhis fuel.

End Lowering.

(** ** The two passes over the packages *)

Module loader.

(** What [config.Load] and [ssautil.CreateProgram] hand to [Parse] in one
    run: the error of the load, if any; the [Errors] of the packages of
    [lprogram.AllPackages], in the order in which this run ranges over that
    map; the SSA objects; and the slice that [program.AllPackages()] returns
    in this run (the packages in an unspecified order). *)
Record Program : Type := {
  Load_err : option error;
  Errors : list (list error);
  heap : ssa.Heap;
  AllPackages : list ssa.Package
}.

End loader.

(** The steps of [Parse], recorded as they begin: the turn of the first loop
    for a member (its declaration) and the call of [parseFunc] for a
    function (its definition).  A package is identified by its position in
    [program.AllPackages()]. *)
Inductive Step : Type :=
  | Declaring (pkg : nat) (member : string)
  | Defining (pkg : nat) (member : string).

Record ParseState : Type := {
  ps_c : Compiler.t;
  ps_trace : list Step
}.

Definition liftP {A} (m : M Compiler.t A) : M ParseState A :=
  fun s => let '(o, c') := m (ps_c s) in
           (o, {| ps_c := c'; ps_trace := ps_trace s |}).

Definition record (e : Step) : M ParseState unit :=
  modify (fun s => {| ps_c := ps_c s; ps_trace := ps_trace s ++ [e] |}).

Section Parse.

Variable heap : ssa.Heap.

(** One turn of the first loop over the members of a package: the
    declaration of the member [name].  [frames] is the map of the frames of
    the package's functions. *)
Definition declareMember (k : nat) (pkg : ssa.Package) (name : string)
  (frames : gmap ssa.addr Frame.t) : M ParseState (gmap ssa.addr Frame.t) :=
  record (Declaring k name) ;;;
  let member := ssa.lookup_member (ssa.Members pkg) name in
  let pkgPrefix := pkgPrefix pkg in
  match member with
  | Some (ssa.MemberFunction f) =>
      frame <- liftP (parseFuncDecl heap pkgPrefix f) ;;
      ret (<[ssa.self f := frame]> frames)
  | Some (ssa.MemberNamedConst mname _ Value) =>
      val <- liftP (parseConst Value) ;;
      global <- liftP (on_mod (fun m =>
                  llvm.AddGlobal m (llvm.TypeOf val) (pkgPrefix +:+ "." +:+ mname))) ;;
      liftP (modify (Compiler.with_mod (llvm.SetInitializer global val))) ;;;
      liftP (modify (Compiler.with_mod (llvm.SetGlobalConstant global true))) ;;;
      (if ast.IsExported mname
       then liftP (modify (Compiler.with_mod (llvm.SetLinkage global llvm.PrivateLinkage)))
       else ret tt) ;;;
      ret frames
  | Some (ssa.MemberGlobal mname t) =>
      typ <- liftP (getType t) ;;
      global <- liftP (on_mod (fun m =>
                  llvm.AddGlobal m typ (pkgPrefix +:+ "." +:+ mname))) ;;
      (if ast.IsExported mname
       then liftP (modify (Compiler.with_mod (llvm.SetLinkage global llvm.PrivateLinkage)))
       else ret tt) ;;;
      ret frames
  | Some (ssa.MemberType _) => ret frames
  | _ => throw ErrTodoMember
  end.

Fixpoint declareMembers (k : nat) (pkg : ssa.Package) (names : list string)
  (frames : gmap ssa.addr Frame.t) : M ParseState (gmap ssa.addr Frame.t) :=
  match names with
  | [] => ret frames
  | name :: names' =>
      frames' <- declareMember k pkg name frames ;;
      declareMembers k pkg names' frames'
  end.

(** One turn of the second loop: the definition of the member [name], when
    it is a function with blocks. *)
Definition defineMember (fuel : nat) (k : nat) (pkg : ssa.Package)
  (frames : gmap ssa.addr Frame.t) (name : string) : M ParseState unit :=
  match ssa.lookup_member (ssa.Members pkg) name with
  | None => panic
  | Some (ssa.MemberFunction f) =>
      match ssa.Blocks f with
      | [] => ret tt
      | _ :: _ =>
          record (Defining k name) ;;;
          match frames !! ssa.self f with
          | None => panic
          | Some frame =>
              fun s =>
                let '(o, st) := parseFunc heap fuel f
                                  {| st_c := ps_c s; st_frame := frame |} in
                (o, {| ps_c := st_c st; ps_trace := ps_trace s |})
          end
      end
  | Some _ => ret tt
  end.

(** The body of the loop over the packages. *)
Definition parsePackage (fuel : nat) (k : nat) (pkg : ssa.Package) : M ParseState unit :=
  let memberNames := strings.Sort (map fst (ssa.Members pkg)) in
  frames <- declareMembers k pkg memberNames ∅ ;;
  forM memberNames (defineMember fuel k pkg frames).

End Parse.

(** [Parse].  [Load] stands for [config.Load] followed by the construction
    of the SSA program, for the architecture and operating system taken from
    the triple. *)
Definition Parse (Load : string -> string -> string -> loader.Program)
  (fuel : nat) (pkgName : string) : M ParseState unit :=
  triple <- gets (fun s => Compiler.triple (ps_c s)) ;;
  let tripleSplit := strings.Split triple "-" in
  GOARCH <- index tripleSplit 0 ;;
  GOOS <- index tripleSplit 2 ;;
  let lprogram := Load GOARCH GOOS pkgName in
  match loader.Load_err lprogram with
  | Some err => throw err
  | None =>
      forM (loader.Errors lprogram) (fun errs =>
        match errs with
        | e :: _ => throw e
        | [] => ret tt
        end) ;;;
      forM_from 0 (loader.AllPackages lprogram)
        (parsePackage (loader.heap lprogram) fuel)
  end.

(** ** The driver *)

(** The backend and the operating system, as far as the driver depends on
    them. *)
Record Externals : Type := {
  GetTargetFromTriple : string -> option error;
  Load : string -> string -> string -> loader.Program;
  VerifyModule : llvm.Module -> option error;
  RunPasses : Z -> llvm.Module -> llvm.Module;
  EmitToMemoryBuffer : llvm.Module -> error + list Z;
  ModuleString : llvm.Module -> string;
  (** the error of [os.OpenFile(path, O_RDWR|O_CREATE, 0666)], if any *)
  OpenFile_err : gmap string (list Z) -> string -> option error;
  (** how many of the bytes handed to [f.Write] reach the file *)
  Write_n : string -> list Z -> nat
}.

(** The files, by path, and what has been printed on standard output. *)
Record World : Type := {
  files : gmap string (list Z);
  stdout : list string
}.

Section Driver.

Variable ext : Externals.

(** [NewCompiler] *)
Definition NewCompiler (pkgName triple : string) : outcome Compiler.t :=
  match GetTargetFromTriple ext triple with
  | Some err => Err err
  | None => Ok (NewCompiler_init pkgName triple)
  end.

(** [IR] *)
Definition IR (c : Compiler.t) : string := ModuleString ext (Compiler.mod_ c).

(** [Verify] *)
Definition Verify (c : Compiler.t) : option error :=
  VerifyModule ext (Compiler.mod_ c).

(** [Optimize] *)
Definition Optimize (optLevel : Z) (c : Compiler.t) : Compiler.t :=
  Compiler.with_mod (RunPasses ext optLevel) c.

(** [f.Write(b)] on a file opened without [O_TRUNC] or [O_APPEND]: the
    bytes written replace the beginning of the old contents. *)
Definition write_at_start (n : nat) (b old : list Z) : list Z :=
  take n b ++ drop n old.

(** [EmitObject].  The results of [f.Write] and [f.Close] are dropped. *)
Definition EmitObject (c : Compiler.t) (path : string) : M World unit :=
  match EmitToMemoryBuffer ext (Compiler.mod_ c) with
  | inl err => throw err
  | inr buf =>
      fun w =>
        match OpenFile_err ext (files w) path with
        | Some err => (Err err, w)
        | None =>
            let old := default [] (files w !! path) in
            let n := Write_n ext path buf in
            (Ok tt, {| files := <[path := write_at_start n buf old]> (files w);
                       stdout := stdout w |})
        end
  end.

Definition Println (s : string) : M World unit :=
  modify (fun w => {| files := files w; stdout := stdout w ++ [s] |}).

(** [Compile] *)
Definition Compile (fuel : nat) (pkgName outpath target : string) (printIR : bool)
  : M World unit :=
  match NewCompiler pkgName target with
  | Ok c =>
      let '(parseErr, ps) :=
        Parse (Load ext) fuel pkgName {| ps_c := c; ps_trace := [] |} in
      let c := ps_c ps in
      match parseErr with
      | Panic => panic
      | OutOfFuel => lift OutOfFuel
      | _ =>
          (if printIR then Println (IR c) else ret tt) ;;;
          match parseErr with
          | Err e => throw e
          | _ =>
              match Verify c with
              | Some err => throw err
              | None =>
                  let c := Optimize 2 c in
                  match Verify c with
                  | Some err => throw err
                  | None => EmitObject c outpath
                  end
              end
          end
      end
  | Err e => throw e
  | Panic => panic
  | OutOfFuel => lift OutOfFuel
  end.

End Driver.

(** ** Vocabulary of the statements *)

(** The four runtime functions, as the specification names them. *)
Inductive Intrinsic : Type :=
  | print_string
  | print_int
  | print_space
  | print_newline.

(** The function of the module that stands for an intrinsic. *)
Definition intrinsic (c : Compiler.t) (i : Intrinsic) : llvm.Value :=
  match i with
  | print_string => Compiler.printstringFunc c
  | print_int => Compiler.printintFunc c
  | print_space => Compiler.printspaceFunc c
  | print_newline => Compiler.printnlFunc c
  end.

(** The elements of [l] with [sep] between consecutive ones. *)
Definition separate {A} (sep : A) (l : list A) : list A :=
  match l with
  | [] => []
  | x :: l' => x :: flat_map (fun y => [sep; y]) l'
  end.

(** The print call for an argument of an integer or string type. *)
Definition spec_print_of (t : types.Type_) : option Intrinsic :=
  match t with
  | types.Basic types.Int | types.Basic types.Int32 => Some print_int
  | types.Basic types.String => Some print_string
  | _ => None
  end.

(** The calls that the specification prescribes for [print] or [println]
    on arguments of the given types: the print call of each argument, in
    order, [print_space] between consecutive arguments, and a final
    [print_newline] for [println]. *)
Definition spec_print_calls (name : string) (calls : list Intrinsic) : list Intrinsic :=
  separate print_space calls ++
  (if String.eqb name "println" then [print_newline] else []).

(** The error for an argument of [print] whose type is not supported. *)
Definition spec_print_error (t : types.Type_) : error :=
  match t with
  | types.Basic _ => ErrUnknownBasicArgType
  | _ => ErrUnknownArgType
  end.

(** The function that a call instruction calls. *)
Definition callee (x : llvm.Instruction) : option llvm.Value :=
  match llvm.i_op x with
  | llvm.Call fn _ => Some fn
  | _ => None
  end.

(** An operand that is at hand when it is used, with its type: a value that
    an instruction has left in [frame.locals], an integer or string
    constant, a parameter or a global. *)
Definition operand (heap : ssa.Heap) (frame : Frame.t) (a : ssa.addr)
  (t : types.Type_) : Prop :=
  exists node,
    ssa.values heap !! a = Some node /\ ssa.TypeOf node = Some t /\
    (is_Some (Frame.locals frame !! a) \/
     match node with
     | ssa.Const _ v =>
         constant.Kind v = constant.KInt \/ constant.Kind v = constant.KString
     | ssa.Parameter_ _ _ | ssa.Global_ _ _ => True
     | _ => False
     end).

(** The type of the value at [a] is not one that [print] supports, or [a]
    is not a typed value at all. *)
Definition unprintable (heap : ssa.Heap) (a : ssa.addr) : Prop :=
  forall node t,
    ssa.values heap !! a = Some node -> ssa.TypeOf node = Some t ->
    spec_print_of t = None.

(** The state after emitting the instructions [new] at the insertion point:
    frame, builder and runtime functions are the same. *)
Definition emits (s s' : State) (new : list llvm.Instruction) : Prop :=
  st_frame s' = st_frame s /\
  Compiler.builder (st_c s') = Compiler.builder (st_c s) /\
  (forall i, intrinsic (st_c s') i = intrinsic (st_c s) i) /\
  llvm.instrs (Compiler.mod_ (st_c s')) = llvm.instrs (Compiler.mod_ (st_c s)) ++ new.

(** An operand at hand whose type [print] supports, with its print call. *)
Definition printable_operand (heap : ssa.Heap) (frame : Frame.t) (a : ssa.addr)
  (call : Intrinsic) : Prop :=
  exists t, operand heap frame a t /\ spec_print_of t = Some call.

(** The instructions [new] are calls, in this order, of the functions that
    stand for [calls], all in the block where the builder inserts. *)
Definition calls_of (c : Compiler.t) (new : list llvm.Instruction)
  (calls : list Intrinsic) : Prop :=
  map callee new = map (fun i => Some (intrinsic c i)) calls /\
  Forall (fun x => llvm.i_parent x = Compiler.builder c) new.

(** The place of a step in the order of the two passes over the packages:
    the declarations of package [k], then its definitions, then package
    [k+1]. *)
Definition rank (e : Step) : nat :=
  match e with
  | Declaring k _ => 2 * k
  | Defining k _ => 2 * k + 1
  end.

Definition pkg_of (e : Step) : nat :=
  match e with
  | Declaring k _ | Defining k _ => k
  end.

Definition is_Declaring (e : Step) : bool :=
  match e with Declaring _ _ => true | Defining _ _ => false end.

Definition is_Defining (e : Step) : bool :=
  match e with Declaring _ _ => false | Defining _ _ => true end.

(** The run adds steps that all satisfy [P] to the trace. *)
Definition adds (P : Step -> Prop) (s s' : ParseState) : Prop :=
  exists new, ps_trace s' = ps_trace s ++ new /\ Forall P new.

(** [m] relates every state to the one it leaves, whatever the outcome. *)
Definition preserves {S A} (R : S -> S -> Prop) (m : M S A) : Prop :=
  forall s o s', m s = (o, s') -> R s s'.

(** *** The pending φ nodes *)

Definition instrs_of (s : State) : list llvm.Instruction :=
  llvm.instrs (Compiler.mod_ (st_c s)).

(** The incoming pairs of the IR φ [v] in the state [s]. *)
Definition incoming (s : State) (v : llvm.Value) : option (list (llvm.Value * llvm.BasicBlock)) :=
  llvm.Incoming (Compiler.mod_ (st_c s)) v.

Definition is_phi (heap : ssa.Heap) (a : ssa.addr) : Prop :=
  exists typ block Edges, ssa.values heap !! a = Some (ssa.Phi typ block Edges).

(** What the sanity check of the SSA builder ([ssa.SanityCheckFunctions])
    ensures for φ nodes: one edge per predecessor of the block. *)
Definition sane (heap : ssa.Heap) : Prop :=
  forall a typ block Edges blk,
    ssa.values heap !! a = Some (ssa.Phi typ block Edges) ->
    ssa.blocks heap !! block = Some blk ->
    length Edges = length (ssa.Preds blk).

(** The pending list while the blocks are being filled: the records are of
    SSA φ nodes and of distinct IR φ instructions, none of which has an
    incoming pair yet. *)
Definition pending_ok (heap : ssa.Heap) (s : State) : Prop :=
  NoDup (Phi_llvm <$> Frame.phis (st_frame s)) /\
  forall p, p ∈ Frame.phis (st_frame s) ->
    incoming s (Phi_llvm p) = Some [] /\ is_phi heap (Phi_ssa p).

(** The compiler only got more instructions. *)
Definition ext_instrs (c c' : Compiler.t) : Prop :=
  llvm.instrs (Compiler.mod_ c) `prefix_of` llvm.instrs (Compiler.mod_ c').

(** What lowering an expression does to the state, whatever its outcome:
    instructions are only appended, the maps of locals and blocks stay, and
    the pending list stays well-formed. *)
Definition lowers (heap : ssa.Heap) (s s' : State) : Prop :=
  instrs_of s `prefix_of` instrs_of s' /\
  Frame.blocks (st_frame s') = Frame.blocks (st_frame s) /\
  Frame.locals (st_frame s') = Frame.locals (st_frame s) /\
  (pending_ok heap s -> pending_ok heap s') /\
  Frame.phis (st_frame s) `prefix_of` Frame.phis (st_frame s').

(** The pending list stays well-formed. *)
Definition keeps_pending (heap : ssa.Heap) (s s' : State) : Prop :=
  pending_ok heap s -> pending_ok heap s'.

(** Nothing changes for the IR φ nodes other than [q], and the maps of
    blocks and locals stay. *)
Definition keeps (q : llvm.Value) (s s' : State) : Prop :=
  Frame.blocks (st_frame s') = Frame.blocks (st_frame s) /\
  Frame.locals (st_frame s') = Frame.locals (st_frame s) /\
  forall v inc, v <> q -> incoming s v = Some inc -> incoming s' v = Some inc.

(** Every φ whose value an instruction has left in [frame.locals] has its
    record, with that value, in the pending list. *)
Definition locals_pending (heap : ssa.Heap) (s : State) : Prop :=
  forall a v,
    Frame.locals (st_frame s) !! a = Some v -> is_phi heap a ->
    {| Phi_ssa := a; Phi_llvm := v |} ∈ Frame.phis (st_frame s).

(** The locals and the pending list only grow. *)
Definition mono (s s' : State) : Prop :=
  (forall a v, Frame.locals (st_frame s) !! a = Some v ->
               Frame.locals (st_frame s') !! a = Some v) /\
  Frame.phis (st_frame s) `prefix_of` Frame.phis (st_frame s').

(** The locals and the pending list stay. *)
Definition same_pending (s s' : State) : Prop :=
  Frame.locals (st_frame s') = Frame.locals (st_frame s) /\
  Frame.phis (st_frame s') = Frame.phis (st_frame s).

(** The pending φ [p] is resolved in [s]: it has one incoming pair per
    predecessor of the block of its SSA φ, and the block of the [i]-th pair
    is the image under [frame.blocks] of the [i]-th predecessor. *)
Definition resolved (heap : ssa.Heap) (s : State) (p : Phi) : Prop :=
  exists typ block Edges blk inc,
    ssa.values heap !! Phi_ssa p = Some (ssa.Phi typ block Edges) /\
    ssa.blocks heap !! block = Some blk /\
    incoming s (Phi_llvm p) = Some inc /\
    length inc = length (ssa.Preds blk) /\
    forall i pred, ssa.Preds blk !! i = Some pred ->
      snd <$> inc !! i = Some (Frame.block (st_frame s) pred).

(** *** The blocks of a function *)

(** The builder is positioned: it inserts at the end of a block of the
    module that belongs to a function of the module.  The backend finds the
    module of a new global string through this block. *)
Definition positioned (c : Compiler.t) : Prop :=
  exists i info j,
    Compiler.builder c = llvm.Block i /\
    llvm.blocks (Compiler.mod_ c) !! i = Some info /\
    llvm.b_parent info = llvm.FunctionValue j /\
    (j < length (llvm.functions (Compiler.mod_ c)))%nat.

(** The operands of an instruction or value ([Operands] of go/ssa). *)
Definition operands (n : ssa.Node) : list ssa.addr :=
  match n with
  | ssa.BinOp _ _ X Y => [X; Y]
  | ssa.Call _ _ Args => Args
  | ssa.FieldAddr _ X _ => [X]
  | ssa.Phi _ _ Edges => Edges
  | ssa.UnOp _ _ X => [X]
  | ssa.If _ Cond => [Cond]
  | ssa.Return Results => Results
  | ssa.Store Addr Val => [Addr; Val]
  | _ => []
  end.

(** The instructions of the blocks of [f], and what they refer to. *)
Inductive value_of (heap : ssa.Heap) (f : ssa.Function) : ssa.addr -> Prop :=
  | of_instr block blk a :
      block ∈ ssa.DomPreorder f -> ssa.blocks heap !! block = Some blk ->
      a ∈ ssa.Instrs blk -> value_of heap f a
  | of_operand a node x :
      value_of heap f a -> ssa.values heap !! a = Some node ->
      x ∈ operands node -> value_of heap f x.

(** What the SSA builder ensures for the blocks of a function: a φ among
    the values of [f] belongs to a block of [f], and the predecessors of a
    block of [f] are blocks of [f]. *)
Definition local (heap : ssa.Heap) (f : ssa.Function) : Prop :=
  (forall a typ block Edges,
      value_of heap f a ->
      ssa.values heap !! a = Some (ssa.Phi typ block Edges) ->
      block ∈ ssa.DomPreorder f) /\
  (forall block blk pred,
      block ∈ ssa.DomPreorder f -> ssa.blocks heap !! block = Some blk ->
      pred ∈ ssa.Preds blk -> pred ∈ ssa.DomPreorder f).

(** The IR block [k] of [s] was made after [s0], for the function that is
    declared under the name of the frame, with the label [name]. *)
Definition block_of (s0 s : State) (k : nat) (name : string) : Prop :=
  (length (llvm.blocks (Compiler.mod_ (st_c s0))) <= k)%nat /\
  llvm.blocks (Compiler.mod_ (st_c s)) !! k
  = Some {| llvm.b_parent := llvm.NamedFunction (Compiler.mod_ (st_c s0))
                               (Frame.name (st_frame s0));
            llvm.b_name := name |}.

(** The pending φ [p] is resolved in [s], to the blocks made since [s0]:
    it has one incoming pair per predecessor of the block of its SSA φ, and
    the block of the [i]-th pair is the IR block that [frame.blocks] holds
    for the [i]-th predecessor, one of the blocks made for this function
    since [s0], with the label of that predecessor. *)
Definition resolved_in (heap : ssa.Heap) (s0 s : State) (p : Phi) : Prop :=
  exists typ block Edges blk inc,
    ssa.values heap !! Phi_ssa p = Some (ssa.Phi typ block Edges) /\
    ssa.blocks heap !! block = Some blk /\
    incoming s (Phi_llvm p) = Some inc /\
    length inc = length (ssa.Preds blk) /\
    forall i pred, ssa.Preds blk !! i = Some pred ->
      exists k predblk,
        Frame.blocks (st_frame s) !! pred = Some (llvm.Block k) /\
        snd <$> inc !! i = Some (llvm.Block k) /\
        ssa.blocks heap !! pred = Some predblk /\
        block_of s0 s k (ssa.Comment predblk).

(** The pending φ are among the values of [f]. *)
Definition pending_of (heap : ssa.Heap) (f : ssa.Function) (s : State) : Prop :=
  forall p, p ∈ Frame.phis (st_frame s) -> value_of heap f (Phi_ssa p).

Definition keeps_of (heap : ssa.Heap) (f : ssa.Function) (s s' : State) : Prop :=
  pending_of heap f s -> pending_of heap f s'.

(** The blocks of the instructions of the module, in creation order. *)
Definition parents (s : State) : list llvm.BasicBlock :=
  llvm.i_parent <$> instrs_of s.

(** The run emits only at the insertion point, which it leaves where it is,
    as it leaves the blocks of the module and of the frame. *)
Definition at_builder (s s' : State) : Prop :=
  Frame.blocks (st_frame s') = Frame.blocks (st_frame s) /\
  llvm.blocks (Compiler.mod_ (st_c s')) = llvm.blocks (Compiler.mod_ (st_c s)) /\
  Compiler.builder (st_c s') = Compiler.builder (st_c s) /\
  exists new, parents s' = parents s ++ new /\
              Forall (eq (Compiler.builder (st_c s))) new.


(** ** The command line *)

(** The flags and arguments as [flag.Parse] leaves them: [-o], [-target]
    (the host triple when the flag is absent), [-printir], and the
    positional arguments. *)
Record Flags : Type := {
  flag_o : string;
  flag_target : string;
  flag_printir : bool;
  flag_Args : list string
}.

(** What [main] writes on standard error. *)
Inductive Stderr : Type :=
  | UsageLine (prog : string)   (* "usage: %s [-printir] ... <input>" *)
  | PrintDefaults               (* flag.PrintDefaults() *)
  | ErrorLine (err : error).    (* "error:", err *)

(** How the process ends: with an exit status, with a run-time panic, or
    not within the recursion bound. *)
Inductive Exit : Type :=
  | Exited (status : Z)
  | Crashed
  | Unfinished.

(** [main], after [flag.Parse]: [prog] is [os.Args[0]]. *)
Definition main (ext : Externals) (fuel : nat) (prog : string) (fl : Flags)
  (w : World) : Exit * list Stderr * World :=
  if String.eqb (flag_o fl) "" || negb (length (flag_Args fl) =? 1)%nat then
    (Exited 0, [UsageLine prog; PrintDefaults], w)
  else
    match flag_Args fl with
    | [] => (Crashed, [], w)
    | input :: _ =>
        match Compile ext fuel input (flag_o fl) (flag_target fl)
                (flag_printir fl) w with
        | (Ok _, w') => (Exited 0, [], w')
        | (Err err, w') => (Exited 1, [ErrorLine err], w')
        | (Panic, w') => (Crashed, [], w')
        | (OutOfFuel, w') => (Unfinished, [], w')
        end
    end.

(** ** Vocabulary of the further properties *)

(** The types that the type mapper accepts. *)
Fixpoint supported (t : types.Type_) : bool :=
  match t with
  | types.Basic kind =>
      match kind with
      | types.Bool | types.Int | types.Int32 | types.String
      | types.UnsafePointer => true
      | _ => false
      end
  | types.Named _ underlying => supported underlying
  | types.Pointer elem => supported elem
  | types.Struct fields => forallb supported fields
  | _ => false
  end.


(** The number of bytes [c] in [s]. *)
Fixpoint count_byte (s : string) (c : ascii) : nat :=
  match s with
  | EmptyString => O
  | String a s' => (if Ascii.eqb a c then 1 else 0) + count_byte s' c
  end.

(** The value of a 32-bit constant read as a signed integer. *)
Definition signed32 (n : Z) : Z := if n <? 2 ^ 31 then n else n - 2 ^ 32.

(** The linkage that the first loop of [Parse] leaves on the global of the
    member [name]. *)
Definition member_linkage (name : string) : llvm.Linkage :=
  if ast.IsExported name then llvm.PrivateLinkage else llvm.ExternalLinkage.

(** The module only got more globals, blocks and instructions: it has the
    same functions, and what it had keeps its place (an instruction also
    its block). *)
Definition grows (c c' : Compiler.t) : Prop :=
  llvm.functions (Compiler.mod_ c') = llvm.functions (Compiler.mod_ c) /\
  llvm.globals (Compiler.mod_ c) `prefix_of` llvm.globals (Compiler.mod_ c') /\
  llvm.blocks (Compiler.mod_ c) `prefix_of` llvm.blocks (Compiler.mod_ c') /\
  (llvm.i_parent <$> llvm.instrs (Compiler.mod_ c))
    `prefix_of` (llvm.i_parent <$> llvm.instrs (Compiler.mod_ c')).

(** What the definition of a function may do to the state: the module
    grows, and the name, the package prefix and the parameters of the frame
    stay. *)
Definition defines (s s' : State) : Prop :=
  grows (st_c s) (st_c s') /\
  Frame.name (st_frame s') = Frame.name (st_frame s) /\
  Frame.pkgPrefix (st_frame s') = Frame.pkgPrefix (st_frame s) /\
  Frame.params (st_frame s') = Frame.params (st_frame s).

(** The name is empty or begins with an ASCII character: the names for
    which [ast.IsExported], as modelled, is the function of go/ast. *)
Definition ascii_initial (name : string) : Prop :=
  match name with
  | EmptyString => True
  | String a _ => (N_of_ascii a < 128)%N
  end.

(** No value of the program is allocated on the heap ([new], or a variable
    that escapes).  For a heap allocation the backend also declares
    [malloc] in the module, which the one instruction of [CreateMalloc]
    does not show. *)
Definition no_heap_alloc (heap : ssa.Heap) : Prop :=
  forall a t comment, ssa.values heap !! a <> Some (ssa.Alloc t true comment).

(** ** Example inputs *)

Module Examples.

Definition tInt : types.Type_ := types.Basic types.Int.
Definition tString : types.Type_ := types.Basic types.String.
Definition tBool : types.Type_ := types.Basic types.Bool.
Definition tVoid : types.Type_ := types.Tuple [].

(** The compiler as [NewCompiler] leaves it. *)
Definition c0 : Compiler.t := NewCompiler_init "hello" "x86_64-unknown-linux".

Definition frame0 : Frame.t :=
  {| Frame.pkgPrefix := "main"; Frame.name := "main.main"; Frame.params := ∅;
     Frame.locals := ∅; Frame.blocks := ∅; Frame.phis := [] |}.

(** [package main; func main() { println("n=", 42) }] *)
Definition hello_heap : ssa.Heap :=
  {| ssa.values := list_to_map
       [(1%positive, ssa.Const tString (constant.String "n="));
        (2%positive, ssa.Const tInt (constant.Int 42));
        (3%positive, ssa.Call tVoid (ssa.CalleeBuiltin "println")
                       [1%positive; 2%positive]);
        (4%positive, ssa.Return [])];
     ssa.blocks := list_to_map
       [(10%positive, {| ssa.Comment := "entry";
                         ssa.Instrs := [3%positive; 4%positive];
                         ssa.Preds := []; ssa.Succs := [] |})] |}.

Definition hello_main : ssa.Function :=
  {| ssa.self := 20%positive; ssa.Name := "main"; ssa.Results := None;
     ssa.Params := []; ssa.Blocks := [10%positive];
     ssa.DomPreorder := [10%positive] |}.

Definition hello_pkg : ssa.Package :=
  {| ssa.Pkg_Path := "example/hello"; ssa.Pkg_Name := "main";
     ssa.Members := [("main", ssa.MemberFunction hello_main)] |}.

Definition hello_program : loader.Program :=
  {| loader.Load_err := None; loader.Errors := [[]];
     loader.heap := hello_heap; loader.AllPackages := [hello_pkg] |}.

(** Operands for [print]: the constants ["n="], [42] and [true], and a
    parameter of type [bool]. *)
Definition print_heap : ssa.Heap :=
  {| ssa.values := list_to_map
       [(1%positive, ssa.Const tString (constant.String "n="));
        (2%positive, ssa.Const tInt (constant.Int 42));
        (5%positive, ssa.Const tBool (constant.Bool true));
        (6%positive, ssa.Parameter_ tBool "b")];
     ssa.blocks := ∅ |}.

(** The lowering of [main.main] at the start of its first block. *)
Definition s0 : State :=
  {| st_c := Compiler.with_builder (llvm.Block 0) c0; st_frame := frame0 |}.



(** A program of two packages: [main], with
    [func main() { println("n=", 42) }], and [example/lib], with
    [func Answer() int { return 42 }]. *)
Definition two_heap : ssa.Heap :=
  {| ssa.values := list_to_map
       [(1%positive, ssa.Const tString (constant.String "n="));
        (2%positive, ssa.Const tInt (constant.Int 42));
        (3%positive, ssa.Call tVoid (ssa.CalleeBuiltin "println")
                       [1%positive; 2%positive]);
        (4%positive, ssa.Return []);
        (30%positive, ssa.Const tInt (constant.Int 42));
        (31%positive, ssa.Return [30%positive])];
     ssa.blocks := list_to_map
       [(10%positive, {| ssa.Comment := "entry";
                         ssa.Instrs := [3%positive; 4%positive];
                         ssa.Preds := []; ssa.Succs := [] |});
        (11%positive, {| ssa.Comment := "entry";
                         ssa.Instrs := [31%positive];
                         ssa.Preds := []; ssa.Succs := [] |})] |}.

Definition lib_Answer : ssa.Function :=
  {| ssa.self := 21%positive; ssa.Name := "Answer"; ssa.Results := Some [tInt];
     ssa.Params := []; ssa.Blocks := [11%positive];
     ssa.DomPreorder := [11%positive] |}.

Definition lib_pkg : ssa.Package :=
  {| ssa.Pkg_Path := "example/lib"; ssa.Pkg_Name := "lib";
     ssa.Members := [("Answer", ssa.MemberFunction lib_Answer)] |}.

(** Two runs on this program: [program.AllPackages()] returns the packages
    in one order in the first and in the other order in the second. *)
Definition two_program_run1 : loader.Program :=
  {| loader.Load_err := None; loader.Errors := [[]; []];
     loader.heap := two_heap; loader.AllPackages := [lib_pkg; hello_pkg] |}.

Definition two_program_run2 : loader.Program :=
  {| loader.Load_err := None; loader.Errors := [[]; []];
     loader.heap := two_heap; loader.AllPackages := [hello_pkg; lib_pkg] |}.

Definition ps0 : ParseState := {| ps_c := c0; ps_trace := [] |}.

(** [func sum(n int) int { s := 0; for i := 0; i < n; i++ { s += i };
    return s }]: the block [for.loop] (203) has the two predecessors [entry]
    (200) and [for.body] (201), and two φ nodes, for [s] (130) and for [i]
    (131). *)
Definition sum_heap : ssa.Heap :=
  {| ssa.values := list_to_map
       [(100%positive, ssa.Parameter_ tInt "n");
        (101%positive, ssa.Const tInt (constant.Int 0));
        (102%positive, ssa.Const tInt (constant.Int 0));
        (103%positive, ssa.Const tInt (constant.Int 1));
        (110%positive, ssa.Jump 200%positive);
        (120%positive, ssa.BinOp tInt token.ADD 130%positive 131%positive);
        (121%positive, ssa.BinOp tInt token.ADD 131%positive 103%positive);
        (122%positive, ssa.Jump 201%positive);
        (130%positive, ssa.Phi tInt 203%positive [101%positive; 120%positive]);
        (131%positive, ssa.Phi tInt 203%positive [102%positive; 121%positive]);
        (132%positive, ssa.BinOp tBool token.LSS 131%positive 100%positive);
        (133%positive, ssa.If 203%positive 132%positive);
        (140%positive, ssa.Return [130%positive])];
     ssa.blocks := list_to_map
       [(200%positive, {| ssa.Comment := "entry"; ssa.Instrs := [110%positive];
                          ssa.Preds := []; ssa.Succs := [203%positive] |});
        (201%positive, {| ssa.Comment := "for.body";
                          ssa.Instrs := [120%positive; 121%positive; 122%positive];
                          ssa.Preds := [203%positive];
                          ssa.Succs := [203%positive] |});
        (202%positive, {| ssa.Comment := "for.done"; ssa.Instrs := [140%positive];
                          ssa.Preds := [203%positive]; ssa.Succs := [] |});
        (203%positive, {| ssa.Comment := "for.loop";
                          ssa.Instrs := [130%positive; 131%positive;
                                         132%positive; 133%positive];
                          ssa.Preds := [200%positive; 201%positive];
                          ssa.Succs := [201%positive; 202%positive] |})] |}.

Definition sum : ssa.Function :=
  {| ssa.self := 22%positive; ssa.Name := "sum"; ssa.Results := Some [tInt];
     ssa.Params := [100%positive];
     ssa.Blocks := [200%positive; 201%positive; 202%positive; 203%positive];
     ssa.DomPreorder := [200%positive; 203%positive; 201%positive; 202%positive] |}.

(** The state in which [Parse] calls [parseFunc] for [sum]: the compiler
    and the frame as [parseFuncDecl] leaves them. *)
Definition sum_state : State :=
  let '(o, c) := parseFuncDecl sum_heap "main" sum c0 in
  {| st_c := c; st_frame := match o with Ok frame => frame | _ => frame0 end |}.

(** A backend for the examples.  Its passes delete every instruction, its
    printer shows the name of the module and one star per instruction, and
    it emits four bytes for any module. *)
Definition stars (m : llvm.Module) : string :=
  llvm.m_name m +:+ ":" +:+
  String.concat "" (map (fun _ => "*") (llvm.instrs m)).

Definition ext_ok : Externals :=
  {| GetTargetFromTriple := fun _ => None;
     Load := fun _ _ _ => hello_program;
     VerifyModule := fun _ => None;
     RunPasses := fun _ m => llvm.set_instrs (fun _ => []) m;
     EmitToMemoryBuffer := fun _ => inr [127; 69; 76; 70];
     ModuleString := stars;
     OpenFile_err := fun _ _ => None;
     Write_n := fun _ b => length b |}.

(** The same, with a verifier that rejects every module. *)
Definition ext_reject : Externals :=
  {| GetTargetFromTriple := fun _ => None;
     Load := fun _ _ _ => hello_program;
     VerifyModule := fun _ => Some (ErrExternal "verification failed");
     RunPasses := fun _ m => llvm.set_instrs (fun _ => []) m;
     EmitToMemoryBuffer := fun _ => inr [127; 69; 76; 70];
     ModuleString := stars;
     OpenFile_err := fun _ _ => None;
     Write_n := fun _ b => length b |}.

(** The same as [ext_ok], on a disk that takes no byte of a write. *)
Definition ext_disk_full : Externals :=
  {| GetTargetFromTriple := fun _ => None;
     Load := fun _ _ _ => hello_program;
     VerifyModule := fun _ => None;
     RunPasses := fun _ m => llvm.set_instrs (fun _ => []) m;
     EmitToMemoryBuffer := fun _ => inr [127; 69; 76; 70];
     ModuleString := stars;
     OpenFile_err := fun _ _ => None;
     Write_n := fun _ _ => O |}.

(** A world in which an object file of an earlier build is at [out.o]. *)
Definition stale_world : World :=
  {| files := {["out.o" := [1; 2; 3; 4; 5; 6]]}; stdout := [] |}.

Definition empty_world : World := {| files := ∅; stdout := [] |}.

End Examples.

(** ** More example inputs *)

Module MoreExamples.

(** [package main; func main() { println(true) }]: the lowering of the
    function fails on the boolean constant. *)
Definition bool_heap : ssa.Heap :=
  {| ssa.values := list_to_map
       [(1%positive, ssa.Const Examples.tBool (constant.Bool true));
        (3%positive, ssa.Call Examples.tVoid (ssa.CalleeBuiltin "println")
                       [1%positive]);
        (4%positive, ssa.Return [])];
     ssa.blocks := list_to_map
       [(10%positive, {| ssa.Comment := "entry";
                         ssa.Instrs := [3%positive; 4%positive];
                         ssa.Preds := []; ssa.Succs := [] |})] |}.

Definition bool_program : loader.Program :=
  {| loader.Load_err := None; loader.Errors := [[]];
     loader.heap := bool_heap; loader.AllPackages := [Examples.hello_pkg] |}.

Definition ext_bool : Externals :=
  {| GetTargetFromTriple := fun _ => None;
     Load := fun _ _ _ => bool_program;
     VerifyModule := fun _ => None;
     RunPasses := fun _ m => m;
     EmitToMemoryBuffer := fun _ => inr [127; 69; 76; 70];
     ModuleString := Examples.stars;
     OpenFile_err := fun _ _ => None;
     Write_n := fun _ b => length b |}.

(** [func pair() (int, int)], a function with two results. *)
Definition pair : ssa.Function :=
  {| ssa.self := 23%positive; ssa.Name := "pair";
     ssa.Results := Some [Examples.tInt; Examples.tInt];
     ssa.Params := []; ssa.Blocks := []; ssa.DomPreorder := [] |}.

(** [package vars; const Limit = 10; var count int]: in SSA the type of a
    package-level variable is the pointer to the type of its contents. *)
Definition vars_pkg : ssa.Package :=
  {| ssa.Pkg_Path := "example/vars"; ssa.Pkg_Name := "vars";
     ssa.Members :=
       [("Limit", ssa.MemberNamedConst "Limit" Examples.tInt (constant.Int 10));
        ("count", ssa.MemberGlobal "count" (types.Pointer Examples.tInt))] |}.

End MoreExamples.

(** * Properties *)

(** ** Reasoning about the monad *)

Lemma bind_Ok {S A B} (m : M S A) (k : A -> M S B) s b s' :
  bind m k s = (Ok b, s') ->
  exists a s1, m s = (Ok a, s1) /\ k a s1 = (Ok b, s').
Proof.
  unfold bind. destruct (m s) as [[a|e| |] s1]; intros H; try discriminate.
  now exists a, s1.
Qed.

Lemma bind_ret {S A B} (a : A) (k : A -> M S B) s : bind (ret a) k s = k a s.
Proof. reflexivity. Qed.

Lemma bind_gets {S A B} (f : S -> A) (k : A -> M S B) s :
  bind (gets f) k s = k (f s) s.
Proof. reflexivity. Qed.

Section Preserves.

Context {S : Type} (R : S -> S -> Prop) `{!PreOrder R}.

Lemma preserves_ret {A} (a : A) : preserves R (ret a).
Proof. intros s o s' [= _ <-]. reflexivity. Qed.

Lemma preserves_throw {A} e : preserves R (@throw S A e).
Proof. intros s o s' [= _ <-]. reflexivity. Qed.

Lemma preserves_panic {A} : preserves R (@panic S A).
Proof. intros s o s' [= _ <-]. reflexivity. Qed.

Lemma preserves_lift {A} (x : outcome A) : preserves R (lift x).
Proof. intros s o s' [= _ <-]. reflexivity. Qed.

Lemma preserves_gets {A} (f : S -> A) : preserves R (gets f).
Proof. intros s o s' [= _ <-]. reflexivity. Qed.

Lemma preserves_bind {A B} (m : M S A) (k : A -> M S B) :
  preserves R m -> (forall a, preserves R (k a)) -> preserves R (bind m k).
Proof.
  intros Hm Hk s o s'. unfold bind.
  destruct (m s) as [[a|e| |] s1] eqn:E; intros H.
  - transitivity s1; [exact (Hm _ _ _ E)|exact (Hk _ _ _ _ H)].
  - injection H as _ <-. exact (Hm _ _ _ E).
  - injection H as _ <-. exact (Hm _ _ _ E).
  - injection H as _ <-. exact (Hm _ _ _ E).
Qed.

Lemma preserves_forM {A} (l : list A) (body : A -> M S unit) :
  (forall x, preserves R (body x)) -> preserves R (forM l body).
Proof.
  intros Hb. induction l as [|x l IH]; simpl.
  - apply preserves_ret.
  - apply preserves_bind; [apply Hb|intros _; exact IH].
Qed.

Lemma preserves_forM_from {A} (l : list A) (body : nat -> A -> M S unit) i :
  (forall i x, preserves R (body i x)) -> preserves R (forM_from i l body).
Proof.
  intros Hb. revert i. induction l as [|x l IH]; intros i; simpl.
  - apply preserves_ret.
  - apply preserves_bind; [apply Hb|intros _; apply IH].
Qed.

Lemma preserves_mapM {A B} (f : A -> M S B) (l : list A) :
  (forall x, preserves R (f x)) -> preserves R (mapM f l).
Proof.
  intros Hf. induction l as [|x l IH]; simpl.
  - apply preserves_ret.
  - apply preserves_bind; [apply Hf|intros y].
    apply preserves_bind; [exact IH|intros ys; apply preserves_ret].
Qed.

End Preserves.

(** ** Name qualification *)

Lemma IndexByte_ge s c : -1 <= strings.IndexByte s c.
Proof.
  induction s as [|a s IH]; simpl; [lia|].
  destruct (Ascii.eqb a c); [lia|].
  destruct (Z.eqb_spec (strings.IndexByte s c) (-1)); lia.
Qed.

Lemma IndexByte_contains s c : strings.IndexByte s c = -1 <-> ~ contains s c.
Proof.
  unfold contains. induction s as [|a s IH]; simpl.
  - split; [intros _ []|reflexivity].
  - destruct (Ascii.eqb_spec a c) as [->|Hne].
    + split; [discriminate|]. intros H. destruct H. now left.
    + pose proof (IndexByte_ge s c).
      destruct (Z.eqb_spec (strings.IndexByte s c) (-1)) as [He|He].
      * split; [|reflexivity]. intros _ [H'|H']; [congruence|]. now apply IH.
      * split; [lia|]. intros Hn. exfalso. apply He, IH.
        intros Hin. apply Hn. now right.
Qed.




(** ** Constants *)

Lemma uint64_wrap64_mod32 n : uint64 (constant.wrap64 n) mod 2 ^ 32 = n mod 2 ^ 32.
Proof.
  unfold uint64, constant.wrap64.
  rewrite Z.mod_mod_divide by (exists (2 ^ 32); reflexivity).
  rewrite (Z.mod_eq (n + 2 ^ 63) (2 ^ 64)) by lia.
  replace (n + 2 ^ 63 - 2 ^ 64 * ((n + 2 ^ 63) / 2 ^ 64) - 2 ^ 63)
    with (n + (- (2 ^ 32 * ((n + 2 ^ 63) / 2 ^ 64))) * 2 ^ 32) by lia.
  apply Z_mod_plus_full.
Qed.

(** C10.  An integer constant is lowered through [Int64Val], whose second
    result is dropped, to a constant of the 32-bit [int] type: for every
    integer [n], also one outside the 32-bit and the 64-bit range, the
    lowering succeeds and yields the 32-bit constant [n mod 2^32]. *)
Theorem parseConst_Int (c : Compiler.t) (n : Z) :
  Compiler.intType c = llvm.Int32Type ->
  parseConst (constant.Int n) c = (Ok (llvm.CInt llvm.Int32Type (n mod 2 ^ 32)), c).
Proof.
  intros Hc. cbv [parseConst constant.Kind constant.Int64Val bind gets ret].
  rewrite Hc. unfold llvm.ConstInt, llvm.Int32Type.
  now rewrite uint64_wrap64_mod32.
Qed.

Lemma parseConst_Int_witness :
  Compiler.intType Examples.c0 = llvm.Int32Type /\
  parseConst (constant.Int (2 ^ 32 + 5)) Examples.c0
  = (Ok (llvm.CInt llvm.Int32Type 5), Examples.c0).
Proof.
  split; [reflexivity|].
  apply (parseConst_Int Examples.c0 (2 ^ 32 + 5)). reflexivity.
Defined.


Lemma bytes_length s : length (strings.bytes s) = String.length s.
Proof.
  unfold strings.bytes. rewrite length_map.
  induction s; simpl; congruence.
Qed.






(** ** The driver *)

(** C9.  Once the backend has produced the object buffer and the output
    file has been opened, [EmitObject] returns nil, however many of the
    bytes the write stores: the outcome of the write is not consulted. *)
Theorem EmitObject_ignores_write (ext : Externals) (c : Compiler.t)
  (path : string) (w : World) (buf : list Z) :
  EmitToMemoryBuffer ext (Compiler.mod_ c) = inr buf ->
  OpenFile_err ext (files w) path = None ->
  fst (EmitObject ext c path w) = Ok tt.
Proof.
  intros Hbuf Hopen. unfold EmitObject. now rewrite Hbuf, Hopen.
Qed.

Lemma EmitObject_ignores_write_witness :
  fst (EmitObject Examples.ext_disk_full Examples.c0 "out.o" Examples.empty_world)
  = Ok tt /\
  files (snd (EmitObject Examples.ext_disk_full Examples.c0 "out.o"
                Examples.empty_world)) !! "out.o" = Some [].
Proof.
  split.
  - apply (EmitObject_ignores_write Examples.ext_disk_full Examples.c0 "out.o"
             Examples.empty_world [127; 69; 76; 70]); reflexivity.
  - vm_compute. reflexivity.
Defined.

Lemma EmitObject_failure_files ext c path w o w' :
  EmitObject ext c path w = (o, w') -> o <> Ok tt -> files w' = files w.
Proof.
  unfold EmitObject. destruct (EmitToMemoryBuffer ext (Compiler.mod_ c)).
  - intros [= _ <-]. reflexivity.
  - destruct (OpenFile_err ext (files w) path).
    + intros [= _ <-]. reflexivity.
    + intros [= <- _] H. now destruct H.
Qed.

Lemma Println_files s w o w' : Println s w = (o, w') -> files w' = files w.
Proof. intros [= _ <-]. reflexivity. Qed.

(** C8, counterexample.  With a verifier that rejects the module, the
    compilation fails and the object file that was at the output path before
    is still there. *)
Lemma Compile_failure_leaves_stale_file :
  let r := Compile Examples.ext_reject 10 "hello" "out.o" "x86_64-unknown-linux"
             false Examples.stale_world in
  fst r = Err (ErrExternal "verification failed") /\
  files (snd r) !! "out.o" = Some [1; 2; 3; 4; 5; 6].
Proof. vm_compute. split; reflexivity. Qed.

(** C8, amended.  A compilation that does not succeed, in particular one in
    which verification or object emission fails, leaves every file as it
    was: it creates no file at the output path, and a file that was there
    before is still there, with its contents. *)
Theorem Compile_failure_files (ext : Externals) (fuel : nat)
  (pkgName outpath target : string) (printIR : bool) (w w' : World)
  (o : outcome unit) :
  Compile ext fuel pkgName outpath target printIR w = (o, w') ->
  o <> Ok tt ->
  files w' = files w.
Proof.
  unfold Compile. destruct (NewCompiler ext pkgName target) as [c|e| |].
  2-4: intros [= _ <-]; reflexivity.
  destruct (Parse _ _ _ _) as [parseErr ps].
  assert (Hp : forall (m : M World unit) w1 o1 w2,
             (forall w o w', m w = (o, w') -> o <> Ok tt -> files w' = files w) ->
             bind (if printIR then Println (IR ext (ps_c ps)) else ret tt)
                  (fun _ => m) w1 = (o1, w2) ->
             o1 <> Ok tt -> files w2 = files w1).
  { intros m w1 o1 w2 Hm. unfold bind.
    destruct printIR; simpl; intros H Ho; apply Hm in H; auto. }
  assert (Hthrow : forall e w o w',
             @throw World unit e w = (o, w') -> o <> Ok tt -> files w' = files w).
  { intros e w1 o1 w2 [= _ <-]. reflexivity. }
  destruct parseErr as [[]|e| |].
  - apply Hp. destruct (Verify ext (ps_c ps)); [apply Hthrow|].
    destruct (Verify ext (Optimize ext 2 (ps_c ps))); [apply Hthrow|].
    intros w1 o1 w2. apply EmitObject_failure_files.
  - apply Hp. apply Hthrow.
  - intros [= _ <-]. reflexivity.
  - intros [= _ <-]. reflexivity.
Qed.

Lemma Compile_failure_files_witness :
  files (snd (Compile Examples.ext_reject 10 "hello" "out.o"
                "x86_64-unknown-linux" true Examples.stale_world))
  = files Examples.stale_world.
Proof.
  apply (Compile_failure_files Examples.ext_reject 10 "hello" "out.o"
           "x86_64-unknown-linux" true Examples.stale_world _
           (Err (ErrExternal "verification failed"))).
  - vm_compute. reflexivity.
  - discriminate.
Defined.

(** C7, as the code has it.  With [-printir], what is printed is the IR of
    the module as [Parse] leaves it: the print comes before the first
    verification and before [Optimize]. *)
Theorem Compile_prints_unoptimized (ext : Externals) (fuel : nat)
  (pkgName outpath target : string) (w : World) (c : Compiler.t)
  (ps : ParseState) :
  NewCompiler ext pkgName target = Ok c ->
  Parse (Load ext) fuel pkgName {| ps_c := c; ps_trace := [] |} = (Ok tt, ps) ->
  stdout (snd (Compile ext fuel pkgName outpath target true w))
  = stdout w ++ [ModuleString ext (Compiler.mod_ (ps_c ps))].
Proof.
  intros Hc Hp. unfold Compile. rewrite Hc, Hp.
  unfold bind, Println, modify. simpl.
  destruct (Verify ext (ps_c ps)); [reflexivity|].
  destruct (Verify ext (Optimize ext 2 (ps_c ps))); [reflexivity|].
  unfold EmitObject.
  destruct (EmitToMemoryBuffer _ _); [reflexivity|]. simpl.
  destruct (OpenFile_err _ _ _); reflexivity.
Qed.

(** On the example, the module has five instructions when it is printed and
    none when it is emitted. *)
Lemma Compile_prints_unoptimized_witness :
  let ps := snd (Parse (Load Examples.ext_ok) 10 "hello"
                   {| ps_c := Examples.c0; ps_trace := [] |}) in
  stdout (snd (Compile Examples.ext_ok 10 "hello" "out.o" "x86_64-unknown-linux"
                 true Examples.empty_world)) = ["hello:*****"] /\
  IR Examples.ext_ok (Optimize Examples.ext_ok 2 (ps_c ps)) = "hello:".
Proof.
  intros ps. split; [|vm_compute; reflexivity].
  etransitivity.
  - apply (Compile_prints_unoptimized Examples.ext_ok 10 "hello" "out.o"
             "x86_64-unknown-linux" Examples.empty_world Examples.c0 ps).
    + reflexivity.
    + vm_compute. reflexivity.
  - vm_compute. reflexivity.
Defined.

(** ** The built-in print functions *)

Lemma emits_refl s : emits s s [].
Proof. unfold emits. rewrite app_nil_r. auto. Qed.

Lemma emits_trans s1 s2 s3 n1 n2 :
  emits s1 s2 n1 -> emits s2 s3 n2 -> emits s1 s3 (n1 ++ n2).
Proof.
  intros (Hf1 & Hb1 & Hi1 & Hc1) (Hf2 & Hb2 & Hi2 & Hc2). unfold emits.
  rewrite Hf2, Hb2, Hc2, Hc1, app_assoc. repeat split; auto.
  intros i. now rewrite Hi2.
Qed.

Ltac emits_tac :=
  unfold emits; simpl; rewrite ?app_nil_r;
  split; [reflexivity|split; [reflexivity|split; [intros []; reflexivity|reflexivity]]].

Lemma CreateCall_emits fn args s :
  exists v s',
    liftC (CreateCall fn args "") s = (Ok v, s') /\
    emits s s' [{| llvm.i_parent := Compiler.builder (st_c s);
                   llvm.i_name := ""; llvm.i_op := llvm.Call fn args |}].
Proof. eexists _, _. split; [reflexivity|emits_tac]. Qed.

(** Lowering an operand emits no instruction. *)
Lemma operand_parseExpr heap fuel a t s :
  operand heap (st_frame s) a t ->
  exists v s', parseExpr heap (S fuel) a s = (Ok v, s') /\ emits s s' [].
Proof.
  intros (node & Hn & Ht & H). simpl. unfold bind at 1, gets at 1.
  destruct H as [[v Hv]|H].
  { rewrite Hv. eexists _, _. split; [reflexivity|apply emits_refl]. }
  destruct (Frame.locals (st_frame s) !! a) as [v|].
  { eexists _, _. split; [reflexivity|apply emits_refl]. }
  rewrite Hn. destruct node; try contradiction.
  - unfold liftC, parseConst.
    destruct H as [->| ->].
    + destruct (constant.Int64Val Value) as [n b].
      eexists _, _. split; [reflexivity|emits_tac].
    + eexists _, _. split; [reflexivity|emits_tac].
  - eexists _, _. split; [reflexivity|apply emits_refl].
  - eexists _, _. split; [reflexivity|apply emits_refl].
Qed.
Lemma bind_eq_Ok {S A B} (m : M S A) (k : A -> M S B) s a s1 :
  m s = (Ok a, s1) -> bind m k s = k a s1.
Proof. intros H. unfold bind. now rewrite H. Qed.

Lemma space_step i s :
  exists s1,
    (if (1 <=? i)%nat
     then f <- gets (fun s => Compiler.printspaceFunc (st_c s)) ;;
          liftC (CreateCall f [] "") ;;; ret tt
     else ret tt) s = (Ok tt, s1) /\
    exists new, emits s s1 new /\
    calls_of (st_c s) new (if (1 <=? i)%nat then [print_space] else []).
Proof.
  destruct (1 <=? i)%nat.
  - eexists. split; [reflexivity|].
    exists [{| llvm.i_parent := Compiler.builder (st_c s); llvm.i_name := "";
               llvm.i_op := llvm.Call (Compiler.printspaceFunc (st_c s)) [] |}].
    split; [emits_tac|]. split; [reflexivity|]. repeat constructor.
  - eexists. split; [reflexivity|]. exists []. split; [apply emits_refl|].
    split; [reflexivity|constructor].
Qed.

Lemma typeOf_Ok {S} heap a node t (s : S) :
  ssa.values heap !! a = Some node -> ssa.TypeOf node = Some t ->
  typeOf heap a s = (Ok t, s).
Proof. intros Hn Ht. unfold typeOf. now rewrite Hn, Ht. Qed.

Lemma printArg_operand heap fuel i a t f s :
  operand heap (st_frame s) a t -> spec_print_of t = Some f ->
  exists s' new,
    printArg heap (parseExpr heap (S fuel)) i a s = (Ok tt, s') /\
    emits s s' new /\
    calls_of (st_c s) new ((if (1 <=? i)%nat then [print_space] else []) ++ [f]).
Proof.
  intros Hop Hf. unfold printArg.
  destruct (space_step i s) as (s1 & H1 & n1 & He1 & Hc1 & Hp1).
  rewrite (bind_eq_Ok _ _ _ _ _ H1).
  assert (Hop1 : operand heap (st_frame s1) a t).
  { destruct He1 as (-> & _). exact Hop. }
  destruct (operand_parseExpr heap fuel a t s1 Hop1) as (v & s2 & H2 & He2).
  rewrite (bind_eq_Ok _ _ _ _ _ H2).
  destruct Hop as (node & Hn & Ht & _).
  rewrite (bind_eq_Ok _ _ _ _ _ (typeOf_Ok heap a node t s2 Hn Ht)).
  pose proof (emits_trans _ _ _ _ _ He1 He2) as He12. rewrite app_nil_r in He12.
  destruct He12 as (Hfr & Hb & Hi & Hin).
  destruct t as [k| | | | | | | | | |]; try discriminate.
  destruct k; try discriminate; injection Hf as <-.
  all: eexists _, _; (split; [reflexivity|]); split;
    [unfold emits; simpl; rewrite Hin, Hfr, Hb; repeat split; [exact Hi | now rewrite <- app_assoc] |].
  all: pose proof (Hi print_int) as Hpi; pose proof (Hi print_string) as Hps;
    simpl in Hpi, Hps.
  all: split; [rewrite !map_app, Hc1; unfold callee; simpl;
               rewrite ?Hpi, ?Hps; reflexivity|].
  all: apply Forall_app; split; [exact Hp1|repeat constructor; simpl; congruence].
Qed.
Lemma calls_of_app c n1 n2 l1 l2 :
  calls_of c n1 l1 -> calls_of c n2 l2 -> calls_of c (n1 ++ n2) (l1 ++ l2).
Proof.
  intros [H1 F1] [H2 F2]. split.
  - now rewrite !map_app, H1, H2.
  - apply Forall_app. now split.
Qed.

Lemma calls_of_emits s s' n new l :
  emits s s' n -> calls_of (st_c s') new l -> calls_of (st_c s) new l.
Proof.
  intros (_ & Hb & Hi & _) [H F]. split.
  - rewrite H. apply map_ext. intros i. now rewrite Hi.
  - now rewrite <- Hb.
Qed.

Lemma printArgs_operands heap fuel Args : forall calls i s,
  Forall2 (printable_operand heap (st_frame s)) Args calls ->
  exists s' new,
    forM_from i Args (printArg heap (parseExpr heap (S fuel))) s = (Ok tt, s') /\
    emits s s' new /\
    calls_of (st_c s) new
      (if (1 <=? i)%nat then flat_map (fun y => [print_space; y]) calls
       else separate print_space calls).
Proof.
  induction Args as [|a Args IH]; intros calls i s HF; inversion HF; subst.
  - exists s, []. split; [reflexivity|]. split; [apply emits_refl|].
    destruct (1 <=? i)%nat; split; constructor.
  - match goal with H : printable_operand _ _ a _ |- _ =>
      destruct H as (t & Hop & Hf) end.
    destruct (printArg_operand heap fuel i a t _ s Hop Hf)
      as (s1 & n1 & H1 & He1 & Hc1).
    match goal with H : Forall2 _ Args _ |- _ => rename H into HF' end.
    assert (Hfr : st_frame s1 = st_frame s) by apply He1.
    rewrite <- Hfr in HF'.
    destruct (IH _ (S i) s1 HF') as (s2 & n2 & H2 & He2 & Hc2).
    exists s2, (n1 ++ n2). simpl forM_from.
    rewrite (bind_eq_Ok _ _ _ _ _ H1). split; [exact H2|].
    split; [eapply emits_trans; eassumption|].
    apply (calls_of_emits _ _ _ _ _ He1) in Hc2. simpl in Hc2.
    pose proof (calls_of_app _ _ _ _ _ Hc1 Hc2) as Hc.
    destruct (1 <=? i)%nat; simpl in Hc |- *; exact Hc.
Qed.

Lemma bind_fails {S A B} (m : M S A) (k : A -> M S B) s b :
  (forall a s1, m s = (Ok a, s1) -> fst (k a s1) <> Ok b) ->
  fst (bind m k s) <> Ok b.
Proof.
  intros H. unfold bind. destruct (m s) as [[a|e| |] s1]; try discriminate.
  now apply H.
Qed.

Lemma printArg_unprintable heap rec i a s :
  unprintable heap a -> fst (printArg heap rec i a s) <> Ok tt.
Proof.
  intros Hu. unfold printArg.
  apply bind_fails. intros _ s1 _.
  apply bind_fails. intros v s2 _.
  apply bind_fails. intros t s3. unfold typeOf.
  destruct (ssa.values heap !! a) as [node|] eqn:Hn; [|discriminate].
  destruct (ssa.TypeOf node) as [t'|] eqn:Ht; [|discriminate].
  intros [= -> ->]. specialize (Hu node t Hn Ht).
  destruct t as [k| | | | | | | | | |]; try discriminate.
  destruct k; discriminate.
Qed.

Lemma printArgs_unprintable heap rec Args : forall i s,
  Exists (unprintable heap) Args ->
  fst (forM_from i Args (printArg heap rec) s) <> Ok tt.
Proof.
  induction Args as [|a Args IH]; intros i s HE; inversion HE; subst; simpl.
  - pose proof (printArg_unprintable heap rec i a s H0) as Hu.
    unfold bind. destruct (printArg heap rec i a s) as [[[]|e| |] s1];
      try discriminate. now destruct Hu.
  - apply bind_fails. intros _ s1 _. now apply IH.
Qed.

Lemma printArg_unsupported heap fuel i a t s :
  operand heap (st_frame s) a t -> spec_print_of t = None ->
  fst (printArg heap (parseExpr heap (S fuel)) i a s) = Err (spec_print_error t).
Proof.
  intros Hop Hf. unfold printArg.
  destruct (space_step i s) as (s1 & H1 & n1 & He1 & _).
  rewrite (bind_eq_Ok _ _ _ _ _ H1).
  assert (Hop1 : operand heap (st_frame s1) a t).
  { destruct He1 as (-> & _). exact Hop. }
  destruct (operand_parseExpr heap fuel a t s1 Hop1) as (v & s2 & H2 & He2).
  rewrite (bind_eq_Ok _ _ _ _ _ H2).
  destruct Hop as (node & Hn & Ht & _).
  rewrite (bind_eq_Ok _ _ _ _ _ (typeOf_Ok heap a node t s2 Hn Ht)).
  destruct t as [k| | | | | | | | | |]; try reflexivity.
  destruct k; try reflexivity; discriminate.
Qed.

Lemma printArgs_unsupported heap fuel pre : forall calls i a t post s,
  Forall2 (printable_operand heap (st_frame s)) pre calls ->
  operand heap (st_frame s) a t -> spec_print_of t = None ->
  fst (forM_from i (pre ++ a :: post) (printArg heap (parseExpr heap (S fuel))) s)
  = Err (spec_print_error t).
Proof.
  induction pre as [|b pre IH]; intros calls i a t post s HF Hop Hf;
    inversion HF; subst; simpl.
  - pose proof (printArg_unsupported heap fuel i a t s Hop Hf) as H.
    unfold bind. destruct (printArg _ _ i a s) as [[[]|e| |] s1];
      simpl in H; try discriminate; exact H.
  - match goal with H : printable_operand _ _ b _ |- _ =>
      destruct H as (tb & Hopb & Hfb) end.
    destruct (printArg_operand heap fuel i b tb _ s Hopb Hfb)
      as (s1 & n1 & H1 & He1 & _).
    rewrite (bind_eq_Ok _ _ _ _ _ H1).
    assert (Hfr : st_frame s1 = st_frame s) by apply He1.
    eapply IH; rewrite ?Hfr; eassumption.
Qed.
(** C5, counterexample.  The call [println(true)]: the lowering of the
    constant fails before the type of the argument is looked at, with the
    error for an unknown constant. *)
Lemma println_true_error :
  fst (parseBuiltin Examples.print_heap (parseExpr Examples.print_heap 5)
         [5%positive] "println" Examples.s0) = Err ErrUnknownConstant /\
  unprintable Examples.print_heap 5%positive /\
  ErrUnknownConstant <> spec_print_error Examples.tBool.
Proof.
  split; [vm_compute; reflexivity|]. split; [|discriminate].
  intros node t Hn Ht. vm_compute in Hn. injection Hn as <-.
  injection Ht as <-. reflexivity.
Qed.

(** C5, amended.  For [print] and [println] on operands of integer and
    string type, the lowering emits, at the insertion point, exactly the
    calls that the specification prescribes.  An argument of another type
    makes the lowering fail, whatever the lowering of the arguments does;
    the error is the one for an unsupported print argument when the
    arguments before it are supported operands and its own value lowers. *)
Theorem parseBuiltin_print (heap : ssa.Heap) (fuel : nat) (name : string)
  (s : State) :
  name = "print" \/ name = "println" ->
  (forall Args calls,
      Forall2 (printable_operand heap (st_frame s)) Args calls ->
      exists s' new,
        parseBuiltin heap (parseExpr heap (S fuel)) Args name s
        = (Ok llvm.NilValue, s') /\
        emits s s' new /\
        calls_of (st_c s) new (spec_print_calls name calls)) /\
  (forall rec Args,
      Exists (unprintable heap) Args ->
      is_Ok (fst (parseBuiltin heap rec Args name s)) = false) /\
  (forall pre calls a t post,
      Forall2 (printable_operand heap (st_frame s)) pre calls ->
      operand heap (st_frame s) a t ->
      spec_print_of t = None ->
      fst (parseBuiltin heap (parseExpr heap (S fuel)) (pre ++ a :: post) name s)
      = Err (spec_print_error t)).
Proof.
  intros Hname.
  assert (Hb : String.eqb name "print" || String.eqb name "println" = true).
  { destruct Hname as [-> | ->]; reflexivity. }
  unfold parseBuiltin. rewrite Hb. split; [|split].
  - intros Args calls HF.
    destruct (printArgs_operands heap fuel Args calls 0 s HF)
      as (s1 & n1 & H1 & He1 & Hc1).
    rewrite (bind_eq_Ok _ _ _ _ _ H1). simpl in Hc1.
    unfold spec_print_calls. destruct (String.eqb name "println").
    + eexists _, (n1 ++ [_]). split; [reflexivity|]. split.
      * eapply emits_trans; [exact He1|]. emits_tac.
      * apply calls_of_app; [exact Hc1|].
        destruct He1 as (_ & Hbld & Hi & _).
        split; [simpl; unfold callee; simpl; f_equal; f_equal;
                exact (Hi print_newline)|].
        repeat constructor. exact Hbld.
    + exists s1, n1. split; [reflexivity|]. split; [exact He1|].
      now rewrite app_nil_r.
  - intros rec Args HE.
    pose proof (printArgs_unprintable heap rec Args 0 s HE) as H.
    unfold bind. destruct (forM_from _ _ _ _) as [[[]|e| |] s1];
      try reflexivity. now destruct H.
  - intros pre calls a t post HF Hop Hf.
    pose proof (printArgs_unsupported heap fuel pre calls 0 a t post s HF Hop Hf) as H.
    unfold bind. destruct (forM_from _ _ _ _) as [[[]|e| |] s1];
      simpl in H |- *; try discriminate. now injection H as ->.
Qed.

Lemma print_heap_operand_1 :
  printable_operand Examples.print_heap Examples.frame0 1%positive print_string.
Proof.
  exists Examples.tString. split; [|reflexivity].
  exists (ssa.Const Examples.tString (constant.String "n=")).
  split; [vm_compute; reflexivity|]. split; [reflexivity|]. right. now right.
Qed.

Lemma print_heap_operand_2 :
  printable_operand Examples.print_heap Examples.frame0 2%positive print_int.
Proof.
  exists Examples.tInt. split; [|reflexivity].
  exists (ssa.Const Examples.tInt (constant.Int 42)).
  split; [vm_compute; reflexivity|]. split; [reflexivity|]. right. now left.
Qed.

Lemma parseBuiltin_print_witness :
  (exists s' new,
      parseBuiltin Examples.print_heap (parseExpr Examples.print_heap 1)
        [1%positive; 2%positive] "println" Examples.s0 = (Ok llvm.NilValue, s') /\
      emits Examples.s0 s' new /\
      calls_of (st_c Examples.s0) new
        [print_string; print_space; print_int; print_newline]) /\
  is_Ok (fst (parseBuiltin Examples.print_heap (parseExpr Examples.print_heap 3)
                [5%positive] "println" Examples.s0)) = false /\
  fst (parseBuiltin Examples.print_heap (parseExpr Examples.print_heap 1)
         [1%positive; 6%positive] "println" Examples.s0)
  = Err ErrUnknownBasicArgType.
Proof.
  destruct (parseBuiltin_print Examples.print_heap 0 "println" Examples.s0)
    as (Hseq & Hfail & Herr); [now right|].
  split; [|split].
  - apply (Hseq [1%positive; 2%positive] [print_string; print_int]).
    repeat constructor;
      [exact print_heap_operand_1|exact print_heap_operand_2].
  - apply Hfail. constructor.
    intros node t Hn Ht. vm_compute in Hn. injection Hn as <-.
    injection Ht as <-. reflexivity.
  - apply (Herr [1%positive] [print_string] 6%positive Examples.tBool []).
    + repeat constructor. exact print_heap_operand_1.
    + exists (ssa.Parameter_ Examples.tBool "b").
      split; [vm_compute; reflexivity|]. split; [reflexivity|]. now right.
    + reflexivity.
Defined.
(** ** The order of the passes *)

#[local] Instance adds_preorder (P : Step -> Prop) : PreOrder (adds P).
Proof.
  split.
  - intros s. exists []. now rewrite app_nil_r.
  - intros s1 s2 s3 (n1 & H1 & F1) (n2 & H2 & F2). exists (n1 ++ n2).
    rewrite H2, H1, app_assoc. split; [reflexivity|]. apply Forall_app. now split.
Qed.

Lemma liftP_adds {A} P (m : M Compiler.t A) : preserves (adds P) (liftP m).
Proof.
  intros s o s'. unfold liftP. destruct (m (ps_c s)) as [o1 c1].
  intros [= _ <-]. exists []. simpl. now rewrite app_nil_r.
Qed.

Lemma record_adds (P : Step -> Prop) e : P e -> preserves (adds P) (record e).
Proof.
  intros HP s o s' [= _ <-]. exists [e]. simpl. split; [reflexivity|].
  now constructor.
Qed.

Ltac pres :=
  repeat first
    [ apply preserves_bind; [typeclasses eauto| |intros ?]
    | apply liftP_adds
    | apply preserves_ret | apply preserves_throw | apply preserves_panic
    | apply preserves_lift | apply preserves_gets
    | match goal with |- preserves _ (if ?b then _ else _) => destruct b end ];
  try typeclasses eauto.

Lemma declareMember_adds heap k pkg name frames :
  preserves (adds (fun e => rank e = (2 * k)%nat)) (declareMember heap k pkg name frames).
Proof.
  unfold declareMember. apply preserves_bind; [typeclasses eauto| |intros _].
  - now apply record_adds.
  - destruct (ssa.lookup_member _ _) as [[f|n t v|n t|n|]|]; pres.
Qed.

Lemma declareMembers_adds heap k pkg names : forall frames,
  preserves (adds (fun e => rank e = (2 * k)%nat)) (declareMembers heap k pkg names frames).
Proof.
  induction names as [|name names IH]; intros frames; simpl.
  - pres.
  - apply preserves_bind; [typeclasses eauto|apply declareMember_adds|apply IH].
Qed.

Lemma defineMember_adds heap fuel k pkg frames name :
  preserves (adds (fun e => rank e = (2 * k + 1)%nat))
    (defineMember heap fuel k pkg frames name).
Proof.
  unfold defineMember.
  destruct (ssa.lookup_member _ _) as [[f| | | |]|]; try (pres; fail).
  destruct (ssa.Blocks f); [pres; fail|].
  apply preserves_bind; [typeclasses eauto|now apply record_adds|intros _].
  destruct (frames !! ssa.self f) as [frame|]; [|pres; fail].
  intros s o s'. destruct (parseFunc heap fuel f _) as [o1 st].
  intros [= _ <-]. exists []. simpl. now rewrite app_nil_r.
Qed.

Lemma same_rank_sorted r (l : list Step) :
  Forall (fun e => rank e = r) l ->
  StronglySorted (fun a b => (rank a <= rank b)%nat) l.
Proof.
  induction 1 as [|e l He Hl IH]; constructor; [exact IH|].
  eapply Forall_impl; [exact Hl|]. simpl. intros. lia.
Qed.

(** The steps of one package: its declarations, then its definitions. *)
Lemma parsePackage_trace heap fuel k pkg s o s' :
  parsePackage heap fuel k pkg s = (o, s') ->
  exists n1 n2,
    ps_trace s' = ps_trace s ++ n1 ++ n2 /\
    Forall (fun e => rank e = (2 * k)%nat) n1 /\
    Forall (fun e => rank e = (2 * k + 1)%nat) n2.
Proof.
  unfold parsePackage, bind.
  destruct (declareMembers _ _ _ _ _ s) as [o1 s1] eqn:E1.
  apply declareMembers_adds in E1 as (n1 & H1 & F1).
  assert (Hnil : exists n2, ps_trace s1 = ps_trace s ++ n1 ++ n2 /\
                    Forall (fun e => rank e = (2 * k + 1)%nat) n2).
  { exists []. now rewrite app_nil_r. }
  destruct o1 as [frames|e| |].
  2-4: intros [= _ <-]; destruct Hnil as (n2 & ? & ?); now exists n1, n2.
  intros H2.
  assert (P2 : preserves (adds (fun e => rank e = (2 * k + 1)%nat))
                 (forM (strings.Sort (map fst (ssa.Members pkg)))
                    (defineMember heap fuel k pkg frames))).
  { apply preserves_forM; [typeclasses eauto|]. intros x.
    apply defineMember_adds. }
  apply P2 in H2 as (n2 & H2 & F2). exists n1, n2.
  rewrite H2, H1, app_assoc. auto.
Qed.

Lemma packages_trace heap fuel pkgs : forall k s o s',
  forM_from k pkgs (parsePackage heap fuel) s = (o, s') ->
  exists new,
    ps_trace s' = ps_trace s ++ new /\
    StronglySorted (fun a b => (rank a <= rank b)%nat) new /\
    Forall (fun e => (2 * k <= rank e)%nat) new.
Proof.
  induction pkgs as [|pkg pkgs IH]; intros k s o s'; simpl.
  - intros [= _ <-]. exists []. rewrite app_nil_r. repeat constructor.
  - unfold bind.
    destruct (parsePackage heap fuel k pkg s) as [o1 s1] eqn:E1.
    apply parsePackage_trace in E1 as (n1 & n2 & H1 & F1 & F2).
    assert (S12 : StronglySorted (fun a b => (rank a <= rank b)%nat) (n1 ++ n2)).
    { apply StronglySorted_app. split; [|split; eauto using same_rank_sorted].
      intros x1 x2 Hx1 Hx2.
      rewrite Forall_forall in F1, F2.
      rewrite (F1 x1 Hx1), (F2 x2 Hx2). lia. }
    assert (L12 : Forall (fun e => (2 * k <= rank e <= 2 * k + 1)%nat) (n1 ++ n2)).
    { apply Forall_app. split; (eapply Forall_impl; [eassumption|]);
        simpl; intros; lia. }
    assert (Hstop : exists new,
               ps_trace s1 = ps_trace s ++ new /\
               StronglySorted (fun a b => (rank a <= rank b)%nat) new /\
               Forall (fun e => (2 * k <= rank e)%nat) new).
    { exists (n1 ++ n2). split; [exact H1|]. split; [exact S12|].
      eapply Forall_impl; [exact L12|]. simpl. intros. lia. }
    destruct o1 as [[]|e| |].
    2-4: intros [= _ <-]; exact Hstop.
    intros H2. apply IH in H2 as (n3 & H3 & S3 & L3).
    exists ((n1 ++ n2) ++ n3). rewrite H3, H1.
    split; [now rewrite <- !app_assoc|]. split.
    + apply StronglySorted_app. split; [|split; assumption].
      intros x1 x2 Hx1 Hx2. rewrite Forall_forall in L12, L3.
      specialize (L12 x1 Hx1). specialize (L3 x2 Hx2). lia.
    + apply Forall_app. split.
      * eapply Forall_impl; [exact L12|]. simpl. intros. lia.
      * eapply Forall_impl; [exact L3|]. simpl. intros. lia.
Qed.

Lemma Parse_trace Load fuel pkgName s o s' :
  Parse Load fuel pkgName s = (o, s') ->
  exists new,
    ps_trace s' = ps_trace s ++ new /\
    StronglySorted (fun a b => (rank a <= rank b)%nat) new.
Proof.
  assert (Hnil : forall s, exists new,
             ps_trace s = ps_trace s ++ new /\
             StronglySorted (fun a b => (rank a <= rank b)%nat) new).
  { intros s0. exists []. rewrite app_nil_r. split; [reflexivity|constructor]. }
  unfold Parse, bind at 1, gets.
  unfold bind at 1, index.
  destruct (strings.Split _ _ !! 0%nat) as [arch|]; [|intros [= _ <-]; apply Hnil].
  unfold ret at 1. unfold bind at 1.
  destruct (strings.Split _ _ !! 2%nat) as [os|]; [|intros [= _ <-]; apply Hnil].
  unfold ret at 1.
  destruct (loader.Load_err _); [intros [= _ <-]; apply Hnil|].
  unfold bind.
  destruct (forM _ _ s) as [o1 st1] eqn:E1.
  assert (ps_trace st1 = ps_trace s) as Hs1.
  { assert (P : preserves (adds (fun _ => False))
                  (forM (loader.Errors (Load arch os pkgName))
                     (fun errs => match errs with
                                  | [] => ret tt
                                  | e :: _ => throw e
                                  end))).
    { apply preserves_forM; [typeclasses eauto|]. intros [|e l]; pres. }
    apply P in E1 as (n & Hn & Fn). destruct n as [|x n].
    - now rewrite app_nil_r in Hn.
    - inversion Fn; contradiction. }
  destruct o1 as [[]|e| |].
  2-4: intros [= _ <-]; rewrite Hs1; apply Hnil.
  intros H. apply packages_trace in H as (new & Hn & Sn & _).
  exists new. now rewrite Hn, Hs1.
Qed.
Lemma StronglySorted_lookup_lt {A} (R : A -> A -> Prop) (l : list A) :
  StronglySorted R l ->
  forall i j a b, (i < j)%nat -> l !! i = Some a -> l !! j = Some b -> R a b.
Proof.
  induction 1 as [|x l Hs IH Hx]; intros i j a b Hij Ha Hb.
  - discriminate.
  - destruct j as [|j]; [lia|]. simpl in Hb.
    destruct i as [|i]; simpl in Ha.
    + injection Ha as <-. rewrite Forall_forall in Hx. apply Hx.
      eapply list_elem_of_lookup_2. exact Hb.
    + apply (IH i j); [lia|assumption|assumption].
Qed.

(** C1, counterexample.  On the program of two packages, the function of
    the first package is defined (step 1) before the member of the second is
    declared (step 2). *)
Lemma Parse_defines_before_declaring :
  let t := ps_trace (snd (Parse (fun _ _ _ => Examples.two_program_run1) 10 "app"
                            Examples.ps0)) in
  length (loader.AllPackages Examples.two_program_run1) = 2%nat /\
  t !! 1%nat = Some (Defining 0 "Answer") /\
  t !! 2%nat = Some (Declaring 1 "main").
Proof. vm_compute. repeat split. Qed.

(** C1, amended.  [Parse] takes the packages one after the other: every step
    of a package comes before every step of a later package, and within one
    package every declaration step comes before every definition step. *)
Theorem Parse_pass_order (Load : string -> string -> string -> loader.Program)
  (fuel : nat) (pkgName : string) (s s' : ParseState) (o : outcome unit) :
  ps_trace s = [] ->
  Parse Load fuel pkgName s = (o, s') ->
  forall i j e1 e2,
    ps_trace s' !! i = Some e1 ->
    ps_trace s' !! j = Some e2 ->
    (pkg_of e1 < pkg_of e2)%nat \/
    (pkg_of e1 = pkg_of e2 /\ is_Declaring e1 = true /\ is_Defining e2 = true) ->
    (i < j)%nat.
Proof.
  intros Hnil HP i j e1 e2 H1 H2 Hord.
  apply Parse_trace in HP as (new & Hn & Hs). rewrite Hnil in Hn. simpl in Hn.
  rewrite Hn in H1, H2.
  assert (Hr : (rank e1 < rank e2)%nat).
  { destruct e1, e2; simpl in *; destruct Hord as [?|(? & ? & ?)];
      try discriminate; lia. }
  destruct (Nat.lt_trichotomy i j) as [?|[->|Hji]]; [assumption| |].
  - rewrite H1 in H2. injection H2 as ->. lia.
  - pose proof (StronglySorted_lookup_lt _ _ Hs j i e2 e1 Hji H2 H1). simpl in *. lia.
Qed.

Lemma Parse_pass_order_witness :
  let t := ps_trace (snd (Parse (fun _ _ _ => Examples.two_program_run1) 10 "app"
                            Examples.ps0)) in
  t !! 0%nat = Some (Declaring 0 "Answer") /\
  t !! 1%nat = Some (Defining 0 "Answer") /\
  (0 < 1)%nat.
Proof.
  intros t.
  assert (H0 : t !! 0%nat = Some (Declaring 0 "Answer")) by (vm_compute; reflexivity).
  assert (H1 : t !! 1%nat = Some (Defining 0 "Answer")) by (vm_compute; reflexivity).
  split; [exact H0|]. split; [exact H1|].
  apply (Parse_pass_order (fun _ _ _ => Examples.two_program_run1) 10 "app"
           Examples.ps0 (snd (Parse (fun _ _ _ => Examples.two_program_run1) 10 "app"
                                Examples.ps0))
           (fst (Parse (fun _ _ _ => Examples.two_program_run1) 10 "app"
                   Examples.ps0))
           eq_refl (surjective_pairing _) 0%nat 1%nat _ _ H0 H1).
  right. repeat split.
Defined.
(** ** Determinism *)

(** The names of the members of a package are walked in the same order in
    every run: the order in which the run ranges over the map does not
    matter once the names are sorted. *)
Lemma memberNames_deterministic (names1 names2 : list string) :
  names1 ≡ₚ names2 -> strings.Sort names1 = strings.Sort names2.
Proof.
  intros HP. unfold strings.Sort.
  apply (StronglySorted_unique String.le).
  - apply StronglySorted_merge_sort; typeclasses eauto.
  - apply StronglySorted_merge_sort; typeclasses eauto.
  - now rewrite !merge_sort_Permutation.
Qed.

(** C2, on the program of two packages.  Two runs on the same SSA objects
    and the same triple, in which [program.AllPackages()] returns the two
    packages in different orders, both succeed and leave different modules:
    the functions are declared in different orders. *)
Theorem Parse_package_order_changes_IR :
  let r1 := Parse (fun _ _ _ => Examples.two_program_run1) 10 "app" Examples.ps0 in
  let r2 := Parse (fun _ _ _ => Examples.two_program_run2) 10 "app" Examples.ps0 in
  loader.heap Examples.two_program_run1 = loader.heap Examples.two_program_run2 /\
  loader.AllPackages Examples.two_program_run1
    ≡ₚ loader.AllPackages Examples.two_program_run2 /\
  fst r1 = Ok tt /\ fst r2 = Ok tt /\
  map llvm.fn_name (llvm.functions (Compiler.mod_ (ps_c (snd r1))))
  = ["__go_printstring"; "__go_printint"; "__go_printspace"; "__go_printnl";
     "example/lib.Answer"; "main.main"] /\
  map llvm.fn_name (llvm.functions (Compiler.mod_ (ps_c (snd r2))))
  = ["__go_printstring"; "__go_printint"; "__go_printspace"; "__go_printnl";
     "main.main"; "example/lib.Answer"] /\
  Compiler.mod_ (ps_c (snd r1)) <> Compiler.mod_ (ps_c (snd r2)).
Proof.
  intros r1 r2.
  assert (H1 : map llvm.fn_name (llvm.functions (Compiler.mod_ (ps_c (snd r1))))
               = ["__go_printstring"; "__go_printint"; "__go_printspace";
                  "__go_printnl"; "example/lib.Answer"; "main.main"])
    by (vm_compute; reflexivity).
  assert (H2 : map llvm.fn_name (llvm.functions (Compiler.mod_ (ps_c (snd r2))))
               = ["__go_printstring"; "__go_printint"; "__go_printspace";
                  "__go_printnl"; "main.main"; "example/lib.Answer"])
    by (vm_compute; reflexivity).
  split; [reflexivity|]. split; [apply Permutation_swap|].
  split; [vm_compute; reflexivity|]. split; [vm_compute; reflexivity|].
  split; [exact H1|]. split; [exact H2|].
  intros Heq. rewrite Heq, H2 in H1. clear Heq. discriminate H1.
Qed.
(** ** The pending φ nodes *)

#[local] Instance ext_instrs_preorder : PreOrder ext_instrs.
Proof.
  split.
  - intros c. unfold ext_instrs. reflexivity.
  - intros c1 c2 c3 H1 H2. unfold ext_instrs in *. now transitivity (llvm.instrs (Compiler.mod_ c2)).
Qed.

Lemma incoming_prefix s s' v inc :
  instrs_of s `prefix_of` instrs_of s' ->
  incoming s v = Some inc -> incoming s' v = Some inc.
Proof.
  intros [k Hk]. unfold incoming, llvm.Incoming, instrs_of in *.
  destruct v; try discriminate.
  destruct (llvm.instrs (Compiler.mod_ (st_c s)) !! instr) as [x|] eqn:E;
    [|discriminate].
  intros H. rewrite Hk, (lookup_app_l_Some _ _ _ _ E). exact H.
Qed.

Lemma pending_ok_prefix heap s s' :
  instrs_of s `prefix_of` instrs_of s' ->
  Frame.phis (st_frame s') = Frame.phis (st_frame s) ->
  pending_ok heap s -> pending_ok heap s'.
Proof.
  intros Hpre Hph [Hnd Hp]. unfold pending_ok. rewrite Hph. split; [exact Hnd|].
  intros p Hin. destruct (Hp p Hin) as [Hi Hphi]. split; [|exact Hphi].
  eapply incoming_prefix; eassumption.
Qed.

#[local] Instance lowers_preorder heap : PreOrder (lowers heap).
Proof.
  split.
  - intros s. split; [reflexivity|]. split; [reflexivity|].
    split; [reflexivity|]. split; [auto|reflexivity].
  - intros s1 s2 s3 (P1 & B1 & L1 & I1 & H1) (P2 & B2 & L2 & I2 & H2).
    split; [now transitivity (instrs_of s2)|].
    split; [congruence|]. split; [congruence|]. split; [auto|].
    now transitivity (Frame.phis (st_frame s2)).
Qed.

#[local] Instance keeps_pending_preorder heap : PreOrder (keeps_pending heap).
Proof. split; unfold keeps_pending; [intros s; auto|intros s1 s2 s3; auto]. Qed.

#[local] Instance keeps_preorder q : PreOrder (keeps q).
Proof.
  split.
  - intros s. split; [reflexivity|]. split; [reflexivity|]. auto.
  - intros s1 s2 s3 (B1 & L1 & I1) (B2 & L2 & I2).
    split; [congruence|]. split; [congruence|]. eauto.
Qed.

Lemma lowers_keeps_pending heap {A} (m : M State A) :
  preserves (lowers heap) m -> preserves (keeps_pending heap) m.
Proof. intros H s o s' E. apply H in E as (_ & _ & _ & E & _). exact E. Qed.

Lemma lowers_keeps heap q {A} (m : M State A) :
  preserves (lowers heap) m -> preserves (keeps q) m.
Proof.
  intros H s o s' E. apply H in E as (P & B & L & _). split; [exact B|].
  split; [exact L|]. intros v inc _. now apply incoming_prefix.
Qed.

(** Actions of the compiler that only append instructions. *)
Lemma liftC_lowers heap {A} (m : M Compiler.t A) :
  preserves ext_instrs m -> preserves (lowers heap) (liftC m).
Proof.
  intros H s o s'. unfold liftC. destruct (m (st_c s)) as [o1 c1] eqn:E.
  intros [= _ <-]. apply H in E.
  split; [exact E|]. split; [reflexivity|]. split; [reflexivity|].
  split; [|reflexivity].
  apply pending_ok_prefix; [exact E|reflexivity].
Qed.

Lemma build_ext op name : preserves ext_instrs (build op name).
Proof.
  intros c o c' [= _ <-]. unfold ext_instrs. simpl. now eexists.
Qed.

Lemma on_mod_ext {A} (f : llvm.Module -> A * llvm.Module) :
  (forall m, llvm.instrs (snd (f m)) = llvm.instrs m) ->
  preserves ext_instrs (on_mod f).
Proof.
  intros Hf c o c'. unfold on_mod. specialize (Hf (Compiler.mod_ c)).
  destruct (f (Compiler.mod_ c)) as [a m]. intros [= _ <-].
  unfold ext_instrs. simpl in *. now rewrite Hf.
Qed.

Lemma getType_ext t : preserves ext_instrs (getType t).
Proof. intros c o c' [= _ <-]. reflexivity. Qed.

Lemma parseConst_ext v : preserves ext_instrs (parseConst v).
Proof.
  unfold parseConst. destruct (constant.Kind v).
  1,2,5,6: apply preserves_throw; typeclasses eauto.
  - apply preserves_bind; [typeclasses eauto|apply preserves_gets; typeclasses eauto|].
    intros t. apply preserves_bind; [typeclasses eauto| |].
    + apply on_mod_ext. reflexivity.
    + intros p. apply preserves_ret. typeclasses eauto.
  - destruct (constant.Int64Val v).
    apply preserves_bind; [typeclasses eauto|apply preserves_gets; typeclasses eauto|].
    intros t. apply preserves_ret. typeclasses eauto.
Qed.

Lemma SetInsertPointAtEnd_ext b : preserves ext_instrs (SetInsertPointAtEnd b).
Proof. intros c o c' [= _ <-]. unfold ext_instrs. simpl. reflexivity. Qed.
Section PreservesLookup.

Context {S : Type} (R : S -> S -> Prop) `{!PreOrder R}.

Lemma preserves_typeOf heap a : preserves R (@typeOf heap S a).
Proof.
  unfold typeOf. destruct (ssa.values heap !! a) as [n|];
    [destruct (ssa.TypeOf n)|]; auto using preserves_ret, preserves_panic.
Qed.

Lemma preserves_blockAt heap b : preserves R (@blockAt heap S b).
Proof.
  unfold blockAt. destruct (ssa.blocks heap !! b);
    auto using preserves_ret, preserves_panic.
Qed.

Lemma preserves_index {A} (l : list A) i : preserves R (@index S A l i).
Proof.
  unfold index. destruct (l !! i); auto using preserves_ret, preserves_panic.
Qed.

End PreservesLookup.

Ltac unfold_builder :=
  unfold CreateCall, CreatePHI, CreateBinary, CreateNot, CreateICmp, CreateLoad,
    CreateStore, CreateGEP, CreateMalloc, CreateAlloca, CreateBr, CreateCondBr,
    CreateRet, CreateRetVoid.

(** Steps that only append instructions or read the state. *)
Ltac lowers_step :=
  first
    [ apply preserves_bind; [typeclasses eauto| |intros ?]
    | apply preserves_ret; typeclasses eauto
    | apply preserves_throw; typeclasses eauto
    | apply preserves_panic; typeclasses eauto
    | apply preserves_lift; typeclasses eauto
    | apply preserves_gets; typeclasses eauto
    | apply preserves_typeOf; typeclasses eauto
    | apply preserves_blockAt; typeclasses eauto
    | apply preserves_index; typeclasses eauto
    | apply liftC_lowers;
      first [ unfold_builder; apply build_ext | apply getType_ext
            | apply parseConst_ext | apply SetInsertPointAtEnd_ext ]
    | match goal with |- preserves _ (if ?b then _ else _) => destruct b end ].

Lemma parseBinOp_lowers heap rec Op X Y :
  (forall a, preserves (lowers heap) (rec a)) ->
  preserves (lowers heap) (parseBinOp rec Op X Y).
Proof.
  intros Hrec. unfold parseBinOp.
  apply preserves_bind; [typeclasses eauto|apply Hrec|intros x].
  apply preserves_bind; [typeclasses eauto|apply Hrec|intros y].
  destruct Op; repeat lowers_step.
Qed.

Lemma parseUnOp_lowers heap rec Op X :
  (forall a, preserves (lowers heap) (rec a)) ->
  preserves (lowers heap) (parseUnOp rec Op X).
Proof.
  intros Hrec. unfold parseUnOp.
  apply preserves_bind; [typeclasses eauto|apply Hrec|intros x].
  destruct Op; repeat lowers_step.
Qed.

Lemma printArg_lowers heap rec i arg :
  (forall a, preserves (lowers heap) (rec a)) ->
  preserves (lowers heap) (printArg heap rec i arg).
Proof.
  intros Hrec. unfold printArg.
  apply preserves_bind; [typeclasses eauto|repeat lowers_step|intros _].
  apply preserves_bind; [typeclasses eauto|apply Hrec|intros v].
  apply preserves_bind; [typeclasses eauto|repeat lowers_step|intros t].
  destruct t as [k| | | | | | | | | |]; try (repeat lowers_step; fail).
  destruct k; repeat lowers_step.
Qed.

Lemma parseCall_lowers heap rec Value Args :
  (forall a, preserves (lowers heap) (rec a)) ->
  preserves (lowers heap) (parseCall heap rec Value Args).
Proof.
  intros Hrec. destruct Value as [name|name|]; simpl.
  - unfold parseBuiltin.
    destruct (String.eqb name "print" || String.eqb name "println");
      [|repeat lowers_step].
    apply preserves_bind; [typeclasses eauto| |intros _; repeat lowers_step].
    apply preserves_forM_from; [typeclasses eauto|].
    intros i x. now apply printArg_lowers.
  - unfold parseFunctionCall.
    apply preserves_bind; [typeclasses eauto|repeat lowers_step|intros fr].
    apply preserves_bind; [typeclasses eauto|repeat lowers_step|intros tg].
    destruct (llvm.IsNil tg); [repeat lowers_step|].
    apply preserves_bind; [typeclasses eauto| |intros ps; repeat lowers_step].
    apply preserves_mapM; [typeclasses eauto|exact Hrec].
  - repeat lowers_step.
Qed.

Lemma lowers_eta heap s :
  lowers heap s {| st_c := st_c s; st_frame := st_frame s |}.
Proof.
  split; [reflexivity|]. split; [reflexivity|]. split; [reflexivity|].
  split; [intros H; exact H|reflexivity].
Qed.

(** Lowering a φ makes a new IR φ without incoming pairs and appends its
    record to the pending list. *)
Lemma parsePhi_lowers heap expr typ block Edges :
  ssa.values heap !! expr = Some (ssa.Phi typ block Edges) ->
  preserves (lowers heap)
    (t <- liftC (getType typ) ;;
     phi <- liftC (CreatePHI t "") ;;
     modify_frame (Frame.set_phis (fun l =>
       l ++ [{| Phi_ssa := expr; Phi_llvm := phi |}])) ;;;
     ret phi).
Proof.
  intros Hnode s o s'. unfold bind, liftC, getType.
  destruct (getLLVMType (st_c s) typ) as [t|e| |];
    try (intros [= _ <-]; apply lowers_eta).
  simpl. intros [= _ <-].
  split; [now eexists|]. split; [reflexivity|]. split; [reflexivity|].
  split; [|simpl; now eexists].
  intros [Hnd Hp]. unfold pending_ok. simpl.
  assert (Hlt : forall p, p ∈ Frame.phis (st_frame s) ->
            Phi_llvm p <> llvm.InstrValue (length (instrs_of s))).
  { intros p Hin Heq. destruct (Hp p Hin) as [Hi _].
    unfold incoming, llvm.Incoming in Hi. rewrite Heq in Hi.
    unfold instrs_of in Hi.
    rewrite lookup_ge_None_2 in Hi by (unfold instrs_of; lia). discriminate. }
  split.
  - rewrite fmap_app. apply NoDup_app. split; [exact Hnd|]. split.
    + intros v Hv Hv'. simpl in Hv'. apply list_elem_of_singleton in Hv'. subst v.
      apply list_elem_of_fmap in Hv as (p & Hpv & Hin).
      apply (Hlt p Hin). now rewrite <- Hpv.
    + simpl. apply NoDup_singleton.
  - intros p Hin. apply elem_of_app in Hin as [Hin|Hin].
    + destruct (Hp p Hin) as [Hi Hphi]. split; [|exact Hphi].
      eapply incoming_prefix; [|exact Hi]. unfold instrs_of. simpl. now eexists.
    + apply list_elem_of_singleton in Hin. subst p. simpl. split.
      * unfold incoming, llvm.Incoming. simpl.
        now rewrite lookup_app_r, Nat.sub_diag by lia.
      * now exists typ, block, Edges.
Qed.

Lemma parseExpr_lowers heap fuel : forall expr,
  preserves (lowers heap) (parseExpr heap fuel expr).
Proof.
  induction fuel as [|fuel IH]; intros expr; simpl.
  - apply preserves_lift. typeclasses eauto.
  - apply preserves_bind; [typeclasses eauto|repeat lowers_step|intros frame].
    destruct (Frame.locals frame !! expr); [repeat lowers_step|].
    destruct (ssa.values heap !! expr) as [node|] eqn:Hn; [|repeat lowers_step].
    destruct node; try (repeat lowers_step; fail).
    + destruct (types.Underlying typ); repeat lowers_step.
    + now apply parseBinOp_lowers.
    + now apply parseCall_lowers.
    + apply preserves_bind; [typeclasses eauto|apply IH|intros v].
      repeat lowers_step.
    + eapply parsePhi_lowers. exact Hn.
    + now apply parseUnOp_lowers.
Qed.
Lemma parseInstr_keeps_pending heap fuel instr :
  preserves (keeps_pending heap) (parseInstr heap fuel instr).
Proof.
  unfold parseInstr.
  assert (Hval : preserves (keeps_pending heap)
            (fun s =>
               let '(o, s') := parseExpr heap fuel instr s in
               let store value :=
                 {| st_c := st_c s';
                    st_frame := Frame.set_locals <[instr := value]> (st_frame s') |} in
               match o with
               | Ok value => (Ok tt, store value)
               | Err e => (Err e, store llvm.NilValue)
               | Panic => (Panic, s')
               | OutOfFuel => (OutOfFuel, s')
               end)).
  { intros s o s'. destruct (parseExpr heap fuel instr s) as [o1 s1] eqn:E.
    apply parseExpr_lowers in E as (_ & _ & _ & E & _).
    destruct o1; intros [= _ <-]; intros H; apply E in H; exact H. }
  destruct (ssa.values heap !! instr) as [node|];
    [|apply preserves_panic; typeclasses eauto].
  destruct node; try exact Hval; apply lowers_keeps_pending.
  - repeat first [apply parseExpr_lowers | lowers_step].
  - repeat first [apply parseExpr_lowers | lowers_step].
  - destruct Results as [|r [|r' rs]];
      repeat first [apply parseExpr_lowers | lowers_step].
  - repeat first [apply parseExpr_lowers | lowers_step].
  - repeat lowers_step.
Qed.

Lemma modify_frame_keeps_pending heap f :
  (forall fr, Frame.phis (f fr) = Frame.phis fr) ->
  preserves (keeps_pending heap) (modify_frame f).
Proof.
  intros Hf s o s' [= _ <-] [Hnd Hp]. unfold pending_ok. simpl.
  rewrite Hf. split; [exact Hnd|exact Hp].
Qed.

Lemma createBlocks_keeps_pending heap f :
  preserves (keeps_pending heap) (createBlocks heap f).
Proof.
  unfold createBlocks.
  apply preserves_bind; [typeclasses eauto|apply preserves_gets; typeclasses eauto|].
  intros fn. apply preserves_forM; [typeclasses eauto|]. intros block.
  apply preserves_bind; [typeclasses eauto|apply preserves_blockAt; typeclasses eauto|].
  intros blk. apply preserves_bind; [typeclasses eauto| |intros b].
  - apply lowers_keeps_pending, liftC_lowers, on_mod_ext. reflexivity.
  - apply modify_frame_keeps_pending. reflexivity.
Qed.

Lemma fillBlocks_keeps_pending heap fuel f :
  preserves (keeps_pending heap) (fillBlocks heap fuel f).
Proof.
  unfold fillBlocks. apply preserves_forM; [typeclasses eauto|]. intros block.
  apply preserves_bind; [typeclasses eauto|apply preserves_gets; typeclasses eauto|].
  intros b. apply preserves_bind; [typeclasses eauto| |intros _].
  - apply lowers_keeps_pending. repeat lowers_step.
  - apply preserves_bind; [typeclasses eauto|apply preserves_blockAt; typeclasses eauto|].
    intros blk. apply preserves_forM; [typeclasses eauto|]. intros instr.
    apply parseInstr_keeps_pending.
Qed.
Lemma AddIncoming_keeps q v b :
  preserves (keeps q)
    (liftC (modify (Compiler.with_mod (llvm.AddIncoming q [v] [b])))).
Proof.
  intros s o s' [= _ <-]. split; [reflexivity|]. split; [reflexivity|].
  intros v' inc Hne. unfold incoming, llvm.Incoming. simpl.
  destruct v'; try discriminate.
  destruct q; simpl; try (intros H; exact H).
  assert (instr0 <> instr) by congruence.
  now rewrite list_lookup_alter_ne.
Qed.

Lemma AddIncoming_self q v b s inc :
  incoming s q = Some inc ->
  incoming (snd (liftC (modify (Compiler.with_mod (llvm.AddIncoming q [v] [b]))) s)) q
  = Some (inc ++ [(v, b)]).
Proof.
  unfold incoming, llvm.Incoming. simpl. destruct q; try discriminate.
  destruct (llvm.instrs (Compiler.mod_ (st_c s)) !! instr) as [x|] eqn:E;
    [|discriminate].
  destruct (llvm.i_op x) as [| t old | | | | | | | | | | | |] eqn:Eop; try discriminate.
  intros [= ->]. simpl. rewrite list_lookup_alter_eq, E. simpl.
  now rewrite Eop.
Qed.

(** The image of a predecessor under a map of blocks. *)
Lemma Frame_block_eq fr fr' b :
  Frame.blocks fr' = Frame.blocks fr -> Frame.block fr' b = Frame.block fr b.
Proof. intros H. unfold Frame.block. now rewrite H. Qed.

Lemma edges_loop heap fuel q blk fr0 Edges : forall i s s' inc,
  Frame.blocks (st_frame s) = Frame.blocks fr0 ->
  incoming s q = Some inc ->
  snd <$> inc = Frame.block fr0 <$> take i (ssa.Preds blk) ->
  forM_from i Edges (fun i edge =>
      llvmVal <- parseExpr heap fuel edge ;;
      pred <- index (ssa.Preds blk) i ;;
      llvmBlock <- gets (fun s => Frame.block (st_frame s) pred) ;;
      liftC (modify (Compiler.with_mod
               (llvm.AddIncoming q [llvmVal] [llvmBlock])))) s = (Ok tt, s') ->
  Frame.blocks (st_frame s') = Frame.blocks fr0 /\
  exists inc',
    incoming s' q = Some inc' /\
    snd <$> inc' = Frame.block fr0 <$> take (i + length Edges) (ssa.Preds blk).
Proof.
  induction Edges as [|edge Edges IH]; intros i s s' inc HB Hinc Hsnd; simpl.
  - intros [= <-]. split; [exact HB|]. exists inc. now rewrite Nat.add_0_r.
  - intros H.
    apply bind_Ok in H as ([] & s4 & H & Hrest).
    apply bind_Ok in H as (v & s1 & Hv & H).
    apply parseExpr_lowers in Hv as (Hpre & HB1 & _ & _).
    apply bind_Ok in H as (pred & s2 & Hidx & H).
    unfold index in Hidx.
    destruct (ssa.Preds blk !! i) as [pred'|] eqn:Ei; [|discriminate].
    assert (pred' = pred /\ s1 = s2) as [-> <-]
      by (unfold ret in Hidx; split; congruence).
    clear Hidx.
    apply bind_Ok in H as (b & s3 & Hb & H).
    assert (b = Frame.block (st_frame s1) pred /\ s3 = s1) as [-> ->]
      by (unfold gets in Hb; split; congruence).
    clear Hb.
    pose proof (AddIncoming_self q v (Frame.block (st_frame s1) pred) s1 inc
                  (incoming_prefix _ _ _ _ Hpre Hinc)) as Hself.
    rewrite H in Hself. simpl in Hself.
    assert (HB4 : Frame.blocks (st_frame s4) = Frame.blocks fr0).
    { injection H as <-. simpl. congruence. }
    replace (i + S (length Edges))%nat with (S i + length Edges)%nat by lia.
    apply (IH (S i) s4 s' _ HB4 Hself); [|exact Hrest].
    rewrite fmap_app, Hsnd, (take_S_r _ _ _ Ei), fmap_app. simpl.
    do 2 f_equal. apply Frame_block_eq. congruence.
Qed.

Lemma resolvePhi_keeps heap fuel p :
  preserves (keeps (Phi_llvm p)) (resolvePhi heap fuel p).
Proof.
  unfold resolvePhi.
  destruct (ssa.values heap !! Phi_ssa p) as [node|];
    [|apply preserves_panic; typeclasses eauto].
  destruct node; try (apply preserves_panic; typeclasses eauto).
  apply preserves_bind; [typeclasses eauto|apply preserves_blockAt; typeclasses eauto|].
  intros blk. apply preserves_forM_from; [typeclasses eauto|]. intros i edge.
  apply preserves_bind; [typeclasses eauto| |intros v].
  { eapply lowers_keeps. apply parseExpr_lowers. }
  apply preserves_bind; [typeclasses eauto|apply preserves_index; typeclasses eauto|].
  intros pred.
  apply preserves_bind; [typeclasses eauto|apply preserves_gets; typeclasses eauto|].
  intros b. apply AddIncoming_keeps.
Qed.

Lemma resolvePhi_resolved heap fuel p s s' :
  sane heap ->
  incoming s (Phi_llvm p) = Some [] ->
  resolvePhi heap fuel p s = (Ok tt, s') ->
  resolved heap s' p.
Proof.
  intros Hsane Hinc. unfold resolvePhi.
  destruct (ssa.values heap !! Phi_ssa p) as [node|] eqn:Hn; [|discriminate].
  destruct node; try discriminate.
  intros H. apply bind_Ok in H as (blk & s1 & Hblk & H).
  unfold blockAt in Hblk.
  destruct (ssa.blocks heap !! block) as [blk'|] eqn:Hb; [|discriminate].
  assert (blk' = blk /\ s1 = s) as [-> ->]
    by (unfold ret in Hblk; split; congruence).
  clear Hblk.
  destruct (edges_loop heap fuel (Phi_llvm p) blk (st_frame s) Edges 0 s s' []
              eq_refl Hinc eq_refl H) as (HB & inc & Hinc' & Hsnd).
  simpl in Hsnd. rewrite (Hsane _ _ _ _ _ Hn Hb), firstn_all in Hsnd.
  exists typ, block, Edges, blk, inc.
  split; [exact Hn|]. split; [exact Hb|]. split; [exact Hinc'|]. split.
  - rewrite <- (length_fmap snd inc), Hsnd. apply length_fmap.
  - intros i pred Hi. rewrite <- list_lookup_fmap, Hsnd, list_lookup_fmap, Hi.
    simpl. f_equal. symmetry. now apply Frame_block_eq.
Qed.

Lemma resolved_keeps heap q s s' p :
  keeps q s s' -> Phi_llvm p <> q -> resolved heap s p -> resolved heap s' p.
Proof.
  intros (HB & _ & Hk) Hne (typ & block & Edges & blk & inc & Hn & Hb & Hi & Hl & Hs).
  exists typ, block, Edges, blk, inc. repeat split; auto.
  intros i pred Hp. rewrite (Hs i pred Hp). f_equal. symmetry.
  now apply Frame_block_eq.
Qed.

Lemma resolvePhis_resolved heap fuel :
  sane heap ->
  forall todo done s s',
    NoDup (Phi_llvm <$> (done ++ todo)) ->
    (forall p, p ∈ todo -> incoming s (Phi_llvm p) = Some []) ->
    (forall p, p ∈ done -> resolved heap s p) ->
    forM todo (resolvePhi heap fuel) s = (Ok tt, s') ->
    forall p, p ∈ done ++ todo -> resolved heap s' p.
Proof.
  intros Hsane. induction todo as [|q todo IH]; intros done s s' Hnd Htodo Hdone; simpl.
  - intros [= <-] p Hp. rewrite app_nil_r in Hp. auto.
  - intros H. apply bind_Ok in H as ([] & s1 & Hq & Hrest).
    pose proof (resolvePhi_keeps heap fuel q _ _ _ Hq) as Hk.
    assert (Hq0 : incoming s (Phi_llvm q) = Some [])
      by (apply Htodo; left).
    pose proof (resolvePhi_resolved heap fuel q s s1 Hsane Hq0 Hq) as Hres.
    rewrite fmap_app, fmap_cons in Hnd.
    apply NoDup_app in Hnd as (Hnd1 & Hcross & Hnd2).
    apply NoDup_cons in Hnd2 as (Hq_rest & Hnd3).
    intros p Hp. replace (done ++ q :: todo) with ((done ++ [q]) ++ todo) in Hp
      by now rewrite <- app_assoc.
    revert p Hp. apply (IH (done ++ [q]) s1 s'); [| | |exact Hrest].
    + rewrite <- app_assoc. simpl. rewrite fmap_app, fmap_cons.
      apply NoDup_app. split; [exact Hnd1|]. split; [exact Hcross|].
      apply NoDup_cons. now split.
    + intros p Hp. destruct Hk as (_ & _ & Hk). apply Hk; [|apply Htodo; now right].
      intros Heq. apply Hq_rest. rewrite <- Heq. now apply list_elem_of_fmap_2.
    + intros p Hp. apply elem_of_app in Hp as [Hp|Hp].
      * apply (resolved_keeps heap (Phi_llvm q) s); [exact Hk| |now apply Hdone].
        intros Heq. apply (Hcross (Phi_llvm p)); [now apply list_elem_of_fmap_2|].
        rewrite Heq. left.
      * apply list_elem_of_singleton in Hp. now subst p.
Qed.
#[local] Instance mono_preorder : PreOrder mono.
Proof.
  split.
  - intros s. split; [auto|reflexivity].
  - intros s1 s2 s3 [L1 P1] [L2 P2]. split; [auto|].
    now transitivity (Frame.phis (st_frame s2)).
Qed.

#[local] Instance same_pending_preorder : PreOrder same_pending.
Proof.
  split.
  - intros s. split; reflexivity.
  - intros s1 s2 s3 [L1 P1] [L2 P2]. split; congruence.
Qed.

Lemma lowers_mono heap s s' : lowers heap s s' -> mono s s'.
Proof.
  intros (_ & _ & L & _ & P). split; [|exact P]. intros a v. now rewrite L.
Qed.

Lemma locals_pending_lowers heap s s' :
  lowers heap s s' -> locals_pending heap s -> locals_pending heap s'.
Proof.
  intros (_ & _ & L & _ & [k Hk]) H a v Hl Hphi. rewrite L in Hl.
  rewrite Hk. apply elem_of_app. left. now apply H.
Qed.

(** A value that is in [frame.locals] is returned as it is. *)
Lemma parseExpr_hit heap fuel a s v o s' :
  Frame.locals (st_frame s) !! a = Some v ->
  parseExpr heap fuel a s = (o, s') ->
  is_Ok o = true ->
  o = Ok v.
Proof.
  intros Hl. destruct fuel as [|fuel]; simpl.
  - intros [= <- _]. discriminate.
  - unfold bind, gets. rewrite Hl. now intros [= <- _].
Qed.

(** A φ that is not in [frame.locals] gets a new record. *)
Lemma parseExpr_phi_new heap fuel a s v s' :
  is_phi heap a ->
  Frame.locals (st_frame s) !! a = None ->
  parseExpr heap fuel a s = (Ok v, s') ->
  {| Phi_ssa := a; Phi_llvm := v |} ∈ Frame.phis (st_frame s').
Proof.
  intros (typ & block & Edges & Hn) Hl. destruct fuel as [|fuel]; simpl.
  - discriminate.
  - unfold bind at 1, gets at 1. rewrite Hl, Hn.
    unfold bind, liftC, getType.
    destruct (getLLVMType (st_c s) typ) as [t|e| |]; try discriminate.
    simpl. intros [= <- <-]. simpl. apply elem_of_app. right. left.
Qed.

(** Lowering an instruction, when it succeeds. *)
Lemma parseInstr_Ok heap fuel a s s' :
  parseInstr heap fuel a s = (Ok tt, s') ->
  locals_pending heap s ->
  locals_pending heap s' /\ mono s s' /\
  (is_phi heap a -> is_Some (Frame.locals (st_frame s') !! a)).
Proof.
  intros H HJ.
  assert (Hval :
    (let '(o, s1) := parseExpr heap fuel a s in
     let store value :=
       {| st_c := st_c s1;
          st_frame := Frame.set_locals <[a := value]> (st_frame s1) |} in
     match o with
     | Ok value => (Ok tt, store value)
     | Err e => (Err e, store llvm.NilValue)
     | Panic => (Panic, s1)
     | OutOfFuel => (OutOfFuel, s1)
     end) = (Ok tt, s') ->
    locals_pending heap s' /\ mono s s' /\
    is_Some (Frame.locals (st_frame s') !! a)).
  { destruct (parseExpr heap fuel a s) as [o s1] eqn:E.
    destruct o as [v| | |]; try discriminate. intros [= <-].
    pose proof (parseExpr_lowers heap fuel a _ _ _ E) as Hlow.
    pose proof (locals_pending_lowers _ _ _ Hlow HJ) as HJ1.
    destruct (lowers_mono _ _ _ Hlow) as [HL HP].
    destruct Hlow as (_ & _ & Hloc & _ & _).
    split; [|split].
    - intros a' v' Hl' Hphi. simpl in Hl' |- *.
      destruct (decide (a = a')) as [<-|Hne].
      + rewrite lookup_insert_eq in Hl'. injection Hl' as <-.
        destruct (Frame.locals (st_frame s) !! a) as [v0|] eqn:E0.
        * pose proof (parseExpr_hit heap fuel a s v0 _ _ E0 E eq_refl) as Hv.
          injection Hv as ->. apply HJ1; [|exact Hphi]. now apply HL.
        * eapply parseExpr_phi_new; eassumption.
      + rewrite lookup_insert_ne in Hl' by exact Hne. now apply HJ1.
    - split; [|exact HP]. intros a' v' Hl'. simpl.
      destruct (decide (a = a')) as [<-|Hne].
      + pose proof (parseExpr_hit heap fuel a s v' _ _ Hl' E eq_refl) as Hv.
        injection Hv as ->. apply lookup_insert_eq.
      + rewrite lookup_insert_ne by exact Hne. now apply HL.
    - simpl. rewrite lookup_insert_eq. now eexists. }
  assert (Hlow : forall m : M State unit,
            preserves (lowers heap) m -> m s = (Ok tt, s') ->
            locals_pending heap s' /\ mono s s').
  { intros m Hm E. apply Hm in E. split.
    - now apply (locals_pending_lowers heap s).
    - now apply (lowers_mono heap). }
  unfold parseInstr in H.
  destruct (ssa.values heap !! a) as [node|] eqn:Hn; [|discriminate].
  destruct node;
    try (destruct (Hval H) as (H1 & H2 & H3); split; [exact H1|];
         split; [exact H2|]; intros _; exact H3).
  - refine ((fun X => conj (proj1 X) (conj (proj2 X) _)) (Hlow _ _ H)).
    + intros (? & ? & ? & Hphi). congruence.
    + repeat first [apply parseExpr_lowers | lowers_step].
  - refine ((fun X => conj (proj1 X) (conj (proj2 X) _)) (Hlow _ _ H)).
    + intros (? & ? & ? & Hphi). congruence.
    + repeat first [apply parseExpr_lowers | lowers_step].
  - refine ((fun X => conj (proj1 X) (conj (proj2 X) _)) (Hlow _ _ H)).
    + intros (? & ? & ? & Hphi). congruence.
    + destruct Results as [|r [|r' rs]];
        repeat first [apply parseExpr_lowers | lowers_step].
  - refine ((fun X => conj (proj1 X) (conj (proj2 X) _)) (Hlow _ _ H)).
    + intros (? & ? & ? & Hphi). congruence.
    + repeat first [apply parseExpr_lowers | lowers_step].
  - discriminate.
Qed.
(** A loop that succeeds: an invariant [I], a preorder [R] between the
    states, and a property [Q] of every element that later turns keep. *)
Lemma forM_Ok {S A} (I : S -> Prop) (R : S -> S -> Prop) `{!PreOrder R}
  (Q : A -> S -> Prop) (body : A -> M S unit) (l : list A) :
  (forall x s s', I s -> body x s = (Ok tt, s') -> I s' /\ R s s' /\ Q x s') ->
  (forall x s s', R s s' -> Q x s -> Q x s') ->
  forall s s', I s -> forM l body s = (Ok tt, s') ->
    I s' /\ R s s' /\ forall x, x ∈ l -> Q x s'.
Proof.
  intros Hbody Hstable. induction l as [|x l IH]; intros s s' HI; simpl.
  - intros [= <-]. split; [exact HI|]. split; [reflexivity|].
    intros x Hx. inversion Hx.
  - intros H. apply bind_Ok in H as ([] & s1 & Hx & Hl).
    destruct (Hbody x s s1 HI Hx) as (HI1 & HR1 & HQ1).
    destruct (IH s1 s' HI1 Hl) as (HI' & HR' & HQ').
    split; [exact HI'|]. split; [now transitivity s1|].
    intros y Hy. apply elem_of_cons in Hy as [->|Hy]; [|now apply HQ'].
    now apply (Hstable x s1 s').
Qed.

(** After the blocks have been filled, every φ instruction of every block
    has its value in [frame.locals]. *)
Lemma fillBlocks_Ok heap fuel f s s' :
  fillBlocks heap fuel f s = (Ok tt, s') ->
  locals_pending heap s ->
  locals_pending heap s' /\
  forall block blk a,
    block ∈ ssa.DomPreorder f -> ssa.blocks heap !! block = Some blk ->
    a ∈ ssa.Instrs blk -> is_phi heap a ->
    is_Some (Frame.locals (st_frame s') !! a).
Proof.
  intros H HJ. unfold fillBlocks in H.
  pose (Qi := fun (a : positive) (s : State) =>
                is_phi heap a -> is_Some (Frame.locals (st_frame s) !! a)).
  pose (Qb := fun (block : positive) (s : State) =>
                forall blk a, ssa.blocks heap !! block = Some blk ->
                  a ∈ ssa.Instrs blk -> Qi a s).
  assert (Hstable : forall a s1 s2, mono s1 s2 -> Qi a s1 -> Qi a s2).
  { intros a s1 s2 [HL _] HQ Hphi. destruct (HQ Hphi) as [v Hv].
    exists v. now apply HL. }
  assert (Hmain : locals_pending heap s' /\ mono s s' /\
                  forall x, x ∈ ssa.DomPreorder f -> Qb x s').
  { eapply (forM_Ok (locals_pending heap) mono Qb); [| |exact HJ|exact H].
    - intros block s1 s2 HJ1 Hb.
      apply bind_Ok in Hb as (b & s1a & Hg & Hb).
      assert (s1a = s1) as -> by (unfold gets in Hg; congruence).
      apply bind_Ok in Hb as ([] & s1b & Hset & Hb).
      assert (Hlow : lowers heap s1 s1b).
      { revert Hset. apply liftC_lowers, SetInsertPointAtEnd_ext. }
      apply bind_Ok in Hb as (blk & s1c & Hblk & Hb).
      unfold blockAt in Hblk.
      destruct (ssa.blocks heap !! block) as [blk'|] eqn:Eb; [|discriminate].
      assert (blk' = blk /\ s1c = s1b) as [-> ->]
        by (unfold ret in Hblk; split; congruence).
      assert (Hin : locals_pending heap s2 /\ mono s1b s2 /\
                    forall a, a ∈ ssa.Instrs blk -> Qi a s2).
      { eapply (forM_Ok (locals_pending heap) mono Qi);
          [| |exact (locals_pending_lowers _ _ _ Hlow HJ1)|exact Hb].
        - intros a sa sb HJa Ha. now apply (parseInstr_Ok heap fuel).
        - exact Hstable. }
      destruct Hin as (HJ2 & HR2 & HQ2).
      split; [exact HJ2|]. split.
      + transitivity s1b; [now apply (lowers_mono heap)|exact HR2].
      + intros blk0 a Hb0 Ha. rewrite Eb in Hb0. injection Hb0 as <-.
        now apply HQ2.
    - intros block s1 s2 Hm HQ blk a Hb Ha. eapply Hstable; [exact Hm|].
      now apply (HQ blk a). }
  destruct Hmain as (HJ' & _ & HQ).
  split; [exact HJ'|]. intros block blk a Hb Hblk Ha.
  exact (HQ block Hb blk a Hblk Ha).
Qed.

Lemma createBlocks_same_pending heap f :
  preserves same_pending (createBlocks heap f).
Proof.
  unfold createBlocks.
  apply preserves_bind; [typeclasses eauto|apply preserves_gets; typeclasses eauto|].
  intros fn. apply preserves_forM; [typeclasses eauto|]. intros block.
  apply preserves_bind; [typeclasses eauto|apply preserves_blockAt; typeclasses eauto|].
  intros blk. apply preserves_bind; [typeclasses eauto| |intros b].
  - intros s o s'. unfold liftC. destruct (on_mod _ _) as [o1 c1].
    intros [= _ <-]. split; reflexivity.
  - intros s o s' [= _ <-]. split; reflexivity.
Qed.

Lemma resolvePhis_locals heap fuel s o s' :
  resolvePhis heap fuel s = (o, s') ->
  Frame.locals (st_frame s') = Frame.locals (st_frame s).
Proof.
  unfold resolvePhis, bind at 1, gets. intros H.
  assert (HL : preserves
                 (fun s s' => Frame.locals (st_frame s') = Frame.locals (st_frame s))
                 (forM (Frame.phis (st_frame s)) (resolvePhi heap fuel))).
  { apply preserves_forM.
    - split; [intros x; reflexivity|intros x y z; congruence].
    - intros p s1 o1 s2 Hp. now apply resolvePhi_keeps in Hp as (_ & L & _). }
  now apply HL in H.
Qed.

Lemma alter_parent (f : llvm.Instruction -> llvm.Instruction) (i : nat)
  (l : list llvm.Instruction) :
  (forall x, llvm.i_parent (f x) = llvm.i_parent x) ->
  llvm.i_parent <$> alter f i l = llvm.i_parent <$> l.
Proof.
  intros Hf. revert i. induction l as [|x l IH]; intros [|i]; simpl; try reflexivity.
  - now rewrite Hf.
  - f_equal. apply IH.
Qed.


(** *** The insertion point *)

#[local] Instance at_builder_preorder : PreOrder at_builder.
Proof.
  split.
  - intros s. repeat split. exists []. now rewrite app_nil_r.
  - intros s1 s2 s3 (F1 & B1 & U1 & n1 & P1 & A1) (F2 & B2 & U2 & n2 & P2 & A2).
    split; [congruence|]. split; [congruence|]. split; [congruence|].
    exists (n1 ++ n2). rewrite P2, P1, app_assoc. split; [reflexivity|].
    apply Forall_app. split; [exact A1|]. now rewrite <- U1.
Qed.

Lemma build_at_builder op name : preserves at_builder (liftC (build op name)).
Proof.
  intros s o s' [= _ <-]. repeat split.
  exists [Compiler.builder (st_c s)]. unfold parents, instrs_of. simpl.
  rewrite fmap_app. split; [reflexivity|]. now constructor.
Qed.

Lemma quiet_at_builder {A} (m : M Compiler.t A) :
  (forall c o c', m c = (o, c') ->
     llvm.blocks (Compiler.mod_ c') = llvm.blocks (Compiler.mod_ c) /\
     Compiler.builder c' = Compiler.builder c /\
     llvm.i_parent <$> llvm.instrs (Compiler.mod_ c')
     = llvm.i_parent <$> llvm.instrs (Compiler.mod_ c)) ->
  preserves at_builder (liftC m).
Proof.
  intros H s o s'. unfold liftC. destruct (m (st_c s)) as [o1 c1] eqn:E.
  intros [= _ <-]. apply H in E as (B & U & P).
  split; [reflexivity|]. split; [exact B|]. split; [exact U|].
  exists []. unfold parents, instrs_of. simpl. now rewrite app_nil_r.
Qed.

Lemma getType_at_builder t : preserves at_builder (liftC (getType t)).
Proof. apply quiet_at_builder. intros c o c' [= _ <-]. auto. Qed.

Lemma parseConst_at_builder v : preserves at_builder (liftC (parseConst v)).
Proof.
  apply quiet_at_builder. intros c o c'. unfold parseConst.
  destruct (constant.Kind v); try (intros [= _ <-]; auto; fail).
  destruct (constant.Int64Val v). intros [= _ <-]. auto.
Qed.

Lemma AddIncoming_at_builder q vs bs :
  preserves at_builder
    (liftC (modify (Compiler.with_mod (llvm.AddIncoming q vs bs)))).
Proof.
  apply quiet_at_builder. intros c o c' [= _ <-].
  destruct q; repeat split; try reflexivity.
  cbn [Compiler.mod_ Compiler.with_mod llvm.AddIncoming llvm.set_instrs llvm.instrs].
  apply alter_parent. intros x. destruct (llvm.i_op x); reflexivity.
Qed.

Lemma modify_frame_at_builder f :
  (forall fr, Frame.blocks (f fr) = Frame.blocks fr) ->
  preserves at_builder (modify_frame f).
Proof.
  intros Hf s o s' [= _ <-]. split; [apply Hf|]. repeat split.
  exists []. now rewrite app_nil_r.
Qed.

(** Steps that emit at the insertion point, or nothing. *)
Ltac at_step :=
  first
    [ apply preserves_bind; [typeclasses eauto| |intros ?]
    | apply preserves_ret; typeclasses eauto
    | apply preserves_throw; typeclasses eauto
    | apply preserves_panic; typeclasses eauto
    | apply preserves_lift; typeclasses eauto
    | apply preserves_gets; typeclasses eauto
    | apply preserves_typeOf; typeclasses eauto
    | apply preserves_blockAt; typeclasses eauto
    | apply preserves_index; typeclasses eauto
    | unfold_builder; apply build_at_builder
    | apply getType_at_builder
    | apply parseConst_at_builder
    | apply AddIncoming_at_builder
    | apply modify_frame_at_builder; intros ?; reflexivity
    | match goal with |- preserves _ (if ?b then _ else _) => destruct b end ].

Lemma parseCall_at_builder heap rec Value Args :
  (forall a, preserves at_builder (rec a)) ->
  preserves at_builder (parseCall heap rec Value Args).
Proof.
  intros Hrec. destruct Value as [name|name|]; simpl.
  - unfold parseBuiltin.
    destruct (String.eqb name "print" || String.eqb name "println");
      [|repeat at_step].
    apply preserves_bind; [typeclasses eauto| |intros _; repeat at_step].
    apply preserves_forM_from; [typeclasses eauto|].
    intros i x. unfold printArg.
    apply preserves_bind; [typeclasses eauto|repeat at_step|intros _].
    apply preserves_bind; [typeclasses eauto|apply Hrec|intros v].
    apply preserves_bind; [typeclasses eauto|repeat at_step|intros t].
    destruct t as [kd| | | | | | | | | |]; try (repeat at_step; fail).
    destruct kd; repeat at_step.
  - unfold parseFunctionCall.
    apply preserves_bind; [typeclasses eauto|repeat at_step|intros fr].
    apply preserves_bind; [typeclasses eauto|repeat at_step|intros tg].
    destruct (llvm.IsNil tg); [repeat at_step|].
    apply preserves_bind; [typeclasses eauto| |intros ps; repeat at_step].
    apply preserves_mapM; [typeclasses eauto|exact Hrec].
  - repeat at_step.
Qed.

Lemma parseExpr_at_builder heap fuel : forall expr,
  preserves at_builder (parseExpr heap fuel expr).
Proof.
  induction fuel as [|fuel IH]; intros expr; simpl.
  - apply preserves_lift. typeclasses eauto.
  - apply preserves_bind; [typeclasses eauto|repeat at_step|intros frame].
    destruct (Frame.locals frame !! expr); [repeat at_step|].
    destruct (ssa.values heap !! expr) as [node|] eqn:Hn; [|repeat at_step].
    destruct node; try (repeat at_step; fail).
    + destruct (types.Underlying typ); repeat at_step.
    + unfold parseBinOp.
      apply preserves_bind; [typeclasses eauto|apply IH|intros x].
      apply preserves_bind; [typeclasses eauto|apply IH|intros y].
      destruct Op; repeat at_step.
    + now apply parseCall_at_builder.
    + apply preserves_bind; [typeclasses eauto|apply IH|intros v].
      repeat at_step.
    + unfold parseUnOp.
      apply preserves_bind; [typeclasses eauto|apply IH|intros x].
      destruct Op; repeat at_step.
Qed.

Lemma parseInstr_at_builder heap fuel instr :
  preserves at_builder (parseInstr heap fuel instr).
Proof.
  unfold parseInstr.
  assert (Hval : preserves at_builder
            (fun s =>
               let '(o, s') := parseExpr heap fuel instr s in
               let store value :=
                 {| st_c := st_c s';
                    st_frame := Frame.set_locals <[instr := value]> (st_frame s') |} in
               match o with
               | Ok value => (Ok tt, store value)
               | Err e => (Err e, store llvm.NilValue)
               | Panic => (Panic, s')
               | OutOfFuel => (OutOfFuel, s')
               end)).
  { intros s o s'. destruct (parseExpr heap fuel instr s) as [o1 s1] eqn:E.
    apply parseExpr_at_builder in E.
    destruct o1; intros [= _ <-]; exact E. }
  destruct (ssa.values heap !! instr) as [node|];
    [|apply preserves_panic; typeclasses eauto].
  destruct node; try exact Hval.
  - repeat first [apply parseExpr_at_builder | at_step].
  - repeat first [apply parseExpr_at_builder | at_step].
  - destruct Results as [|r [|r' rs]];
      repeat first [apply parseExpr_at_builder | at_step].
  - repeat first [apply parseExpr_at_builder | at_step].
  - repeat at_step.
Qed.

Lemma resolvePhis_at_builder heap fuel :
  preserves at_builder (resolvePhis heap fuel).
Proof.
  unfold resolvePhis.
  apply preserves_bind; [typeclasses eauto|repeat at_step|intros phis].
  apply preserves_forM; [typeclasses eauto|]. intros p. unfold resolvePhi.
  destruct (ssa.values heap !! Phi_ssa p) as [node|]; [|repeat at_step].
  destruct node; try (repeat at_step; fail).
  apply preserves_bind; [typeclasses eauto|repeat at_step|intros blk].
  apply preserves_forM_from; [typeclasses eauto|]. intros i e.
  apply preserves_bind; [typeclasses eauto|apply parseExpr_at_builder|intros v].
  repeat at_step.
Qed.

(** One turn of the second loop of [parseFunc]: the insertion point goes to
    the IR block of the SSA block, and the instructions go there. *)
Lemma fill_block heap fuel block s o s' :
  (llvmBlock <- gets (fun s => Frame.block (st_frame s) block) ;;
   liftC (SetInsertPointAtEnd llvmBlock) ;;;
   blk <- blockAt heap block ;;
   forM (ssa.Instrs blk) (parseInstr heap fuel)) s = (o, s') ->
  Frame.blocks (st_frame s') = Frame.blocks (st_frame s) /\
  llvm.blocks (Compiler.mod_ (st_c s')) = llvm.blocks (Compiler.mod_ (st_c s)) /\
  Compiler.builder (st_c s') = Frame.block (st_frame s) block /\
  exists new, parents s' = parents s ++ new /\
              Forall (eq (Frame.block (st_frame s) block)) new.
Proof.
  rewrite bind_gets. unfold bind at 1, liftC at 1, SetInsertPointAtEnd, modify.
  intros H.
  assert (Hp : preserves at_builder
            (blk <- blockAt heap block ;;
             forM (ssa.Instrs blk) (parseInstr heap fuel))).
  { apply preserves_bind; [typeclasses eauto|repeat at_step|intros blk].
    apply preserves_forM; [typeclasses eauto|]. intros i.
    apply parseInstr_at_builder. }
  apply Hp in H as (F & B & U & new & P & A). simpl in *.
  split; [exact F|]. split; [exact B|]. split; [exact U|]. now exists new.
Qed.

Lemma fill_blocks heap fuel (P : llvm.BasicBlock -> Prop) bs : forall s o s',
  (forall b, b ∈ bs -> P (Frame.block (st_frame s) b)) ->
  forM bs (fun block =>
    llvmBlock <- gets (fun s => Frame.block (st_frame s) block) ;;
    liftC (SetInsertPointAtEnd llvmBlock) ;;;
    blk <- blockAt heap block ;;
    forM (ssa.Instrs blk) (parseInstr heap fuel)) s = (o, s') ->
  Frame.blocks (st_frame s') = Frame.blocks (st_frame s) /\
  llvm.blocks (Compiler.mod_ (st_c s')) = llvm.blocks (Compiler.mod_ (st_c s)) /\
  (bs = [] -> Compiler.builder (st_c s') = Compiler.builder (st_c s)) /\
  (bs <> [] -> P (Compiler.builder (st_c s'))) /\
  exists new, parents s' = parents s ++ new /\ Forall P new.
Proof.
  induction bs as [|b bs IH]; intros s o s' HP; simpl.
  - intros [= _ <-]. repeat split; try congruence.
    exists []. now rewrite app_nil_r.
  - unfold bind at 1.
    match goal with |- context [match ?m s with _ => _ end] =>
      destruct (m s) as [o1 s1] eqn:E end.
    apply fill_block in E as (F1 & B1 & U1 & n1 & P1 & A1).
    assert (Hb : P (Frame.block (st_frame s) b)) by (apply HP; left).
    assert (A1' : Forall P n1).
    { eapply Forall_impl; [exact A1|]. intros p <-. exact Hb. }
    assert (Hstop : (o1, s1) = (o, s') ->
              Frame.blocks (st_frame s') = Frame.blocks (st_frame s) /\
              llvm.blocks (Compiler.mod_ (st_c s'))
              = llvm.blocks (Compiler.mod_ (st_c s)) /\
              (b :: bs = [] ->
               Compiler.builder (st_c s') = Compiler.builder (st_c s)) /\
              (b :: bs <> [] -> P (Compiler.builder (st_c s'))) /\
              exists new, parents s' = parents s ++ new /\ Forall P new).
    { intros [= _ <-]. split; [exact F1|]. split; [exact B1|].
      split; [discriminate|]. split; [intros _; now rewrite U1|]. now exists n1. }
    destruct o1 as [[]|e| |]; try exact Hstop.
    intros H. apply IH in H as (F2 & B2 & E2 & U2 & n2 & P2 & A2).
    + split; [congruence|]. split; [congruence|]. split; [discriminate|]. split.
      * intros _. destruct bs as [|b' bs']; [|apply U2; discriminate].
        rewrite E2, U1 by reflexivity. exact Hb.
      * exists (n1 ++ n2). rewrite P2, P1, app_assoc. split; [reflexivity|].
        now apply Forall_app.
    + intros b' Hb'. unfold Frame.block. rewrite F1. apply HP. now right.
Qed.

(** *** The blocks that the φ nodes refer to *)

Section PreservesIn.

Context {S : Type} (R : S -> S -> Prop) `{!PreOrder R}.

Lemma preserves_forM_in {A} (l : list A) (body : A -> M S unit) :
  (forall x, x ∈ l -> preserves R (body x)) -> preserves R (forM l body).
Proof.
  induction l as [|x l IH]; intros Hb; simpl.
  - apply preserves_ret. exact PreOrder0.
  - apply preserves_bind; [exact PreOrder0|apply Hb; left|intros _].
    apply IH. intros y Hy. apply Hb. now right.
Qed.

Lemma preserves_forM_from_in {A} (l : list A) (body : nat -> A -> M S unit) :
  forall i, (forall j x, x ∈ l -> preserves R (body j x)) ->
            preserves R (forM_from i l body).
Proof.
  induction l as [|x l IH]; intros i Hb; simpl.
  - apply preserves_ret. exact PreOrder0.
  - apply preserves_bind; [exact PreOrder0|apply Hb; left|intros _].
    apply IH. intros j y Hy. apply Hb. now right.
Qed.

Lemma preserves_mapM_in {A B} (g : A -> M S B) (l : list A) :
  (forall x, x ∈ l -> preserves R (g x)) -> preserves R (mapM g l).
Proof.
  induction l as [|x l IH]; intros Hg; simpl.
  - apply preserves_ret. exact PreOrder0.
  - apply preserves_bind; [exact PreOrder0|apply Hg; left|intros y].
    apply preserves_bind; [exact PreOrder0| |intros ys; now apply preserves_ret].
    apply IH. intros z Hz. apply Hg. now right.
Qed.

End PreservesIn.

#[local] Instance keeps_of_preorder heap f : PreOrder (keeps_of heap f).
Proof. split; unfold keeps_of; [intros s; auto|intros s1 s2 s3; auto]. Qed.

Lemma liftC_keeps_of heap f {A} (m : M Compiler.t A) :
  preserves (keeps_of heap f) (liftC m).
Proof.
  intros s o s'. unfold liftC. destruct (m (st_c s)) as [o1 c1].
  intros [= _ <-] H. exact H.
Qed.

(** Steps that leave the pending list alone. *)
Ltac of_step :=
  first
    [ apply preserves_bind; [typeclasses eauto| |intros ?]
    | apply preserves_ret; typeclasses eauto
    | apply preserves_throw; typeclasses eauto
    | apply preserves_panic; typeclasses eauto
    | apply preserves_lift; typeclasses eauto
    | apply preserves_gets; typeclasses eauto
    | apply preserves_typeOf; typeclasses eauto
    | apply preserves_blockAt; typeclasses eauto
    | apply preserves_index; typeclasses eauto
    | apply liftC_keeps_of
    | match goal with |- preserves _ (if ?b then _ else _) => destruct b end ].

Lemma parseCall_keeps_of heap f rec Value Args :
  (forall a, a ∈ Args -> preserves (keeps_of heap f) (rec a)) ->
  preserves (keeps_of heap f) (parseCall heap rec Value Args).
Proof.
  intros Hrec. destruct Value as [name|name|]; simpl.
  - unfold parseBuiltin.
    destruct (String.eqb name "print" || String.eqb name "println");
      [|repeat of_step].
    apply preserves_bind; [typeclasses eauto| |intros _; repeat of_step].
    apply preserves_forM_from_in; [typeclasses eauto|].
    intros i x Hx. unfold printArg.
    apply preserves_bind; [typeclasses eauto|repeat of_step|intros _].
    apply preserves_bind; [typeclasses eauto|now apply Hrec|intros v].
    apply preserves_bind; [typeclasses eauto|repeat of_step|intros t].
    destruct t as [kd| | | | | | | | | |]; try (repeat of_step; fail).
    destruct kd; repeat of_step.
  - unfold parseFunctionCall.
    apply preserves_bind; [typeclasses eauto|repeat of_step|intros fr].
    apply preserves_bind; [typeclasses eauto|repeat of_step|intros tg].
    destruct (llvm.IsNil tg); [repeat of_step|].
    apply preserves_bind; [typeclasses eauto| |intros ps; repeat of_step].
    apply preserves_mapM_in; [typeclasses eauto|exact Hrec].
  - repeat of_step.
Qed.

(** Lowering a value of [f] appends only φ of [f] to the pending list. *)
Lemma parseExpr_keeps_of heap f fuel : forall expr,
  value_of heap f expr ->
  preserves (keeps_of heap f) (parseExpr heap fuel expr).
Proof.
  induction fuel as [|fuel IH]; intros expr Hof; simpl.
  - apply preserves_lift. typeclasses eauto.
  - apply preserves_bind; [typeclasses eauto|repeat of_step|intros frame].
    destruct (Frame.locals frame !! expr); [repeat of_step|].
    destruct (ssa.values heap !! expr) as [node|] eqn:Hn; [|repeat of_step].
    assert (Hop : forall x, x ∈ operands node -> value_of heap f x).
    { intros x Hx. exact (of_operand heap f expr node x Hof Hn Hx). }
    destruct node; try (repeat of_step; fail).
    + destruct (types.Underlying typ); repeat of_step.
    + unfold parseBinOp.
      apply preserves_bind;
        [typeclasses eauto|apply IH, Hop; simpl; set_solver|intros x].
      apply preserves_bind;
        [typeclasses eauto|apply IH, Hop; simpl; set_solver|intros y].
      destruct Op; repeat of_step.
    + apply parseCall_keeps_of. intros a Ha. now apply IH, Hop.
    + apply preserves_bind;
        [typeclasses eauto|apply IH, Hop; simpl; set_solver|intros v].
      repeat of_step.
    + apply preserves_bind; [typeclasses eauto|repeat of_step|intros t].
      apply preserves_bind; [typeclasses eauto|repeat of_step|intros phi].
      apply preserves_bind; [typeclasses eauto| |intros _; repeat of_step].
      intros s o s' [= _ <-] H p Hp. simpl in Hp.
      apply elem_of_app in Hp as [Hp|Hp]; [now apply H|].
      apply list_elem_of_singleton in Hp. now subst p.
    + unfold parseUnOp.
      apply preserves_bind;
        [typeclasses eauto|apply IH, Hop; simpl; set_solver|intros x].
      destruct Op; repeat of_step.
Qed.

Lemma parseInstr_keeps_of heap f fuel instr :
  value_of heap f instr ->
  preserves (keeps_of heap f) (parseInstr heap fuel instr).
Proof.
  intros Hof. unfold parseInstr.
  assert (Hval : preserves (keeps_of heap f)
            (fun s =>
               let '(o, s') := parseExpr heap fuel instr s in
               let store value :=
                 {| st_c := st_c s';
                    st_frame := Frame.set_locals <[instr := value]> (st_frame s') |} in
               match o with
               | Ok value => (Ok tt, store value)
               | Err e => (Err e, store llvm.NilValue)
               | Panic => (Panic, s')
               | OutOfFuel => (OutOfFuel, s')
               end)).
  { intros s o s'. destruct (parseExpr heap fuel instr s) as [o1 s1] eqn:E.
    apply (parseExpr_keeps_of heap f fuel instr Hof) in E.
    destruct o1; intros [= _ <-]; exact E. }
  destruct (ssa.values heap !! instr) as [node|] eqn:Hn;
    [|apply preserves_panic; typeclasses eauto].
  assert (Hop : forall x, x ∈ operands node -> value_of heap f x).
  { intros x Hx. exact (of_operand heap f instr node x Hof Hn Hx). }
  destruct node; try exact Hval.
  - apply preserves_bind;
      [typeclasses eauto|apply parseExpr_keeps_of, Hop; simpl; set_solver|intros c].
    repeat of_step.
  - repeat of_step.
  - destruct Results as [|r [|r' rs]]; try (repeat of_step; fail).
    apply preserves_bind;
      [typeclasses eauto|apply parseExpr_keeps_of, Hop; simpl; set_solver|intros v].
    repeat of_step.
  - apply preserves_bind;
      [typeclasses eauto|apply parseExpr_keeps_of, Hop; simpl; set_solver|intros a].
    apply preserves_bind;
      [typeclasses eauto|apply parseExpr_keeps_of, Hop; simpl; set_solver|intros v].
    repeat of_step.
  - repeat of_step.
Qed.

Lemma fillBlocks_keeps_of heap f fuel :
  preserves (keeps_of heap f) (fillBlocks heap fuel f).
Proof.
  unfold fillBlocks. apply preserves_forM_in; [typeclasses eauto|].
  intros block Hblock.
  apply preserves_bind; [typeclasses eauto|repeat of_step|intros b].
  apply preserves_bind; [typeclasses eauto|repeat of_step|intros _].
  unfold blockAt. destruct (ssa.blocks heap !! block) as [blk|] eqn:Hb.
  - intros s o s'. rewrite bind_ret. revert s o s'.
    apply preserves_forM_in; [typeclasses eauto|]. intros a Ha.
    apply parseInstr_keeps_of. exact (of_instr heap f block blk a Hblock Hb Ha).
  - intros s o s' [= _ <-]. reflexivity.
Qed.

(** The first loop of [parseFunc] gives every block of the list an IR block
    of its own label, made for [fn] in this loop. *)
Lemma createBlocks_maps heap fn bs : forall s s',
  forM bs (fun block =>
    blk <- blockAt heap block ;;
    llvmBlock <- liftC (on_mod (fun m => llvm.AddBasicBlock m fn (ssa.Comment blk))) ;;
    modify_frame (Frame.set_blocks <[block := llvmBlock]>)) s = (Ok tt, s') ->
  llvm.blocks (Compiler.mod_ (st_c s)) `prefix_of` llvm.blocks (Compiler.mod_ (st_c s')) /\
  (forall b, b ∉ bs ->
     Frame.blocks (st_frame s') !! b = Frame.blocks (st_frame s) !! b) /\
  (forall b, b ∈ bs ->
     exists k blk,
       Frame.blocks (st_frame s') !! b = Some (llvm.Block k) /\
       ssa.blocks heap !! b = Some blk /\
       (length (llvm.blocks (Compiler.mod_ (st_c s))) <= k)%nat /\
       llvm.blocks (Compiler.mod_ (st_c s')) !! k
       = Some {| llvm.b_parent := fn; llvm.b_name := ssa.Comment blk |}).
Proof.
  induction bs as [|b bs IH]; intros s s'; simpl.
  - intros [= <-]. split; [reflexivity|]. split; [reflexivity|].
    intros b Hb. inversion Hb.
  - intros H. apply bind_Ok in H as ([] & s1 & Hb & H).
    apply bind_Ok in Hb as (blk & s0 & Hblk & Hb). unfold blockAt in Hblk.
    destruct (ssa.blocks heap !! b) as [blk'|] eqn:Eb; [|discriminate].
    assert (blk' = blk /\ s0 = s) as [-> ->]
      by (unfold ret in Hblk; split; congruence).
    clear Hblk. unfold bind, liftC, on_mod, modify_frame, modify in Hb. simpl in Hb.
    injection Hb as <-.
    apply IH in H as (Hpre & Hout & Hin). simpl in *.
    split; [|split].
    + etransitivity; [|exact Hpre]. now eexists.
    + intros b' Hb'. apply not_elem_of_cons in Hb' as [Hne Hb'].
      rewrite (Hout b' Hb'). now rewrite lookup_insert_ne.
    + intros b' Hb'.
      destruct (decide (b' ∈ bs)) as [Hbs|Hbs].
      * destruct (Hin b' Hbs) as (k & blk' & Hk & Hblk' & Hle & Hinfo).
        exists k, blk'. rewrite length_app in Hle. simpl in Hle.
        repeat split; auto. lia.
      * apply elem_of_cons in Hb' as [->|Hb']; [|contradiction].
        exists (length (llvm.blocks (Compiler.mod_ (st_c s)))), blk.
        rewrite (Hout b Hbs), lookup_insert_eq.
        split; [reflexivity|]. split; [exact Eb|]. split; [lia|].
        destruct Hpre as [rest ->]. rewrite <- app_assoc.
        rewrite lookup_app_r by lia. now rewrite Nat.sub_diag.
Qed.

(** C3.  [parseFunc] is started on a frame as [parseFuncDecl] makes it
    (no locals, no pending φ), for a function of well-formed SSA (its φ
    nodes have one edge per predecessor and belong to its blocks, whose
    predecessors are blocks of the function), and succeeds.  Then every φ
    that is pending when the resolution sweep starts (in the state [s1]) is
    resolved when it ends: it has as many incoming pairs as the block of
    its SSA φ has predecessors, and the block of the i-th pair is the IR
    block that [frame.blocks] holds for the i-th predecessor, which is one
    of the blocks that this call made for the function, with the label of
    that predecessor.  And every φ instruction of every block of the
    function is among them: the value that stands for it in [frame.locals]
    is an IR φ that is resolved for it. *)
Theorem parseFunc_resolves_phis (heap : ssa.Heap) (fuel : nat)
  (f : ssa.Function) (s s' : State) :
  sane heap ->
  local heap f ->
  Frame.phis (st_frame s) = [] ->
  Frame.locals (st_frame s) = ∅ ->
  parseFunc heap fuel f s = (Ok tt, s') ->
  let s1 := snd ((createBlocks heap f ;;; fillBlocks heap fuel f) s) in
  (forall p, p ∈ Frame.phis (st_frame s1) -> resolved_in heap s s' p) /\
  (forall block blk a,
      block ∈ ssa.DomPreorder f -> ssa.blocks heap !! block = Some blk ->
      a ∈ ssa.Instrs blk -> is_phi heap a ->
      exists v,
        Frame.locals (st_frame s') !! a = Some v /\
        resolved_in heap s s' {| Phi_ssa := a; Phi_llvm := v |}).
Proof.
  intros Hsane [Hphi_local Hpreds] Hnil Hloc H. unfold parseFunc in H.
  apply bind_Ok in H as ([] & sa & Ha & H).
  apply bind_Ok in H as ([] & sb & Hb & H).
  rewrite (bind_eq_Ok _ _ _ _ _ Ha), Hb. simpl.
  assert (Hok : pending_ok heap sb).
  { apply (fillBlocks_keeps_pending _ _ _ _ _ _ Hb).
    apply (createBlocks_keeps_pending _ _ _ _ _ Ha).
    unfold pending_ok. rewrite Hnil. split; [constructor|].
    intros p Hp. inversion Hp. }
  destruct Hok as [Hnd Hp].
  pose proof (resolvePhis_locals _ _ _ _ _ H) as Hlocals.
  assert (Hres : forall p, p ∈ Frame.phis (st_frame sb) -> resolved heap s' p).
  { unfold resolvePhis in H. apply bind_Ok in H as (phis & sc & Hg & H).
    assert (phis = Frame.phis (st_frame sb) /\ sc = sb) as [-> ->]
      by (unfold gets in Hg; split; congruence).
    apply (resolvePhis_resolved heap fuel Hsane (Frame.phis (st_frame sb)) [] sb s');
      [exact Hnd| |intros p Hin; inversion Hin|exact H].
    intros p Hin. now apply Hp. }
  (* the pending φ are φ of the function *)
  assert (Hof : pending_of heap f sb).
  { apply (fillBlocks_keeps_of heap f fuel _ _ _ Hb).
    intros p Hin. apply createBlocks_same_pending in Ha as [_ Pa].
    rewrite Pa, Hnil in Hin. inversion Hin. }
  (* the blocks of the function, and that they stay *)
  pose proof Ha as Hmaps. unfold createBlocks in Hmaps. rewrite bind_gets in Hmaps.
  apply createBlocks_maps in Hmaps as (_ & _ & Hmaps).
  assert (Hstay : Frame.blocks (st_frame s') = Frame.blocks (st_frame sa) /\
                  llvm.blocks (Compiler.mod_ (st_c s'))
                  = llvm.blocks (Compiler.mod_ (st_c sa))).
  { unfold fillBlocks in Hb.
    apply (fill_blocks heap fuel (fun _ => True)) in Hb as (F1 & B1 & _);
      [|intros; exact I].
    apply resolvePhis_at_builder in H as (F2 & B2 & _).
    split; congruence. }
  destruct Hstay as [HF HB].
  assert (Hstrong : forall p, p ∈ Frame.phis (st_frame sb) ->
                      resolved_in heap s s' p).
  { intros p Hin.
    destruct (Hres p Hin) as (typ & block & Edges & blk & inc & Hn & Hblk & Hi & Hl & Hs).
    exists typ, block, Edges, blk, inc.
    split; [exact Hn|]. split; [exact Hblk|]. split; [exact Hi|].
    split; [exact Hl|]. intros i pred Hpred.
    assert (Hblock : block ∈ ssa.DomPreorder f)
      by exact (Hphi_local _ _ _ _ (Hof p Hin) Hn).
    assert (Hin_f : pred ∈ ssa.DomPreorder f).
    { apply (Hpreds block blk pred Hblock Hblk).
      now apply list_elem_of_lookup_2 in Hpred. }
    destruct (Hmaps pred Hin_f) as (k & predblk & Hk & Hpb & Hle & Hinfo).
    exists k, predblk. rewrite HF. split; [exact Hk|]. split.
    - rewrite (Hs i pred Hpred). unfold Frame.block. now rewrite HF, Hk.
    - split; [exact Hpb|]. split; [exact Hle|]. now rewrite HB. }
  split; [exact Hstrong|].
  assert (HJa : locals_pending heap sa).
  { apply createBlocks_same_pending in Ha as [La _].
    intros a v Hv. rewrite La, Hloc in Hv. discriminate. }
  destruct (fillBlocks_Ok heap fuel f sa sb Hb HJa) as [HJb Hall].
  intros block blk a Hblock Hblk Hin Hphi.
  destruct (Hall block blk a Hblock Hblk Hin Hphi) as [v Hv].
  exists v. rewrite Hlocals. split; [exact Hv|].
  apply Hstrong. now apply HJb.
Qed.

Lemma sum_heap_sane : sane Examples.sum_heap.
Proof.
  intros a typ block Edges blk Hv Hb.
  apply elem_of_list_to_map_2 in Hv.
  repeat (apply elem_of_cons in Hv as [Hv|Hv];
          [try discriminate; simplify_eq;
           vm_compute in Hb; simplify_eq; reflexivity|]).
  inversion Hv.
Qed.

Lemma sum_heap_local : local Examples.sum_heap Examples.sum.
Proof.
  split.
  - intros a typ block Edges _ Hv.
    apply elem_of_list_to_map_2 in Hv.
    repeat (apply elem_of_cons in Hv as [Hv|Hv];
            [try discriminate; simplify_eq; simpl; repeat first [left|right]|]).
    inversion Hv.
  - intros block blk pred Hblock Hb Hpred. simpl in Hblock.
    repeat (apply elem_of_cons in Hblock as [->|Hblock];
            [vm_compute in Hb; simplify_eq; simpl in Hpred |- *;
             repeat (apply elem_of_cons in Hpred as [->|Hpred];
                     [repeat first [left|right]|]);
             inversion Hpred|]).
    inversion Hblock.
Qed.

Lemma parseFunc_resolves_phis_witness :
  let s' := snd (parseFunc Examples.sum_heap 5 Examples.sum Examples.sum_state) in
  let s1 := snd ((createBlocks Examples.sum_heap Examples.sum ;;;
                  fillBlocks Examples.sum_heap 5 Examples.sum) Examples.sum_state) in
  Phi_ssa <$> Frame.phis (st_frame s1) = [130%positive; 131%positive] /\
  (forall p, p ∈ Frame.phis (st_frame s1) ->
             resolved_in Examples.sum_heap Examples.sum_state s' p) /\
  (forall block blk a,
      block ∈ ssa.DomPreorder Examples.sum ->
      ssa.blocks Examples.sum_heap !! block = Some blk ->
      a ∈ ssa.Instrs blk -> is_phi Examples.sum_heap a ->
      exists v,
        Frame.locals (st_frame s') !! a = Some v /\
        resolved_in Examples.sum_heap Examples.sum_state s'
          {| Phi_ssa := a; Phi_llvm := v |}).
Proof.
  intros s' s1. split; [vm_compute; reflexivity|].
  apply (parseFunc_resolves_phis Examples.sum_heap 5 Examples.sum
           Examples.sum_state s' sum_heap_sane sum_heap_local).
  - vm_compute. reflexivity.
  - vm_compute. reflexivity.
  - vm_compute. reflexivity.
Defined.

(** * Further properties of the code *)

(** ** The type mapper *)

(** Induction on types, with the fields of a struct. *)
Lemma Type_ind_fields (P : types.Type_ -> Prop) :
  (forall kind, P (types.Basic kind)) ->
  (forall name u, P u -> P (types.Named name u)) ->
  (forall elem, P elem -> P (types.Pointer elem)) ->
  (forall fields, Forall P fields -> P (types.Struct fields)) ->
  (forall elem, P (types.Slice elem)) ->
  (forall elem n, P (types.Array elem n)) ->
  (forall key elem, P (types.Map key elem)) ->
  (forall elem, P (types.Chan elem)) ->
  P types.Interface ->
  (forall ps rs, P (types.Signature ps rs)) ->
  (forall elems, P (types.Tuple elems)) ->
  forall t, P t.
Proof.
  intros HB HN HP HS Hsl Har Hm Hc Hi Hsig Ht.
  fix IH 1. intros [kind|name u|elem|fields|elem|elem n|key elem|elem| |ps rs|elems].
  - apply HB.
  - apply HN, IH.
  - apply HP, IH.
  - apply HS. induction fields as [|f fields IHf]; constructor; [apply IH|exact IHf].
  - apply Hsl.
  - apply Har.
  - apply Hm.
  - apply Hc.
  - apply Hi.
  - apply Hsig.
  - apply Ht.
Qed.

(** The loop of [getLLVMType] over the fields of a struct. *)
Lemma getLLVMType_Struct c fields :
  getLLVMType c (types.Struct fields)
  = obind ((fix members (l : list types.Type_) : outcome (list llvm.Type_) :=
              match l with
              | [] => Ok []
              | f :: l' =>
                  obind (getLLVMType c f) (fun member =>
                  obind (members l') (fun ms => Ok (member :: ms)))
              end) fields)
          (fun ms => Ok (llvm.StructType ms false)).
Proof. reflexivity. Qed.

(** X1.  On a type that is not recursive (a finite type term), the type
    mapper returns an IR type exactly for bool, int, int32, string and
    unsafe pointers, and for named types, pointers and structs built from
    such types; on every other such type it returns one of its two
    errors. *)
Theorem getLLVMType_supported (c : Compiler.t) (t : types.Type_) :
  (supported t = true -> exists ty, getLLVMType c t = Ok ty) /\
  (supported t = false ->
   getLLVMType c t = Err ErrUnknownBasicType \/
   getLLVMType c t = Err ErrUnknownType).
Proof.
  induction t as [kind|name u IH|elem IH|fields IH|elem|elem n|key elem|elem| |ps rs|elems]
    using Type_ind_fields; simpl supported;
    try (split; [discriminate|intros _; right; reflexivity]).
  - destruct kind; simpl; split; intros H; try discriminate; eauto.
  - exact IH.
  - simpl. destruct IH as [IH1 IH2]. split; intros H.
    + destruct (IH1 H) as [ty ->]. simpl. eauto.
    + destruct (IH2 H) as [-> | ->]; simpl; auto.
  - rewrite getLLVMType_Struct.
    induction IH as [|f fields [Hf1 Hf2] _ IHl]; simpl.
    + split; [eauto|discriminate].
    + destruct (supported f).
      * destruct (Hf1 eq_refl) as [ty ->]. simpl.
        destruct IHl as [Hl1 Hl2]. split; intros H.
        -- destruct (Hl1 H) as [sty Hs].
           destruct ((fix members (l : list types.Type_) := _) fields) as [ms| | |];
             simpl in Hs |- *; try discriminate. eauto.
        -- destruct (Hl2 H) as [Hs|Hs];
             destruct ((fix members (l : list types.Type_) := _) fields) as [ms| | |];
             simpl in Hs |- *; try discriminate; auto.
      * split; [discriminate|]. intros _.
        destruct (Hf2 eq_refl) as [-> | ->]; simpl; auto.
Qed.

Lemma getLLVMType_supported_witness :
  (exists ty,
      getLLVMType Examples.c0
        (types.Named "P" (types.Struct [Examples.tInt;
                                        types.Pointer Examples.tString])) = Ok ty) /\
  (getLLVMType Examples.c0
     (types.Struct [Examples.tInt; types.Basic types.Float64])
   = Err ErrUnknownBasicType \/
   getLLVMType Examples.c0
     (types.Struct [Examples.tInt; types.Basic types.Float64])
   = Err ErrUnknownType).
Proof.
  split.
  - apply (proj1 (getLLVMType_supported Examples.c0 _)). reflexivity.
  - apply (proj2 (getLLVMType_supported Examples.c0 _)). reflexivity.
Defined.

(** ** Names *)

Lemma IndexByte_qualified prefix name :
  strings.IndexByte (prefix +:+ "." +:+ name) "." <> -1.
Proof.
  induction prefix as [|a prefix IH]; simpl.
  - discriminate.
  - destruct (Ascii.eqb a "."); [discriminate|].
    pose proof (IndexByte_ge (prefix +:+ "." +:+ name) ".").
    destruct (Z.eqb_spec (strings.IndexByte (prefix +:+ "." +:+ name) ".") (-1));
      [contradiction|lia].
Qed.

(** X2.  A qualified name always contains a dot, so qualifying is
    idempotent: a name that has been qualified in one frame is left alone
    by every frame. *)
Theorem getPackageRelativeName_idempotent (frame frame' : Frame.t) (name : string) :
  contains (getPackageRelativeName frame name) "." /\
  getPackageRelativeName frame' (getPackageRelativeName frame name)
  = getPackageRelativeName frame name.
Proof.
  assert (H : strings.IndexByte (getPackageRelativeName frame name) "." <> -1).
  { unfold getPackageRelativeName.
    destruct (Z.eqb_spec (strings.IndexByte name ".") (-1)) as [He|He];
      [apply IndexByte_qualified|exact He]. }
  split.
  - destruct (in_dec ascii_dec "."%char
                (list_ascii_of_string (getPackageRelativeName frame name)))
      as [Hc|Hc]; [exact Hc|]. now apply IndexByte_contains in Hc.
  - unfold getPackageRelativeName at 1.
    destruct (Z.eqb_spec (strings.IndexByte (getPackageRelativeName frame name) ".") (-1));
      [contradiction|reflexivity].
Qed.

(** ** Constants *)

(** X3.  An integer constant within the signed 32-bit range keeps its
    value: the constant that is emitted, read as a signed 32-bit integer,
    is the constant of the source. *)
Theorem parseConst_Int_in_range (c : Compiler.t) (n : Z) :
  Compiler.intType c = llvm.Int32Type ->
  - 2 ^ 31 <= n < 2 ^ 31 ->
  exists m,
    parseConst (constant.Int n) c = (Ok (llvm.CInt llvm.Int32Type m), c) /\
    signed32 m = n.
Proof.
  intros Hc Hn. exists (n mod 2 ^ 32). split.
  - cbv [parseConst constant.Kind constant.Int64Val bind gets ret].
    rewrite Hc. unfold llvm.ConstInt, llvm.Int32Type.
    now rewrite uint64_wrap64_mod32.
  - unfold signed32. destruct (Z.ltb_spec (n mod 2 ^ 32) (2 ^ 31)) as [H|H].
    + destruct (Z.leb_spec 0 n) as [H0|H0].
      * apply Z.mod_small. lia.
      * exfalso. replace n with ((n + 2 ^ 32) + (-1) * 2 ^ 32) in H by lia.
        rewrite Z_mod_plus_full, Z.mod_small in H by lia. lia.
    + destruct (Z.leb_spec 0 n) as [H0|H0].
      * rewrite Z.mod_small in H by lia. lia.
      * replace n with ((n + 2 ^ 32) + (-1) * 2 ^ 32) at 1 by lia.
        rewrite Z_mod_plus_full, Z.mod_small by lia. lia.
Qed.

Lemma parseConst_Int_in_range_witness :
  exists m,
    parseConst (constant.Int (-7)) Examples.c0
    = (Ok (llvm.CInt llvm.Int32Type m), Examples.c0) /\
    signed32 m = -7.
Proof.
  apply (parseConst_Int_in_range Examples.c0 (-7)); [reflexivity|lia].
Defined.

(** ** The driver *)

(** X4.  [EmitObject] opens the output file without truncating it: after a
    complete write the file holds the object followed by what the old file
    had beyond the length of the object.  No other file changes and nothing
    is printed. *)
Theorem EmitObject_no_truncation (ext : Externals) (c : Compiler.t)
  (path : string) (w : World) (buf : list Z) :
  EmitToMemoryBuffer ext (Compiler.mod_ c) = inr buf ->
  OpenFile_err ext (files w) path = None ->
  Write_n ext path buf = length buf ->
  let w' := snd (EmitObject ext c path w) in
  files w' !! path
  = Some (buf ++ drop (length buf) (default [] (files w !! path))) /\
  (forall p, p <> path -> files w' !! p = files w !! p) /\
  stdout w' = stdout w.
Proof.
  intros Hbuf Hopen Hn. unfold EmitObject. rewrite Hbuf, Hopen, Hn. simpl.
  split; [|split; [|reflexivity]].
  - rewrite lookup_insert_eq. unfold write_at_start. now rewrite firstn_all.
  - intros p Hp. now rewrite lookup_insert_ne.
Qed.

Lemma EmitObject_no_truncation_witness :
  files (snd (EmitObject Examples.ext_ok Examples.c0 "out.o" Examples.stale_world))
    !! "out.o" = Some [127; 69; 76; 70; 5; 6].
Proof.
  apply (EmitObject_no_truncation Examples.ext_ok Examples.c0 "out.o"
           Examples.stale_world [127; 69; 76; 70]); reflexivity.
Defined.

(** X5.  With [-printir], a lowering that fails with an error still prints
    the IR of the module as far as it got, as the last thing on standard
    output; then the error is returned, and nothing is verified, optimized
    or written. *)
Theorem Compile_prints_on_parse_error (ext : Externals) (fuel : nat)
  (pkgName outpath target : string) (w : World) (c : Compiler.t)
  (ps : ParseState) (e : error) :
  NewCompiler ext pkgName target = Ok c ->
  Parse (Load ext) fuel pkgName {| ps_c := c; ps_trace := [] |} = (Err e, ps) ->
  let r := Compile ext fuel pkgName outpath target true w in
  fst r = Err e /\
  files (snd r) = files w /\
  last (stdout (snd r)) = Some (ModuleString ext (Compiler.mod_ (ps_c ps))).
Proof.
  intros Hc Hp. unfold Compile. rewrite Hc, Hp. simpl.
  repeat split. apply last_snoc.
Qed.

(** X6.  A compilation succeeds only if the module passed the verifier
    both before and after the passes; the object written is the one
    emitted for the optimized module, and the output path is the only file
    that changes. *)
Theorem Compile_Ok (ext : Externals) (fuel : nat)
  (pkgName outpath target : string) (printIR : bool) (w w' : World) :
  Compile ext fuel pkgName outpath target printIR w = (Ok tt, w') ->
  exists c ps buf,
    NewCompiler ext pkgName target = Ok c /\
    Parse (Load ext) fuel pkgName {| ps_c := c; ps_trace := [] |} = (Ok tt, ps) /\
    Verify ext (ps_c ps) = None /\
    Verify ext (Optimize ext 2 (ps_c ps)) = None /\
    EmitToMemoryBuffer ext (Compiler.mod_ (Optimize ext 2 (ps_c ps))) = inr buf /\
    files w' = <[outpath := write_at_start (Write_n ext outpath buf) buf
                              (default [] (files w !! outpath))]> (files w).
Proof.
  unfold Compile. destruct (NewCompiler ext pkgName target) as [c|e| |];
    try discriminate.
  destruct (Parse _ _ _ _) as [[[]|e| |] ps] eqn:EP; try discriminate.
  - intros H. apply bind_Ok in H as ([] & w1 & Hpr & H).
    assert (Hw1 : files w1 = files w).
    { destruct printIR; injection Hpr as <-; reflexivity. }
    destruct (Verify ext (ps_c ps)) eqn:V1; [discriminate|].
    destruct (Verify ext (Optimize ext 2 (ps_c ps))) eqn:V2; [discriminate|].
    unfold EmitObject in H.
    destruct (EmitToMemoryBuffer _ _) as [e|buf] eqn:EB; [discriminate|].
    destruct (OpenFile_err ext (files w1) outpath) eqn:EO; [discriminate|].
    injection H as <-. simpl. rewrite Hw1.
    exists c, ps, buf. repeat split; auto.
  - intros H. apply bind_Ok in H as ([] & w1 & _ & H). discriminate.
Qed.

Lemma Compile_Ok_witness :
  exists c ps buf,
    NewCompiler Examples.ext_ok "hello" "x86_64-unknown-linux" = Ok c /\
    Parse (Load Examples.ext_ok) 10 "hello" {| ps_c := c; ps_trace := [] |}
    = (Ok tt, ps) /\
    Verify Examples.ext_ok (ps_c ps) = None /\
    Verify Examples.ext_ok (Optimize Examples.ext_ok 2 (ps_c ps)) = None /\
    EmitToMemoryBuffer Examples.ext_ok
      (Compiler.mod_ (Optimize Examples.ext_ok 2 (ps_c ps))) = inr buf /\
    files (snd (Compile Examples.ext_ok 10 "hello" "out.o" "x86_64-unknown-linux"
                  false Examples.empty_world))
    = <["out.o" := write_at_start (Write_n Examples.ext_ok "out.o" buf) buf
                     (default [] (files Examples.empty_world !! "out.o"))]>
        (files Examples.empty_world).
Proof.
  apply (Compile_Ok Examples.ext_ok 10 "hello" "out.o" "x86_64-unknown-linux"
           false Examples.empty_world).
  vm_compute. reflexivity.
Defined.

Lemma Compile_prints_on_parse_error_witness :
  let ps := snd (Parse (Load MoreExamples.ext_bool) 10 "hello"
                   {| ps_c := Examples.c0; ps_trace := [] |}) in
  let r := Compile MoreExamples.ext_bool 10 "hello" "out.o" "x86_64-unknown-linux"
             true Examples.empty_world in
  fst r = Err ErrUnknownConstant /\
  files (snd r) = files Examples.empty_world /\
  last (stdout (snd r))
  = Some (ModuleString MoreExamples.ext_bool (Compiler.mod_ (ps_c ps))).
Proof.
  intros ps.
  apply (Compile_prints_on_parse_error MoreExamples.ext_bool 10 "hello" "out.o"
           "x86_64-unknown-linux" Examples.empty_world Examples.c0 ps).
  - reflexivity.
  - vm_compute. reflexivity.
Defined.

(** ** The command line *)

(** X7.  When [-o] is missing or the number of positional arguments is not
    one, [main] writes the usage text and returns: the exit status is 0,
    [Compile] is not called, and no file or output changes. *)
Theorem main_usage (ext : Externals) (fuel : nat) (prog : string)
  (fl : Flags) (w : World) :
  flag_o fl = "" \/ length (flag_Args fl) <> 1%nat ->
  main ext fuel prog fl w = (Exited 0, [UsageLine prog; PrintDefaults], w).
Proof.
  intros H. unfold main.
  destruct (String.eqb_spec (flag_o fl) "") as [He|He]; [reflexivity|].
  destruct H as [H|H]; [contradiction|].
  destruct (Nat.eqb_spec (length (flag_Args fl)) 1); [contradiction|reflexivity].
Qed.

Lemma main_usage_witness :
  main Examples.ext_ok 10 "tgo"
    {| flag_o := "out.o"; flag_target := "x86_64-unknown-linux";
       flag_printir := false; flag_Args := [] |} Examples.stale_world
  = (Exited 0, [UsageLine "tgo"; PrintDefaults], Examples.stale_world).
Proof.
  apply main_usage. right. simpl. discriminate.
Defined.

(** X8.  With [-o] and one positional argument, [main] compiles that
    package; the exit status is 1 exactly when [Compile] returns an error,
    and then the error is what is written on standard error. *)
Theorem main_exit_status (ext : Externals) (fuel : nat) (prog input : string)
  (fl : Flags) (w : World) :
  flag_o fl <> "" ->
  flag_Args fl = [input] ->
  let r := Compile ext fuel input (flag_o fl) (flag_target fl) (flag_printir fl) w in
  snd (main ext fuel prog fl w) = snd r /\
  (forall e, fst r = Err e <->
             fst (main ext fuel prog fl w) = (Exited 1, [ErrorLine e])) /\
  (fst r = Ok tt <-> fst (main ext fuel prog fl w) = (Exited 0, [])).
Proof.
  intros Ho Ha r. unfold main. rewrite Ha.
  destruct (String.eqb_spec (flag_o fl) "") as [He|_]; [contradiction|].
  simpl. fold r. destruct r as [[[]|e'| |] w']; simpl.
  - split; [reflexivity|]. split; [|tauto]. intros e. split; discriminate.
  - split; [reflexivity|]. split; [|split; discriminate].
    intros e. split; intros [= ->]; reflexivity.
  - split; [reflexivity|]. split; [|split; discriminate].
    intros e. split; discriminate.
  - split; [reflexivity|]. split; [|split; discriminate].
    intros e. split; discriminate.
Qed.

Lemma main_exit_status_witness :
  fst (main Examples.ext_reject 10 "tgo"
         {| flag_o := "out.o"; flag_target := "x86_64-unknown-linux";
            flag_printir := false; flag_Args := ["hello"] |} Examples.stale_world)
  = (Exited 1, [ErrorLine (ErrExternal "verification failed")]).
Proof.
  apply (main_exit_status Examples.ext_reject 10 "tgo" "hello"
           {| flag_o := "out.o"; flag_target := "x86_64-unknown-linux";
              flag_printir := false; flag_Args := ["hello"] |} Examples.stale_world).
  - discriminate.
  - reflexivity.
  - vm_compute. reflexivity.
Defined.

(** ** The start of [Parse] *)

Lemma Split_length s sep :
  length (strings.Split s sep) = S (count_byte s sep).
Proof.
  induction s as [|a s IH]; simpl; [reflexivity|].
  destruct (Ascii.eqb a sep); simpl; [now rewrite IH|].
  destruct (strings.Split s sep) as [|p ps]; simpl in *; [discriminate|exact IH].
Qed.

(** X9.  [Parse] takes the architecture and the operating system from the
    first and third component of the triple: on a triple with fewer than
    two dashes it panics (index out of range) before anything is loaded,
    and the compiler is as it was. *)
Theorem Parse_short_triple (Load : string -> string -> string -> loader.Program)
  (fuel : nat) (pkgName : string) (s : ParseState) :
  (count_byte (Compiler.triple (ps_c s)) "-" < 2)%nat ->
  Parse Load fuel pkgName s = (Panic, s).
Proof.
  intros H. unfold Parse, bind at 1, gets.
  pose proof (Split_length (Compiler.triple (ps_c s)) "-") as Hl.
  unfold bind at 1, index.
  destruct (strings.Split (Compiler.triple (ps_c s)) "-" !! 0%nat) as [arch|] eqn:E0;
    [|reflexivity].
  unfold ret at 1. unfold bind at 1.
  destruct (strings.Split (Compiler.triple (ps_c s)) "-" !! 2%nat) as [os|] eqn:E2;
    [|reflexivity].
  apply lookup_lt_Some in E2. lia.
Qed.

Lemma Parse_short_triple_witness :
  Parse (fun _ _ _ => Examples.hello_program) 10 "hello"
    {| ps_c := NewCompiler_init "hello" "x86_64-linux"; ps_trace := [] |}
  = (Panic, {| ps_c := NewCompiler_init "hello" "x86_64-linux"; ps_trace := [] |}).
Proof.
  apply Parse_short_triple. simpl. lia.
Defined.

Lemma forM_clean {S} (clean : list (list error)) (k : list (list error)) (s : S) e es :
  Forall (fun errs => errs = []) clean ->
  forM (clean ++ (e :: es) :: k)
    (fun errs => match errs with
                 | [] => ret tt
                 | e :: _ => throw e
                 end) s = (Err e, s).
Proof.
  induction 1 as [|x clean -> _ IH]; simpl; [reflexivity|].
  unfold bind, ret. exact IH.
Qed.

(** X10.  When the loader reports an error, or a package of the program has
    errors, [Parse] returns that error (for packages: the first error of
    the first package that has any, in the order in which the run ranges
    over the packages) and lowers nothing: the compiler is as it was and no
    member is declared. *)
Theorem Parse_loader_error (Load : string -> string -> string -> loader.Program)
  (fuel : nat) (pkgName arch os : string) (s : ParseState) (e : error) :
  strings.Split (Compiler.triple (ps_c s)) "-" !! 0%nat = Some arch ->
  strings.Split (Compiler.triple (ps_c s)) "-" !! 2%nat = Some os ->
  loader.Load_err (Load arch os pkgName) = Some e \/
  (loader.Load_err (Load arch os pkgName) = None /\
   exists clean es rest,
     loader.Errors (Load arch os pkgName) = clean ++ (e :: es) :: rest /\
     Forall (fun errs => errs = []) clean) ->
  Parse Load fuel pkgName s = (Err e, s).
Proof.
  intros H0 H2 H. unfold Parse, bind at 1, gets.
  unfold bind at 1, index. rewrite H0. unfold ret at 1.
  unfold bind at 1. rewrite H2. unfold ret at 1.
  destruct H as [->|(-> & clean & es & rest & -> & Hclean)]; [reflexivity|].
  unfold bind. now rewrite forM_clean.
Qed.

Lemma Parse_loader_error_witness :
  Parse (fun _ _ _ =>
           {| loader.Load_err := None;
              loader.Errors := [[]; [ErrExternal "undefined: x"; ErrExternal "y"]; []];
              loader.heap := Examples.hello_heap;
              loader.AllPackages := [Examples.hello_pkg] |})
    10 "hello" Examples.ps0
  = (Err (ErrExternal "undefined: x"), Examples.ps0).
Proof.
  apply (Parse_loader_error _ 10 "hello" "x86_64" "linux" Examples.ps0).
  - reflexivity.
  - reflexivity.
  - right. split; [reflexivity|].
    exists [[]], [ErrExternal "y"], [[]]. split; [reflexivity|].
    repeat constructor.
Defined.

(** ** Function declarations *)

(** The IR type of the parameter [p] is [ty]. *)
Lemma declParams_Ok heap ps : forall i tys frame c r frame' c',
  declParams heap i ps tys frame c = (Ok (r, frame'), c') ->
  c' = c /\
  (exists new,
      r = tys ++ new /\
      Forall2 (fun p ty => exists node t,
                 ssa.values heap !! p = Some node /\ ssa.TypeOf node = Some t /\
                 getLLVMType c t = Ok ty) ps new) /\
  Frame.pkgPrefix frame' = Frame.pkgPrefix frame /\
  Frame.name frame' = Frame.name frame /\
  Frame.locals frame' = Frame.locals frame /\
  Frame.blocks frame' = Frame.blocks frame /\
  Frame.phis frame' = Frame.phis frame /\
  (forall p, p ∉ ps -> Frame.params frame' !! p = Frame.params frame !! p) /\
  (NoDup ps -> forall j p, ps !! j = Some p ->
     Frame.params frame' !! p = Some (i + Z.of_nat j)).
Proof.
  induction ps as [|p ps IH]; simpl; intros i tys frame c r frame' c' H.
  - injection H as <- <- <-. split; [reflexivity|]. split.
    { exists []. rewrite app_nil_r. split; [reflexivity|constructor]. }
    repeat split; try reflexivity. intros _ j q Hq. discriminate.
  - apply bind_Ok in H as (t & c1 & Ht & H). unfold typeOf in Ht.
    destruct (ssa.values heap !! p) as [node|] eqn:Hn; [|discriminate].
    destruct (ssa.TypeOf node) as [t'|] eqn:Hty; [|discriminate].
    assert (t' = t /\ c1 = c) as [-> ->] by (unfold ret in Ht; split; congruence).
    apply bind_Ok in H as (ty & c2 & Hg & H). unfold getType in Hg.
    assert (getLLVMType c t = Ok ty /\ c2 = c) as [Hty' ->] by (split; congruence).
    apply IH in H as (-> & (new & -> & HF) & Hp & Hnm & Hl & Hb & Hph & Hout & Hin).
    split; [reflexivity|]. split.
    { exists (ty :: new). rewrite <- app_assoc. split; [reflexivity|].
      constructor; [|exact HF]. now exists node, t. }
    split; [exact Hp|]. split; [exact Hnm|]. split; [exact Hl|].
    split; [exact Hb|]. split; [exact Hph|]. split.
    + intros q Hq. apply not_elem_of_cons in Hq as [Hne Hq].
      rewrite (Hout q Hq). simpl. now rewrite lookup_insert_ne.
    + intros Hnd j q Hj. apply NoDup_cons in Hnd as [Hnotin Hnd].
      destruct j as [|j]; simpl in Hj.
      * injection Hj as <-. rewrite (Hout p Hnotin). simpl.
        rewrite lookup_insert_eq. f_equal. lia.
      * rewrite (Hin Hnd j q Hj). f_equal. lia.
Qed.

Lemma declParams_state heap ps : forall i tys frame c o c',
  declParams heap i ps tys frame c = (o, c') -> c' = c.
Proof.
  induction ps as [|p ps IH]; simpl; intros i tys frame c o c' H.
  - now injection H as _ <-.
  - unfold bind, typeOf, getType in H.
    destruct (ssa.values heap !! p) as [node|]; [|now injection H as _ <-].
    destruct (ssa.TypeOf node) as [t|]; [|now injection H as _ <-].
    unfold ret in H. destruct (getLLVMType c t); try (now injection H as _ <-).
    now apply IH in H.
Qed.

(** X11.  A successful declaration adds one function to the module and
    changes nothing else in it: the function is named
    [pkgPrefix.name], is not variadic, returns void when the signature has
    no results and the mapped type of the result when it has one, and has
    the mapped types of the parameters, in order.  The frame it returns
    carries that name and the prefix, has no locals, blocks or pending φ,
    and, when the parameters are distinct, maps each to its position. *)
Theorem parseFuncDecl_Ok (heap : ssa.Heap) (prefix : string) (f : ssa.Function)
  (c c' : Compiler.t) (frame : Frame.t) :
  parseFuncDecl heap prefix f c = (Ok frame, c') ->
  exists rty tys,
    c' = Compiler.with_mod
           (llvm.set_functions (fun l =>
              l ++ [{| llvm.fn_name := prefix +:+ "." +:+ ssa.Name f;
                       llvm.fn_type := llvm.FunctionType rty tys false |}])) c /\
    ((ssa.Results f = None /\ rty = llvm.VoidType) \/
     (exists r, ssa.Results f = Some [r] /\ getLLVMType c r = Ok rty)) /\
    Forall2 (fun p ty => exists node t,
               ssa.values heap !! p = Some node /\ ssa.TypeOf node = Some t /\
               getLLVMType c t = Ok ty) (ssa.Params f) tys /\
    Frame.name frame = prefix +:+ "." +:+ ssa.Name f /\
    Frame.pkgPrefix frame = prefix /\
    Frame.locals frame = ∅ /\ Frame.blocks frame = ∅ /\ Frame.phis frame = [] /\
    (NoDup (ssa.Params f) -> forall j p,
       ssa.Params f !! j = Some p -> Frame.param frame p = Z.of_nat j).
Proof.
  intros H. unfold parseFuncDecl in H.
  apply bind_Ok in H as (rty & c1 & Hret & H).
  assert (c1 = c /\
          ((ssa.Results f = None /\ rty = llvm.VoidType) \/
           (exists r, ssa.Results f = Some [r] /\ getLLVMType c r = Ok rty)))
    as [-> Hres].
  { destruct (ssa.Results f) as [[|r [|r' rs]]|]; try discriminate.
    - unfold getType in Hret. split; [congruence|]. right. exists r.
      split; [reflexivity|congruence].
    - unfold ret in Hret. split; [congruence|]. left. split; congruence. }
  apply bind_Ok in H as ([tys fr] & c2 & Hd & H).
  apply declParams_Ok in Hd
    as (-> & (new & -> & HF) & Hp & Hnm & Hl & Hb & Hph & _ & Hin).
  apply bind_Ok in H as (v & c3 & Hadd & H).
  injection H as -> <-. injection Hadd as _ <-.
  exists rty, new. simpl in *. repeat split; auto.
  intros Hnd j p Hj. unfold Frame.param. rewrite (Hin Hnd j p Hj). simpl. lia.
Qed.

(** X12.  A declaration that fails leaves the compiler as it was: no
    function is added.  In particular a signature with a result tuple that
    does not have exactly one element, the empty tuple included, is refused
    with the error for multiple return values. *)
Theorem parseFuncDecl_failure (heap : ssa.Heap) (prefix : string)
  (f : ssa.Function) (c c' : Compiler.t) (o : outcome Frame.t) :
  parseFuncDecl heap prefix f c = (o, c') ->
  (is_Ok o = false -> c' = c) /\
  (forall rs, ssa.Results f = Some rs -> length rs <> 1%nat ->
              o = Err ErrReturnValues).
Proof.
  intros H. unfold parseFuncDecl in H. split.
  - intros Ho. unfold bind at 1 in H.
    destruct (ssa.Results f) as [[|r [|r' rs]]|].
    + now injection H as _ <-.
    + unfold getType in H.
      destruct (getLLVMType c r); try (now injection H as _ <-).
      unfold bind at 1 in H.
      destruct (declParams _ _ _ _ _ c) as [[[tys fr]| | |] c2] eqn:Hd;
        apply declParams_state in Hd; subst c2;
        try (now injection H as _ <-).
      injection H as <- _. discriminate.
    + now injection H as _ <-.
    + unfold ret at 1 in H. unfold bind at 1 in H.
      destruct (declParams _ _ _ _ _ c) as [[[tys fr]| | |] c2] eqn:Hd;
        apply declParams_state in Hd; subst c2;
        try (now injection H as _ <-).
      injection H as <- _. discriminate.
  - intros rs Hrs Hlen. rewrite Hrs in H. unfold bind at 1 in H.
    destruct rs as [|r [|r' rs]]; simpl in Hlen; try lia;
      now injection H as <- _.
Qed.

Lemma parseFuncDecl_Ok_witness :
  let r := parseFuncDecl Examples.sum_heap "main" Examples.sum Examples.c0 in
  let frame := match fst r with Ok frame => frame | _ => Examples.frame0 end in
  Frame.name frame = "main.sum" /\ Frame.param frame 100%positive = 0 /\
  map llvm.fn_name (llvm.functions (Compiler.mod_ (snd r)))
  = map llvm.fn_name (llvm.functions (Compiler.mod_ Examples.c0)) ++ ["main.sum"].
Proof.
  intros r frame.
  destruct (parseFuncDecl_Ok Examples.sum_heap "main" Examples.sum Examples.c0
              (snd r) frame)
    as (rty & tys & Hc & _ & _ & Hname & _ & _ & _ & _ & Hpar).
  - vm_compute. reflexivity.
  - split; [exact Hname|]. split.
    + apply (Hpar (NoDup_singleton _) 0%nat). reflexivity.
    + rewrite Hc. vm_compute. reflexivity.
Defined.

Lemma parseFuncDecl_failure_witness :
  parseFuncDecl Examples.sum_heap "main" MoreExamples.pair Examples.c0
  = (Err ErrReturnValues, Examples.c0).
Proof.
  destruct (parseFuncDecl Examples.sum_heap "main" MoreExamples.pair Examples.c0)
    as [o c'] eqn:E.
  destruct (parseFuncDecl_failure _ _ _ _ _ _ E) as [Hc Ho].
  assert (o = Err ErrReturnValues) as ->
    by (apply (Ho [Examples.tInt; Examples.tInt]); [reflexivity|simpl; lia]).
  now rewrite Hc.
Defined.

(** ** Instructions *)



(** The instruction that the builder creates for [op] in the state [s]. *)
Lemma build_emits op s :
  exists s',
    liftC (build op "") s
    = (Ok (llvm.InstrValue (length (instrs_of s))), s') /\
    emits s s' [{| llvm.i_parent := Compiler.builder (st_c s);
                   llvm.i_name := ""; llvm.i_op := op |}].
Proof. eexists. split; [reflexivity|emits_tac]. Qed.

(** X14.  A return without results becomes a void return, as the one
    instruction emitted.  A return of one operand at hand becomes one
    return of the value that [parseExpr] gives for that operand (the value
    in [frame.locals], when the operand has one), and lowering the operand
    emits nothing.  A return of two or more results is refused with the
    error for multiple return values before anything is lowered or
    emitted. *)
Theorem parseInstr_Return (heap : ssa.Heap) (fuel : nat) (a : ssa.addr)
  (s : State) (rs : list ssa.addr) :
  ssa.values heap !! a = Some (ssa.Return rs) ->
  (rs = [] ->
   exists s', parseInstr heap fuel a s = (Ok tt, s') /\
     emits s s' [{| llvm.i_parent := Compiler.builder (st_c s);
                    llvm.i_name := ""; llvm.i_op := llvm.RetVoid |}]) /\
  (forall r t, rs = [r] -> operand heap (st_frame s) r t ->
   exists v s1 s',
     parseExpr heap (S fuel) r s = (Ok v, s1) /\
     emits s s1 [] /\
     (forall v0, Frame.locals (st_frame s) !! r = Some v0 -> v = v0) /\
     parseInstr heap (S fuel) a s = (Ok tt, s') /\
     emits s s' [{| llvm.i_parent := Compiler.builder (st_c s);
                    llvm.i_name := ""; llvm.i_op := llvm.Ret v |}]) /\
  ((2 <= length rs)%nat -> parseInstr heap fuel a s = (Err ErrReturnValue, s)).
Proof.
  intros Hn. unfold parseInstr. rewrite Hn. split; [|split].
  - intros ->. destruct (build_emits llvm.RetVoid s) as (s' & H & He).
    exists s'. unfold CreateRetVoid. rewrite (bind_eq_Ok _ _ _ _ _ H).
    split; [reflexivity|exact He].
  - intros r t -> Hop.
    destruct (operand_parseExpr heap fuel r t s Hop) as (v & s1 & H1 & He1).
    destruct (build_emits (llvm.Ret v) s1) as (s2 & H2 & He2).
    exists v, s1, s2. split; [exact H1|]. split; [exact He1|]. split.
    { intros v0 Hv0.
      pose proof (parseExpr_hit heap (S fuel) r s v0 _ _ Hv0 H1 eq_refl) as Hv.
      congruence. }
    rewrite (bind_eq_Ok _ _ _ _ _ H1).
    unfold CreateRet. rewrite (bind_eq_Ok _ _ _ _ _ H2).
    split; [reflexivity|].
    pose proof (emits_trans _ _ _ _ _ He1 He2) as He. simpl in He.
    destruct He1 as (_ & Hb & _ & _). now rewrite Hb in He.
  - intros Hlen. destruct rs as [|r [|r' rs]]; simpl in Hlen; try lia.
    reflexivity.
Qed.

Lemma parseInstr_Return_witness :
  exists s',
    parseInstr Examples.two_heap 1 31%positive Examples.s0 = (Ok tt, s') /\
    emits Examples.s0 s'
      [{| llvm.i_parent := Compiler.builder (st_c Examples.s0);
          llvm.i_name := "";
          llvm.i_op := llvm.Ret (llvm.CInt (llvm.IntType 32) 42) |}].
Proof.
  destruct (parseInstr_Return Examples.two_heap 0 31%positive Examples.s0
              [30%positive]) as (_ & H & _).
  - vm_compute. reflexivity.
  - destruct (H 30%positive Examples.tInt eq_refl)
      as (v & s1 & s' & Hexpr & _ & _ & Hinstr & He).
    + exists (ssa.Const Examples.tInt (constant.Int 42)).
      split; [vm_compute; reflexivity|]. split; [reflexivity|].
      right. left. reflexivity.
    + vm_compute in Hexpr. injection Hexpr as <- _.
      exists s'. split; [exact Hinstr|exact He].
Defined.

(** X15.  A conditional branch goes to the IR blocks of the first and the
    second successor of its block, an unconditional one to the IR block of
    the first.  When the block has too few successors the lowering panics
    (index out of range), for the conditional branch after the condition
    has been lowered. *)
Theorem parseInstr_branches (heap : ssa.Heap) (fuel : nat) (a block : ssa.addr)
  (blk : ssa.BasicBlock) (s : State) :
  ssa.blocks heap !! block = Some blk ->
  (forall Cond t,
      ssa.values heap !! a = Some (ssa.If block Cond) ->
      operand heap (st_frame s) Cond t ->
      (forall succ0 succ1,
          ssa.Succs blk !! 0%nat = Some succ0 ->
          ssa.Succs blk !! 1%nat = Some succ1 ->
          exists v s', parseInstr heap (S fuel) a s = (Ok tt, s') /\
            emits s s' [{| llvm.i_parent := Compiler.builder (st_c s);
                           llvm.i_name := "";
                           llvm.i_op := llvm.CondBr v
                                          (Frame.block (st_frame s) succ0)
                                          (Frame.block (st_frame s) succ1) |}]) /\
      ((length (ssa.Succs blk) < 2)%nat ->
       fst (parseInstr heap (S fuel) a s) = Panic)) /\
  (ssa.values heap !! a = Some (ssa.Jump block) ->
   (forall succ0,
       ssa.Succs blk !! 0%nat = Some succ0 ->
       exists s', parseInstr heap fuel a s = (Ok tt, s') /\
         emits s s' [{| llvm.i_parent := Compiler.builder (st_c s);
                        llvm.i_name := "";
                        llvm.i_op := llvm.Br (Frame.block (st_frame s) succ0) |}]) /\
   (ssa.Succs blk = [] -> parseInstr heap fuel a s = (Panic, s))).
Proof.
  intros Hb. split.
  - intros Cond t Hn Hop. unfold parseInstr. rewrite Hn.
    destruct (operand_parseExpr heap fuel Cond t s Hop) as (v & s1 & H1 & He1).
    rewrite (bind_eq_Ok _ _ _ _ _ H1).
    unfold blockAt. rewrite Hb, bind_ret.
    split.
    + intros succ0 succ1 H0 H1'. unfold index. rewrite H0, H1'.
      rewrite bind_ret, bind_gets, bind_ret, bind_gets.
      destruct (build_emits (llvm.CondBr v (Frame.block (st_frame s1) succ0)
                               (Frame.block (st_frame s1) succ1)) s1)
        as (s2 & H2 & He2).
      unfold CreateCondBr. rewrite (bind_eq_Ok _ _ _ _ _ H2).
      exists v, s2. split; [reflexivity|].
      pose proof (emits_trans s s1 s2 [] _ He1 He2) as He.
      destruct He1 as (Hfr & Hbld & _). simpl in He. now rewrite Hfr, Hbld in He.
    + intros Hlen. unfold index.
      destruct (ssa.Succs blk !! 0%nat) as [succ0|] eqn:E0; [|reflexivity].
      rewrite bind_ret, bind_gets.
      destruct (ssa.Succs blk !! 1%nat) as [succ1|] eqn:E1; [|reflexivity].
      apply lookup_lt_Some in E1. lia.
  - intros Hn. unfold parseInstr. rewrite Hn. unfold blockAt.
    rewrite Hb, bind_ret. split.
    + intros succ0 H0. unfold index. rewrite H0, bind_ret, bind_gets.
      destruct (build_emits (llvm.Br (Frame.block (st_frame s) succ0)) s)
        as (s2 & H2 & He2).
      unfold CreateBr. rewrite (bind_eq_Ok _ _ _ _ _ H2).
      exists s2. split; [reflexivity|exact He2].
    + intros ->. reflexivity.
Qed.

Lemma parseInstr_branches_witness :
  exists s', parseInstr Examples.sum_heap 5 110%positive Examples.sum_state
             = (Ok tt, s') /\
    emits Examples.sum_state s'
      [{| llvm.i_parent := Compiler.builder (st_c Examples.sum_state);
          llvm.i_name := "";
          llvm.i_op := llvm.Br (Frame.block (st_frame Examples.sum_state)
                                  203%positive) |}].
Proof.
  refine (proj1 (proj2 (parseInstr_branches Examples.sum_heap 5 110%positive
                          200%positive
                          {| ssa.Comment := "entry"; ssa.Instrs := [110%positive];
                             ssa.Preds := []; ssa.Succs := [203%positive] |}
                          Examples.sum_state _) _) 203%positive _).
  - vm_compute. reflexivity.
  - vm_compute. reflexivity.
  - reflexivity.
Defined.

(** ** Calls of functions *)

Lemma mapM_operands heap fuel Args : forall ts s,
  Forall2 (operand heap (st_frame s)) Args ts ->
  exists vs s',
    mapM (parseExpr heap (S fuel)) Args s = (Ok vs, s') /\
    emits s s' [] /\ length vs = length Args.
Proof.
  induction Args as [|a Args IH]; intros ts s HF.
  - exists [], s. split; [reflexivity|]. split; [apply emits_refl|reflexivity].
  - apply Forall2_cons_inv_l in HF as (t & ts' & Hop & HF' & ->).
    destruct (operand_parseExpr heap fuel a t s Hop) as (v & s1 & H1 & He1).
    assert (Hfr : st_frame s1 = st_frame s) by apply He1.
    rewrite <- Hfr in HF'.
    destruct (IH _ s1 HF') as (vs & s2 & H2 & He2 & Hl).
    exists (v :: vs), s2. simpl mapM.
    rewrite (bind_eq_Ok _ _ _ _ _ H1), (bind_eq_Ok _ _ _ _ _ H2).
    split; [reflexivity|]. split; [|simpl; now rewrite Hl].
    exact (emits_trans _ _ _ _ _ He1 He2).
Qed.

(** X16.  The callee of a function call is looked up under its qualified
    name before any argument is lowered.  When no function of that name is
    declared, the call fails with the undefined-function error and the
    state is as it was.  When one is, and the arguments are operands at
    hand, one call of that function is emitted, with one value per
    argument, and its result is the value of the call. *)
Theorem parseFunctionCall_lookup (heap : ssa.Heap) (fuel : nat)
  (Args : list ssa.addr) (fnName : string) (s : State) :
  let name := getPackageRelativeName (st_frame s) fnName in
  (llvm.NamedFunction (Compiler.mod_ (st_c s)) name = llvm.NilValue ->
   forall rec,
     parseFunctionCall rec Args fnName s = (Err (ErrUndefinedFunction name), s)) /\
  (forall i ts,
      llvm.NamedFunction (Compiler.mod_ (st_c s)) name = llvm.FunctionValue i ->
      Forall2 (operand heap (st_frame s)) Args ts ->
      exists vs s',
        parseFunctionCall (parseExpr heap (S fuel)) Args fnName s
        = (Ok (llvm.InstrValue (length (instrs_of s))), s') /\
        length vs = length Args /\
        emits s s' [{| llvm.i_parent := Compiler.builder (st_c s);
                       llvm.i_name := "";
                       llvm.i_op := llvm.Call (llvm.FunctionValue i) vs |}]).
Proof.
  intros name. split.
  - intros Hnil rec. unfold parseFunctionCall.
    rewrite bind_gets, bind_gets. fold name. now rewrite Hnil.
  - intros i ts Hf HF. unfold parseFunctionCall.
    rewrite bind_gets, bind_gets. fold name. rewrite Hf.
    lazymatch goal with
    | |- context [if llvm.IsNil (llvm.FunctionValue i) then ?x else ?y] =>
        change (if llvm.IsNil (llvm.FunctionValue i) then x else y) with y
    end.
    destruct (mapM_operands heap fuel Args ts s HF) as (vs & s1 & H1 & He1 & Hl).
    rewrite (bind_eq_Ok _ _ _ _ _ H1).
    destruct (build_emits (llvm.Call (llvm.FunctionValue i) vs) s1)
      as (s2 & H2 & He2).
    exists vs, s2. unfold CreateCall. rewrite H2.
    pose proof (emits_trans _ _ _ _ _ He1 He2) as He. simpl in He.
    destruct He1 as (_ & Hb & _ & Hin). rewrite app_nil_r in Hin.
    unfold instrs_of. rewrite Hin. split; [reflexivity|]. split; [exact Hl|].
    now rewrite Hb in He.
Qed.

Lemma parseFunctionCall_lookup_witness :
  parseFunctionCall (parseExpr Examples.print_heap 0) [1%positive] "helper"
    Examples.s0
  = (Err (ErrUndefinedFunction "main.helper"), Examples.s0) /\
  (exists vs s',
      parseFunctionCall (parseExpr Examples.sum_heap 1) [101%positive] "sum"
        Examples.sum_state
      = (Ok (llvm.InstrValue (length (instrs_of Examples.sum_state))), s') /\
      length vs = length [101%positive] /\
      emits Examples.sum_state s'
        [{| llvm.i_parent := Compiler.builder (st_c Examples.sum_state);
            llvm.i_name := "";
            llvm.i_op := llvm.Call (llvm.FunctionValue 4) vs |}]).
Proof.
  split.
  - apply (proj1 (parseFunctionCall_lookup Examples.print_heap 0 [1%positive]
                    "helper" Examples.s0)).
    vm_compute. reflexivity.
  - apply (proj2 (parseFunctionCall_lookup Examples.sum_heap 0 [101%positive]
                    "sum" Examples.sum_state) 4%nat [Examples.tInt]).
    + vm_compute. reflexivity.
    + constructor; [|constructor].
      exists (ssa.Const Examples.tInt (constant.Int 0)).
      split; [vm_compute; reflexivity|]. split; [reflexivity|].
      right. now left.
Defined.

(** ** The blocks of a function *)

Lemma createBlocks_loop heap fn bs : forall s s',
  forM bs (fun block =>
    blk <- blockAt heap block ;;
    llvmBlock <- liftC (on_mod (fun m => llvm.AddBasicBlock m fn (ssa.Comment blk))) ;;
    modify_frame (Frame.set_blocks <[block := llvmBlock]>)) s = (Ok tt, s') ->
  (exists new,
      llvm.blocks (Compiler.mod_ (st_c s'))
      = llvm.blocks (Compiler.mod_ (st_c s)) ++ new /\
      Forall2 (fun b info => exists blk,
                 ssa.blocks heap !! b = Some blk /\
                 info = {| llvm.b_parent := fn; llvm.b_name := ssa.Comment blk |})
        bs new) /\
  instrs_of s' = instrs_of s /\
  llvm.functions (Compiler.mod_ (st_c s')) = llvm.functions (Compiler.mod_ (st_c s)) /\
  llvm.globals (Compiler.mod_ (st_c s')) = llvm.globals (Compiler.mod_ (st_c s)) /\
  (forall b, b ∉ bs ->
     Frame.blocks (st_frame s') !! b = Frame.blocks (st_frame s) !! b) /\
  (NoDup bs -> forall j b, bs !! j = Some b ->
     Frame.blocks (st_frame s') !! b
     = Some (llvm.Block (length (llvm.blocks (Compiler.mod_ (st_c s))) + j))).
Proof.
  induction bs as [|b bs IH]; intros s s'; simpl.
  - intros [= <-]. split.
    { exists []. rewrite app_nil_r. split; [reflexivity|constructor]. }
    repeat split; try reflexivity. intros _ j b Hj. discriminate.
  - intros H. apply bind_Ok in H as ([] & s1 & Hb & H).
    apply bind_Ok in Hb as (blk & s0 & Hblk & Hb). unfold blockAt in Hblk.
    destruct (ssa.blocks heap !! b) as [blk'|] eqn:Eb; [|discriminate].
    assert (blk' = blk /\ s0 = s) as [-> ->]
      by (unfold ret in Hblk; split; congruence).
    clear Hblk. unfold bind, liftC, on_mod, modify_frame, modify in Hb. simpl in Hb.
    injection Hb as <-.
    apply IH in H as ((new & Hnew & HF) & Hi & Hfn & Hg & Hout & Hin).
    simpl in *. split.
    { exists ({| llvm.b_parent := fn; llvm.b_name := ssa.Comment blk |} :: new).
      rewrite Hnew, <- app_assoc. split; [reflexivity|].
      constructor; [now exists blk|exact HF]. }
    split; [exact Hi|]. split; [exact Hfn|]. split; [exact Hg|]. split.
    + intros b' Hb'. apply not_elem_of_cons in Hb' as [Hne Hb'].
      rewrite (Hout b' Hb'). now rewrite lookup_insert_ne.
    + intros Hnd j b' Hj. apply NoDup_cons in Hnd as [Hnotin Hnd].
      destruct j as [|j]; simpl in Hj.
      * injection Hj as <-. rewrite (Hout b Hnotin), lookup_insert_eq.
        do 2 f_equal. lia.
      * rewrite (Hin Hnd j b' Hj), length_app. simpl. do 2 f_equal. lia.
Qed.

(** X17.  [parseFunc] first makes one IR block for every block of the
    function, in dominator preorder: the new blocks belong to the function
    that is declared under the frame's name and are labelled with the
    comments of the SSA blocks, and [frame.blocks] maps the j-th SSA block
    to the j-th new IR block, so that distinct SSA blocks have distinct IR
    blocks.  No instruction, function or global is added. *)
Theorem createBlocks_Ok (heap : ssa.Heap) (f : ssa.Function) (s s' : State) :
  createBlocks heap f s = (Ok tt, s') ->
  NoDup (ssa.DomPreorder f) ->
  let fn := llvm.NamedFunction (Compiler.mod_ (st_c s)) (Frame.name (st_frame s)) in
  let n := length (llvm.blocks (Compiler.mod_ (st_c s))) in
  (exists new,
      llvm.blocks (Compiler.mod_ (st_c s'))
      = llvm.blocks (Compiler.mod_ (st_c s)) ++ new /\
      Forall2 (fun b info => exists blk,
                 ssa.blocks heap !! b = Some blk /\
                 info = {| llvm.b_parent := fn; llvm.b_name := ssa.Comment blk |})
        (ssa.DomPreorder f) new) /\
  (forall j b, ssa.DomPreorder f !! j = Some b ->
     Frame.block (st_frame s') b = llvm.Block (n + j)) /\
  (forall b b', b ∈ ssa.DomPreorder f -> b' ∈ ssa.DomPreorder f ->
     Frame.block (st_frame s') b = Frame.block (st_frame s') b' -> b = b') /\
  instrs_of s' = instrs_of s /\
  llvm.functions (Compiler.mod_ (st_c s')) = llvm.functions (Compiler.mod_ (st_c s)) /\
  llvm.globals (Compiler.mod_ (st_c s')) = llvm.globals (Compiler.mod_ (st_c s)).
Proof.
  intros H Hnd fn n. unfold createBlocks in H. rewrite bind_gets in H.
  apply createBlocks_loop in H as (Hnew & Hi & Hfn & Hg & _ & Hin).
  specialize (Hin Hnd).
  assert (Hblock : forall j b, ssa.DomPreorder f !! j = Some b ->
            Frame.block (st_frame s') b = llvm.Block (n + j)).
  { intros j b Hj. unfold Frame.block. now rewrite (Hin j b Hj). }
  split; [exact Hnew|]. split; [exact Hblock|]. split; [|auto].
  intros b b' Hb Hb' Heq.
  apply list_elem_of_lookup in Hb as [j Hj]. apply list_elem_of_lookup in Hb' as [j' Hj'].
  rewrite (Hblock j b Hj), (Hblock j' b' Hj') in Heq.
  assert (j = j') as -> by (injection Heq; lia). congruence.
Qed.

Lemma createBlocks_Ok_witness :
  let s' := snd (createBlocks Examples.sum_heap Examples.sum Examples.sum_state) in
  Frame.block (st_frame s') 203%positive = llvm.Block 1 /\
  map llvm.b_name (llvm.blocks (Compiler.mod_ (st_c s')))
  = ["entry"; "for.loop"; "for.body"; "for.done"].
Proof.
  intros s'.
  destruct (createBlocks_Ok Examples.sum_heap Examples.sum Examples.sum_state s')
    as (_ & Hblock & _).
  - vm_compute. reflexivity.
  - vm_compute. repeat (apply NoDup_cons_2; [intros Hx; repeat (apply elem_of_cons in Hx as [Hx|Hx]; [discriminate|]); inversion Hx|]). apply NoDup_nil_2.
  - split; [|vm_compute; reflexivity].
    apply (Hblock 1%nat 203%positive). reflexivity.
Defined.

(** ** Package-level variables and constants *)

Lemma alter_last {A} (f : A -> A) (l : list A) (x : A) :
  alter f (length l) (l ++ [x]) = l ++ [f x].
Proof.
  induction l as [|a l IH]; simpl; [reflexivity|]. now rewrite <- IH.
Qed.

(** X18.  The first loop of [Parse] turns a package-level variable into one
    new global, named by the package prefix, a dot and the variable's name,
    of the IR type of the member's type, without initializer; a variable
    whose type is not supported stops the loop with the error of the type
    mapper and adds nothing.  The global of an exported variable gets
    private linkage, that of an unexported one keeps external linkage
    (stated for names that begin with an ASCII character, for which
    exported means an initial from [A] to [Z]).  No function, block or
    instruction is added, and the map of frames is returned as it was. *)
Theorem declareMember_Global (heap : ssa.Heap) (k : nat) (pkg : ssa.Package)
  (name mname : string) (t : types.Type_) (frames : gmap ssa.addr Frame.t)
  (s : ParseState) :
  ssa.lookup_member (ssa.Members pkg) name = Some (ssa.MemberGlobal mname t) ->
  ascii_initial mname ->
  let r := declareMember heap k pkg name frames s in
  let m := Compiler.mod_ (ps_c s) in
  let m' := Compiler.mod_ (ps_c (snd r)) in
  llvm.functions m' = llvm.functions m /\
  llvm.blocks m' = llvm.blocks m /\
  llvm.instrs m' = llvm.instrs m /\
  match getLLVMType (ps_c s) t with
  | Ok typ =>
      fst r = Ok frames /\
      llvm.globals m'
      = llvm.globals m ++
        [{| llvm.g_name := pkgPrefix pkg +:+ "." +:+ mname;
            llvm.g_type := typ;
            llvm.g_initializer := None;
            llvm.g_constant := false;
            llvm.g_linkage := member_linkage mname |}]
  | Err e => fst r = Err e /\ llvm.globals m' = llvm.globals m
  | _ => llvm.globals m' = llvm.globals m
  end.
Proof.
  intros Hm _. unfold declareMember. rewrite Hm.
  unfold bind, record, modify, liftP, getType, on_mod, member_linkage. simpl.
  destruct (getLLVMType (ps_c s) t) as [typ|e| |]; simpl; auto.
  destruct (ast.IsExported mname); simpl.
  - repeat split. now rewrite alter_last.
  - repeat split.
Qed.

Lemma declareMember_Global_witness :
  let r := declareMember Examples.hello_heap 0 MoreExamples.vars_pkg "count" ∅
             Examples.ps0 in
  fst r = Ok ∅ /\
  llvm.globals (Compiler.mod_ (ps_c (snd r)))
  = llvm.globals (Compiler.mod_ (ps_c Examples.ps0)) ++
    [{| llvm.g_name := "example/vars.count";
        llvm.g_type := llvm.PointerType (llvm.IntType 32) 0;
        llvm.g_initializer := None;
        llvm.g_constant := false;
        llvm.g_linkage := llvm.ExternalLinkage |}].
Proof.
  intros r.
  destruct (declareMember_Global Examples.hello_heap 0 MoreExamples.vars_pkg
              "count" "count" (types.Pointer Examples.tInt) ∅ Examples.ps0)
    as (_ & _ & _ & H).
  - reflexivity.
  - vm_compute. reflexivity.
  - exact H.
Defined.

(** X19.  The first loop of [Parse] turns a named constant whose value
    [parseConst] accepts into one new global after whatever [parseConst]
    made: it has the qualified name of the constant and the type of the IR
    constant, is initialized with it and marked constant, and its linkage
    follows the same rule as for variables (private for an exported name;
    stated for names that begin with an ASCII character).  A constant that
    [parseConst] refuses stops the loop with that error.  For a string
    constant this is stated for a compiler whose builder is positioned in a
    block of a function, as it is once a function of an earlier package has
    been defined. *)
Theorem declareMember_NamedConst (heap : ssa.Heap) (k : nat) (pkg : ssa.Package)
  (name mname : string) (t : types.Type_) (Value : constant.Value)
  (frames : gmap ssa.addr Frame.t) (s : ParseState) :
  ssa.lookup_member (ssa.Members pkg) name
  = Some (ssa.MemberNamedConst mname t Value) ->
  ascii_initial mname ->
  (constant.Kind Value = constant.KString -> positioned (ps_c s)) ->
  let r := declareMember heap k pkg name frames s in
  let m' := Compiler.mod_ (ps_c (snd r)) in
  match parseConst Value (ps_c s) with
  | (Ok val, c1) =>
      fst r = Ok frames /\
      llvm.globals m'
      = llvm.globals (Compiler.mod_ c1) ++
        [{| llvm.g_name := pkgPrefix pkg +:+ "." +:+ mname;
            llvm.g_type := llvm.TypeOf val;
            llvm.g_initializer := Some val;
            llvm.g_constant := true;
            llvm.g_linkage := member_linkage mname |}] /\
      llvm.functions m' = llvm.functions (Compiler.mod_ c1) /\
      llvm.blocks m' = llvm.blocks (Compiler.mod_ c1) /\
      llvm.instrs m' = llvm.instrs (Compiler.mod_ c1)
  | (Err e, c1) => fst r = Err e /\ ps_c (snd r) = c1
  | (_, c1) => ps_c (snd r) = c1
  end.
Proof.
  intros Hm _ _. unfold declareMember. rewrite Hm.
  unfold bind, record, modify, liftP, on_mod, member_linkage. simpl.
  destruct (parseConst Value (ps_c s)) as [[val|e| |] c1]; simpl; auto.
  destruct (ast.IsExported mname); simpl.
  - repeat split. now rewrite !alter_last.
  - repeat split. now rewrite !alter_last.
Qed.

Lemma declareMember_NamedConst_witness :
  let r := declareMember Examples.hello_heap 0 MoreExamples.vars_pkg "Limit" ∅
             Examples.ps0 in
  fst r = Ok ∅ /\
  llvm.globals (Compiler.mod_ (ps_c (snd r)))
  = [{| llvm.g_name := "example/vars.Limit";
        llvm.g_type := llvm.IntType 32;
        llvm.g_initializer := Some (llvm.CInt (llvm.IntType 32) 10);
        llvm.g_constant := true;
        llvm.g_linkage := llvm.PrivateLinkage |}].
Proof.
  intros r.
  destruct (declareMember_NamedConst Examples.hello_heap 0 MoreExamples.vars_pkg
              "Limit" "Limit" Examples.tInt (constant.Int 10) ∅ Examples.ps0)
    as (H1 & H2 & _).
  - reflexivity.
  - vm_compute. reflexivity.
  - discriminate.
  - split; [exact H1|exact H2].
Defined.

(** ** What the definition of a function leaves alone *)

#[local] Instance grows_preorder : PreOrder grows.
Proof.
  split.
  - intros c. repeat split; reflexivity.
  - intros c1 c2 c3 (F1 & G1 & B1 & I1) (F2 & G2 & B2 & I2).
    split; [congruence|]. split; [now transitivity (llvm.globals (Compiler.mod_ c2))|].
    split; [now transitivity (llvm.blocks (Compiler.mod_ c2))|].
    now transitivity (llvm.i_parent <$> llvm.instrs (Compiler.mod_ c2)).
Qed.

#[local] Instance defines_preorder : PreOrder defines.
Proof.
  split.
  - intros s. split; [reflexivity|]. repeat split; reflexivity.
  - intros s1 s2 s3 (G1 & N1 & P1 & A1) (G2 & N2 & P2 & A2).
    split; [now transitivity (st_c s2)|]. repeat split; congruence.
Qed.

Lemma liftC_defines {A} (m : M Compiler.t A) :
  preserves grows m -> preserves defines (liftC m).
Proof.
  intros H s o s'. unfold liftC. destruct (m (st_c s)) as [o1 c1] eqn:E.
  intros [= _ <-]. apply H in E. split; [exact E|]. repeat split; reflexivity.
Qed.

Lemma modify_frame_defines f :
  (forall fr, Frame.name (f fr) = Frame.name fr /\
              Frame.pkgPrefix (f fr) = Frame.pkgPrefix fr /\
              Frame.params (f fr) = Frame.params fr) ->
  preserves defines (modify_frame f).
Proof.
  intros Hf s o s' [= _ <-]. split; [reflexivity|]. apply Hf.
Qed.

Lemma build_grows op name : preserves grows (build op name).
Proof.
  intros c o c' [= _ <-]. repeat split; simpl; try reflexivity.
  rewrite fmap_app. now eexists.
Qed.

Lemma getType_grows t : preserves grows (getType t).
Proof. intros c o c' [= _ <-]. reflexivity. Qed.

Lemma SetInsertPointAtEnd_grows b : preserves grows (SetInsertPointAtEnd b).
Proof. intros c o c' [= _ <-]. repeat split; simpl; reflexivity. Qed.

Lemma parseConst_grows v : preserves grows (parseConst v).
Proof.
  unfold parseConst. destruct (constant.Kind v).
  1,2,5,6: apply preserves_throw; typeclasses eauto.
  - apply preserves_bind; [typeclasses eauto|apply preserves_gets; typeclasses eauto|].
    intros t. apply preserves_bind; [typeclasses eauto| |].
    + intros c o c' [= _ <-]. repeat split; simpl; try reflexivity. now eexists.
    + intros p. apply preserves_ret. typeclasses eauto.
  - destruct (constant.Int64Val v).
    apply preserves_bind; [typeclasses eauto|apply preserves_gets; typeclasses eauto|].
    intros t. apply preserves_ret. typeclasses eauto.
Qed.

Lemma AddBasicBlock_grows fn name :
  preserves grows (on_mod (fun m => llvm.AddBasicBlock m fn name)).
Proof.
  intros c o c' [= _ <-]. repeat split; simpl; try reflexivity. now eexists.
Qed.

Lemma AddIncoming_grows q vs bs :
  preserves grows (modify (Compiler.with_mod (llvm.AddIncoming q vs bs))).
Proof.
  intros c o c' [= _ <-]. destruct q; repeat split; try reflexivity.
  cbn [Compiler.mod_ Compiler.with_mod llvm.AddIncoming llvm.set_instrs llvm.instrs].
  rewrite alter_parent; [reflexivity|].
  intros x. destruct (llvm.i_op x); reflexivity.
Qed.

(** Steps that read the state or let the module grow. *)
Ltac defines_step :=
  first
    [ apply preserves_bind; [typeclasses eauto| |intros ?]
    | apply preserves_ret; typeclasses eauto
    | apply preserves_throw; typeclasses eauto
    | apply preserves_panic; typeclasses eauto
    | apply preserves_lift; typeclasses eauto
    | apply preserves_gets; typeclasses eauto
    | apply preserves_typeOf; typeclasses eauto
    | apply preserves_blockAt; typeclasses eauto
    | apply preserves_index; typeclasses eauto
    | apply liftC_defines;
      first [ unfold_builder; apply build_grows | apply getType_grows
            | apply parseConst_grows | apply SetInsertPointAtEnd_grows
            | apply AddBasicBlock_grows | apply AddIncoming_grows ]
    | apply modify_frame_defines; intros ?; repeat split; reflexivity
    | match goal with |- preserves _ (if ?b then _ else _) => destruct b end ].

Lemma parseCall_defines heap rec Value Args :
  (forall a, preserves defines (rec a)) ->
  preserves defines (parseCall heap rec Value Args).
Proof.
  intros Hrec. destruct Value as [name|name|]; simpl.
  - unfold parseBuiltin.
    destruct (String.eqb name "print" || String.eqb name "println");
      [|repeat defines_step].
    apply preserves_bind; [typeclasses eauto| |intros _; repeat defines_step].
    apply preserves_forM_from; [typeclasses eauto|].
    intros i x. unfold printArg.
    apply preserves_bind; [typeclasses eauto|repeat defines_step|intros _].
    apply preserves_bind; [typeclasses eauto|apply Hrec|intros v].
    apply preserves_bind; [typeclasses eauto|repeat defines_step|intros t].
    destruct t as [kd| | | | | | | | | |]; try (repeat defines_step; fail).
    destruct kd; repeat defines_step.
  - unfold parseFunctionCall.
    apply preserves_bind; [typeclasses eauto|repeat defines_step|intros fr].
    apply preserves_bind; [typeclasses eauto|repeat defines_step|intros tg].
    destruct (llvm.IsNil tg); [repeat defines_step|].
    apply preserves_bind; [typeclasses eauto| |intros ps; repeat defines_step].
    apply preserves_mapM; [typeclasses eauto|exact Hrec].
  - repeat defines_step.
Qed.

Lemma parseExpr_defines heap fuel : forall expr,
  preserves defines (parseExpr heap fuel expr).
Proof.
  induction fuel as [|fuel IH]; intros expr; simpl.
  - apply preserves_lift. typeclasses eauto.
  - apply preserves_bind; [typeclasses eauto|repeat defines_step|intros frame].
    destruct (Frame.locals frame !! expr); [repeat defines_step|].
    destruct (ssa.values heap !! expr) as [node|] eqn:Hn; [|repeat defines_step].
    destruct node; try (repeat defines_step; fail).
    + destruct (types.Underlying typ); repeat defines_step.
    + unfold parseBinOp.
      apply preserves_bind; [typeclasses eauto|apply IH|intros x].
      apply preserves_bind; [typeclasses eauto|apply IH|intros y].
      destruct Op; repeat defines_step.
    + now apply parseCall_defines.
    + apply preserves_bind; [typeclasses eauto|apply IH|intros v].
      repeat defines_step.
    + unfold parseUnOp.
      apply preserves_bind; [typeclasses eauto|apply IH|intros x].
      destruct Op; repeat defines_step.
Qed.

Lemma parseInstr_defines heap fuel instr :
  preserves defines (parseInstr heap fuel instr).
Proof.
  unfold parseInstr.
  assert (Hval : preserves defines
            (fun s =>
               let '(o, s') := parseExpr heap fuel instr s in
               let store value :=
                 {| st_c := st_c s';
                    st_frame := Frame.set_locals <[instr := value]> (st_frame s') |} in
               match o with
               | Ok value => (Ok tt, store value)
               | Err e => (Err e, store llvm.NilValue)
               | Panic => (Panic, s')
               | OutOfFuel => (OutOfFuel, s')
               end)).
  { intros s o s'. destruct (parseExpr heap fuel instr s) as [o1 s1] eqn:E.
    apply parseExpr_defines in E.
    destruct o1; intros [= _ <-]; exact E. }
  destruct (ssa.values heap !! instr) as [node|];
    [|apply preserves_panic; typeclasses eauto].
  destruct node; try exact Hval.
  - repeat first [apply parseExpr_defines | defines_step].
  - repeat first [apply parseExpr_defines | defines_step].
  - destruct Results as [|r [|r' rs]];
      repeat first [apply parseExpr_defines | defines_step].
  - repeat first [apply parseExpr_defines | defines_step].
  - repeat defines_step.
Qed.

(** X20.  In a program without heap allocations, defining a function,
    whatever the outcome, declares nothing and removes nothing: the module
    has the same functions afterwards; the globals and the blocks it had
    are a prefix of those it has; every instruction it had is still there,
    at its place and in its block; and the name, the package prefix and the
    parameter indices of the frame are untouched. *)
Theorem parseFunc_defines (heap : ssa.Heap) (fuel : nat) (f : ssa.Function)
  (s s' : State) (o : outcome unit) :
  no_heap_alloc heap ->
  parseFunc heap fuel f s = (o, s') ->
  llvm.functions (Compiler.mod_ (st_c s')) = llvm.functions (Compiler.mod_ (st_c s)) /\
  llvm.globals (Compiler.mod_ (st_c s)) `prefix_of` llvm.globals (Compiler.mod_ (st_c s')) /\
  llvm.blocks (Compiler.mod_ (st_c s)) `prefix_of` llvm.blocks (Compiler.mod_ (st_c s')) /\
  (llvm.i_parent <$> instrs_of s) `prefix_of` (llvm.i_parent <$> instrs_of s') /\
  Frame.name (st_frame s') = Frame.name (st_frame s) /\
  Frame.pkgPrefix (st_frame s') = Frame.pkgPrefix (st_frame s) /\
  Frame.params (st_frame s') = Frame.params (st_frame s).
Proof.
  intros _ H.
  assert (Hd : preserves defines (parseFunc heap fuel f)).
  { unfold parseFunc, createBlocks, fillBlocks, resolvePhis.
    apply preserves_bind; [typeclasses eauto| |intros _].
    { apply preserves_bind; [typeclasses eauto|repeat defines_step|intros fn].
      apply preserves_forM; [typeclasses eauto|]. intros b. repeat defines_step. }
    apply preserves_bind; [typeclasses eauto| |intros _].
    { apply preserves_forM; [typeclasses eauto|]. intros b.
      apply preserves_bind; [typeclasses eauto|repeat defines_step|intros bl].
      apply preserves_bind; [typeclasses eauto|repeat defines_step|intros _].
      apply preserves_bind; [typeclasses eauto|repeat defines_step|intros blk].
      apply preserves_forM; [typeclasses eauto|]. intros i.
      apply parseInstr_defines. }
    apply preserves_bind; [typeclasses eauto|repeat defines_step|intros phis].
    apply preserves_forM; [typeclasses eauto|]. intros p. unfold resolvePhi.
    destruct (ssa.values heap !! Phi_ssa p) as [node|]; [|repeat defines_step].
    destruct node; try (repeat defines_step; fail).
    apply preserves_bind; [typeclasses eauto|repeat defines_step|intros blk].
    apply preserves_forM_from; [typeclasses eauto|]. intros i e.
    apply preserves_bind; [typeclasses eauto|apply parseExpr_defines|intros v].
    repeat defines_step. }
  apply Hd in H as ((F & G & B & I) & N & P & A). repeat split; assumption.
Qed.

Lemma parseFunc_defines_witness :
  let s' := snd (parseFunc Examples.sum_heap 10 Examples.sum Examples.sum_state) in
  llvm.functions (Compiler.mod_ (st_c s'))
  = llvm.functions (Compiler.mod_ (st_c Examples.sum_state)).
Proof.
  intros s'.
  destruct (parseFunc_defines Examples.sum_heap 10 Examples.sum Examples.sum_state
              s' (Ok tt)) as (H & _).
  - intros a t comment Hv. apply elem_of_list_to_map_2 in Hv.
    repeat (apply elem_of_cons in Hv as [Hv|Hv]; [discriminate|]).
    inversion Hv.
  - vm_compute. reflexivity.
  - exact H.
Defined.

(** ** Where the instructions of a function go *)

Lemma createBlocks_quiet heap fn bs : forall s o s',
  forM bs (fun block =>
    blk <- blockAt heap block ;;
    llvmBlock <- liftC (on_mod (fun m => llvm.AddBasicBlock m fn (ssa.Comment blk))) ;;
    modify_frame (Frame.set_blocks <[block := llvmBlock]>)) s = (o, s') ->
  Compiler.builder (st_c s') = Compiler.builder (st_c s) /\
  instrs_of s' = instrs_of s /\
  Frame.phis (st_frame s') = Frame.phis (st_frame s).
Proof.
  induction bs as [|b bs IH]; intros s o s'; simpl.
  - intros [= _ <-]. auto.
  - unfold bind at 1, blockAt.
    destruct (ssa.blocks heap !! b) as [blk|]; [|intros [= _ <-]; auto].
    unfold bind at 1, ret, liftC, on_mod, modify_frame, modify. simpl.
    intros H. apply IH in H as (U & I & Ph). auto.
Qed.

(** X21.  Every instruction that the definition of a function emits,
    whatever the outcome, lies in one of the IR blocks made for this
    function by the same call; the instructions already in the module stay
    in their blocks.  (The function has at least one block, and its blocks
    are listed once each.) *)
Theorem parseFunc_blocks (heap : ssa.Heap) (fuel : nat) (f : ssa.Function)
  (s s' : State) (o : outcome unit) :
  parseFunc heap fuel f s = (o, s') ->
  NoDup (ssa.DomPreorder f) ->
  ssa.DomPreorder f <> [] ->
  exists new,
    parents s' = parents s ++ new /\
    Forall (fun p => exists j,
              p = llvm.Block j /\
              (length (llvm.blocks (Compiler.mod_ (st_c s))) <= j
               < length (llvm.blocks (Compiler.mod_ (st_c s'))))%nat) new.
Proof.
  intros H Hnd Hne. unfold parseFunc in H. unfold bind at 1 in H.
  destruct (createBlocks heap f s) as [o1 s1] eqn:E1.
  assert (Hq : Compiler.builder (st_c s1) = Compiler.builder (st_c s) /\
               instrs_of s1 = instrs_of s /\
               Frame.phis (st_frame s1) = Frame.phis (st_frame s)).
  { unfold createBlocks in E1. rewrite bind_gets in E1.
    now apply createBlocks_quiet in E1. }
  destruct Hq as (_ & Hi1 & _).
  assert (Hstop : (o1, s1) = (o, s') -> exists new,
    parents s' = parents s ++ new /\
    Forall (fun p => exists j,
              p = llvm.Block j /\
              (length (llvm.blocks (Compiler.mod_ (st_c s))) <= j
               < length (llvm.blocks (Compiler.mod_ (st_c s'))))%nat) new).
  { intros [= _ <-]. exists []. unfold parents. rewrite Hi1, app_nil_r.
    split; [reflexivity|constructor]. }
  destruct o1 as [[]|e| |]; try (apply Hstop; exact H). clear Hstop.
  unfold createBlocks in E1. rewrite bind_gets in E1.
  apply createBlocks_loop in E1 as ((newb & Hnewb & HF) & _ & _ & _ & _ & Hin).
  specialize (Hin Hnd). apply Forall2_length in HF.
  set (n := length (llvm.blocks (Compiler.mod_ (st_c s)))) in *.
  set (P := fun p => exists j, p = llvm.Block j /\
              (n <= j < length (llvm.blocks (Compiler.mod_ (st_c s1))))%nat).
  assert (HP : forall b, b ∈ ssa.DomPreorder f -> P (Frame.block (st_frame s1) b)).
  { intros b Hb. apply list_elem_of_lookup in Hb as [j Hj].
    unfold Frame.block. rewrite (Hin j b Hj). simpl. exists (n + j)%nat.
    split; [reflexivity|]. apply lookup_lt_Some in Hj.
    rewrite Hnewb, length_app. fold n. lia. }
  unfold bind at 1 in H.
  destruct (fillBlocks heap fuel f s1) as [o2 s2] eqn:E2.
  unfold fillBlocks in E2.
  apply (fill_blocks heap fuel P) in E2 as (F2 & B2 & _ & U2 & n2 & P2 & A2);
    [|exact HP].
  specialize (U2 Hne).
  assert (Hconv : forall t new,
            llvm.blocks (Compiler.mod_ (st_c t))
            = llvm.blocks (Compiler.mod_ (st_c s1)) ->
            parents t = parents s ++ new -> Forall P new ->
            exists new,
              parents t = parents s ++ new /\
              Forall (fun p => exists j,
                        p = llvm.Block j /\
                        (n <= j < length (llvm.blocks (Compiler.mod_ (st_c t))))%nat)
                new).
  { intros t new Ht Hpt HA. exists new. split; [exact Hpt|].
    eapply Forall_impl; [exact HA|]. intros p (j & -> & Hj). exists j.
    split; [reflexivity|]. now rewrite Ht. }
  assert (Hp2 : parents s2 = parents s ++ n2).
  { rewrite P2. unfold parents. now rewrite Hi1. }
  destruct o2 as [[]|e| |];
    try (injection H as _ <-; apply (Hconv s2 n2); assumption).
  apply resolvePhis_at_builder in H as (_ & B3 & U3 & n3 & P3 & A3).
  apply (Hconv s' (n2 ++ n3)).
  - congruence.
  - rewrite P3, Hp2, app_assoc. reflexivity.
  - apply Forall_app. split; [exact A2|].
    eapply Forall_impl; [exact A3|]. intros p <-. exact U2.
Qed.

Lemma parseFunc_blocks_witness :
  let s' := snd (parseFunc Examples.sum_heap 10 Examples.sum Examples.sum_state) in
  exists new,
    parents s' = parents Examples.sum_state ++ new /\
    Forall (fun p => exists j,
              p = llvm.Block j /\
              (length (llvm.blocks (Compiler.mod_ (st_c Examples.sum_state))) <= j
               < length (llvm.blocks (Compiler.mod_ (st_c s'))))%nat) new.
Proof.
  intros s'.
  apply (parseFunc_blocks Examples.sum_heap 10 Examples.sum Examples.sum_state
           s' (Ok tt)).
  - vm_compute. reflexivity.
  - vm_compute.
    repeat (apply NoDup_cons_2;
            [intros Hx;
             repeat (apply elem_of_cons in Hx as [Hx|Hx]; [discriminate|]);
             inversion Hx|]).
    apply NoDup_nil_2.
  - discriminate.
Defined.
